(** * Location tracker: the sync engine of app.js and the REST handlers of server.js

    A shallow embedding of the browser client (public/app.js) and of the
    Express handlers (server.js), with the properties of their specification
    stated and proved over it.

    - [Js]     : JavaScript values as the two programs see them (JSON bodies,
                 truthiness, typeof, property reads).
    - [Client] : the [app] object of app.js. Record objects live in a heap and
                 [app.locations] is an array of references to them, because the
                 code marks records through aliases ([unsyncedLocations], the
                 argument of [syncLocationToServer]). Functions are written in
                 a state-and-exception monad: a JavaScript [throw] leaves the
                 mutations done so far in place.
    - [Server] : the [locations] table and the statements server.js sends to
                 PostgreSQL, the [authenticate] middleware and the handlers.
    - [ClientMore] : the functions of app.js that add, import and clear
                 records by hand, and the connection test.
    - [Routes] : the other routes of server.js: reading, updating and
                 deleting locations, statistics and export.

    What lies outside the two programs is an input of the model: what each
    [fetch] comes to ([network]), whether localStorage accepts a write, the
    answer to the [confirm] dialog, the clock, whether the database is
    reachable, and how the driver and PostgreSQL convert a parameter ([Pg]).
    The elements of the page that app.js writes to (#syncIndicator, #toast,
    #debugLog, ...) are taken to exist, and the Leaflet calls to succeed. *)

From Stdlib Require Import ZArith Floats Bool.
From stdpp Require Import base list strings gmap pretty.

Open Scope string_scope.
Open Scope list_scope.
Set Warnings "-register-all,-clear-no-such-hyp".

(** ** JavaScript values *)

Module Js.

(** A value as [JSON.parse] / [express.json()] produce it, plus [undefined],
    which a property read of a missing key yields. *)
Inductive JValue : Type :=
| JUndefined
| JNull
| JBool (b : bool)
| JNum (x : float)
| JStr (s : string)
| JArr (items : list JValue)
| JObj (props : list (string * JValue)).

(** [!v] is [negb (truthy v)]: undefined, null, false, 0, -0, NaN and the
    empty string are falsy; every object and array is truthy. *)
Definition truthy (v : JValue) : bool :=
  match v with
  | JUndefined | JNull => false
  | JBool b => b
  | JNum x => negb (PrimFloat.eqb x 0 || negb (PrimFloat.eqb x x))
  | JStr s => negb (String.eqb s "")
  | JArr _ | JObj _ => true
  end.

Definition typeof (v : JValue) : string :=
  match v with
  | JUndefined => "undefined"
  | JNull | JArr _ | JObj _ => "object"
  | JBool _ => "boolean"
  | JNum _ => "number"
  | JStr _ => "string"
  end.

(** [v === JStr s] for a string literal [s]. *)
Definition is_string (s : string) (v : JValue) : bool :=
  match v with
  | JStr s' => String.eqb s' s
  | _ => false
  end.

Fixpoint assoc (k : string) (props : list (string * JValue)) : JValue :=
  match props with
  | [] => JUndefined
  | (k', v) :: rest => if String.eqb k' k then v else assoc k rest
  end.

(** [v.k] for the keys the programs read (id, type, note, ...; none of them
    is a built-in property of arrays, strings or numbers). [None] is the
    TypeError of reading a property of null or undefined. *)
Definition get_prop (v : JValue) (k : string) : option JValue :=
  match v with
  | JUndefined | JNull => None
  | JObj props => Some (assoc k props)
  | _ => Some JUndefined
  end.

Definition is_array (v : JValue) : bool :=
  match v with
  | JArr _ => true
  | _ => false
  end.

(** [a || b] *)
Definition js_or (a b : JValue) : JValue := if truthy a then a else b.

(** Whether [v] has a conversion to a string, which a template literal
    [`${v}`] and [parseFloat(v)] ask for. An object read from JSON converts
    through [Object.prototype.toString] unless it has a key of its own named
    toString: no JSON value is callable, and the fallback [valueOf] then
    gives no primitive, so the conversion throws a TypeError. An array joins
    the conversions of its elements, null and undefined counting as the
    empty string. *)
Fixpoint printable (v : JValue) : bool :=
  match v with
  | JArr items => forallb printable items
  | JObj props => negb (existsb (fun kv => String.eqb (fst kv) "toString") props)
  | _ => true
  end.

Inductive JsError : Type :=
| TypeError (message : string)
| SyntaxError (message : string)
| Error (message : string).

Definition message_of (e : JsError) : string :=
  match e with
  | TypeError m | SyntaxError m | Error m => m
  end.

End Js.

(** ** The browser client (public/app.js) *)

Module Client.
Import Js.

(** *** Data *)

(** A record object of [app.locations]. *)
Record Location : Type := {
  loc_id : Z;              (* id: Date.now() *)
  loc_type : string;       (* type *)
  loc_note : string;       (* note *)
  loc_lat : float;         (* lat *)
  loc_lng : float;         (* lng *)
  loc_timestamp : string;  (* timestamp: new Date().toISOString() *)
  loc_address : string;    (* address *)
  loc_synced : bool        (* synced *)
}.

(** [location.synced = b] *)
Definition set_synced (b : bool) (l : Location) : Location :=
  {| loc_id := loc_id l; loc_type := loc_type l; loc_note := loc_note l;
     loc_lat := loc_lat l; loc_lng := loc_lng l;
     loc_timestamp := loc_timestamp l; loc_address := loc_address l;
     loc_synced := b |}.

(** Objects are referred to by their address in the heap. *)
Abbreviation addr := nat (only parsing).

(** A JSON value that is not an array: what [JSON.parse] may hand to
    [app.locations] besides an array of record objects. An array with an
    element that is not a record object (the stored text [[null]], say) has
    no value in this model: [LArray] stands for an array of record objects,
    and what is stated of an array is stated under [refs_valid]. *)
Inductive NonArray : Type :=
| NNull
| NBool (b : bool)
| NNum (x : float)
| NStr (s : string)
| NObj (props : list (string * JValue)).

(** The value of [app.locations]. *)
Inductive LocationsVal : Type :=
| LArray (refs : list addr)
| LJunk (v : NonArray).

(** app.config *)
Record Config : Type := {
  serverUrl : string;
  apiKey : string;
  syncInterval : Z;
  offlineMode : bool
}.

(** app.syncState *)
Record SyncState : Type := {
  isSyncing : bool;
  lastSync : option Z;
  pendingSync : list Z
}.

(** The argument of [updateSyncIndicator]. *)
Inductive Status : Type := Online | Offline | Syncing.

(** *** The network *)

Inductive Method : Type := GET | POST | DELETE.

(** The JSON body of the upsert request. *)
Record UpsertBody : Type := {
  b_id : Z;
  b_type : string;
  b_note : string;
  b_latitude : float;
  b_longitude : float;
  b_timestamp : string;
  b_address : string
}.

(** A call of [fetch]: method, URL, the X-API-Key header and the body. *)
Record Request : Type := {
  req_method : Method;
  req_url : string;
  req_api_key : string;
  req_body : option UpsertBody
}.

(** What a [fetch] comes to: the promise rejects (no connection, DNS, CORS)
    or resolves to a response with a status. *)
Inductive FetchResult : Type :=
| NetworkError (message : string)
| Responded (status : nat).

(** response.ok *)
Definition response_ok (status : nat) : bool :=
  ((200 <=? status) && (status <=? 299))%nat.

Definition result_ok (r : FetchResult) : bool :=
  match r with
  | Responded status => response_ok status
  | NetworkError _ => false
  end.

Definition Exchange : Type := Request * FetchResult.

(** *** localStorage *)

(** The item 'tracker_locations', by what [getItem] and [JSON.parse] make of
    it. In the records of [JsonRecords] a coordinate that is NaN stands for
    the null that [JSON.stringify] writes for a number that is not finite
    (see [json_number]). *)
Inductive StoredItem : Type :=
| NoItem                           (* getItem returns null *)
| EmptyText                        (* the empty string *)
| BadText                          (* a non-empty text that JSON.parse rejects *)
| JsonRecords (ls : list Location) (* the text of an array of record objects *)
| JsonOther (v : NonArray).        (* the text of any other JSON value *)

(** *** The state: the [app] object and the page around it *)

Record App : Type := {
  heap : list Location;          (* the record objects, by address *)
  locations : LocationsVal;      (* app.locations *)
  currentFilter : string;        (* app.currentFilter *)
  markers : gset Z;              (* the keys of app.markers *)
  config : Config;               (* app.config *)
  syncState : SyncState;         (* app.syncState *)
  (* the page *)
  syncIndicator : option Status; (* class of #syncIndicator, text of #syncText *)
  toasts : list (string * string);   (* the calls of showToast: message, type *)
  debugLog : list (string * string); (* children of #debugLog: message, type *)
  console_errors : list string;  (* the calls of console.error *)
  (* localStorage *)
  tracker_locations : StoredItem;
  storage_writable : bool;       (* false: setItem throws (quota, private mode) *)
  (* the world *)
  network : list Exchange -> Request -> FetchResult;
  exchanges : list Exchange;     (* the calls of fetch so far, oldest first *)
  clock : Z                      (* new Date() *)
}.

Definition set_heap (h : list Location) (st : App) : App :=
  {| heap := h; locations := locations st; currentFilter := currentFilter st;
     markers := markers st; config := config st; syncState := syncState st;
     syncIndicator := syncIndicator st; toasts := toasts st;
     debugLog := debugLog st; console_errors := console_errors st;
     tracker_locations := tracker_locations st;
     storage_writable := storage_writable st; network := network st;
     exchanges := exchanges st; clock := clock st |}.

Definition set_locations (v : LocationsVal) (st : App) : App :=
  {| heap := heap st; locations := v; currentFilter := currentFilter st;
     markers := markers st; config := config st; syncState := syncState st;
     syncIndicator := syncIndicator st; toasts := toasts st;
     debugLog := debugLog st; console_errors := console_errors st;
     tracker_locations := tracker_locations st;
     storage_writable := storage_writable st; network := network st;
     exchanges := exchanges st; clock := clock st |}.

Definition set_markers (m : gset Z) (st : App) : App :=
  {| heap := heap st; locations := locations st;
     currentFilter := currentFilter st;
     markers := m; config := config st; syncState := syncState st;
     syncIndicator := syncIndicator st; toasts := toasts st;
     debugLog := debugLog st; console_errors := console_errors st;
     tracker_locations := tracker_locations st;
     storage_writable := storage_writable st; network := network st;
     exchanges := exchanges st; clock := clock st |}.

Definition set_config (c : Config) (st : App) : App :=
  {| heap := heap st; locations := locations st;
     currentFilter := currentFilter st;
     markers := markers st; config := c; syncState := syncState st;
     syncIndicator := syncIndicator st; toasts := toasts st;
     debugLog := debugLog st; console_errors := console_errors st;
     tracker_locations := tracker_locations st;
     storage_writable := storage_writable st; network := network st;
     exchanges := exchanges st; clock := clock st |}.

Definition set_syncState (s : SyncState) (st : App) : App :=
  {| heap := heap st; locations := locations st;
     currentFilter := currentFilter st;
     markers := markers st; config := config st; syncState := s;
     syncIndicator := syncIndicator st; toasts := toasts st;
     debugLog := debugLog st; console_errors := console_errors st;
     tracker_locations := tracker_locations st;
     storage_writable := storage_writable st; network := network st;
     exchanges := exchanges st; clock := clock st |}.

Definition set_syncIndicator (s : option Status) (st : App) : App :=
  {| heap := heap st; locations := locations st;
     currentFilter := currentFilter st;
     markers := markers st; config := config st; syncState := syncState st;
     syncIndicator := s; toasts := toasts st;
     debugLog := debugLog st; console_errors := console_errors st;
     tracker_locations := tracker_locations st;
     storage_writable := storage_writable st; network := network st;
     exchanges := exchanges st; clock := clock st |}.

Definition set_toasts (t : list (string * string)) (st : App) : App :=
  {| heap := heap st; locations := locations st;
     currentFilter := currentFilter st;
     markers := markers st; config := config st; syncState := syncState st;
     syncIndicator := syncIndicator st; toasts := t;
     debugLog := debugLog st; console_errors := console_errors st;
     tracker_locations := tracker_locations st;
     storage_writable := storage_writable st; network := network st;
     exchanges := exchanges st; clock := clock st |}.

Definition set_debugLog (d : list (string * string)) (st : App) : App :=
  {| heap := heap st; locations := locations st;
     currentFilter := currentFilter st;
     markers := markers st; config := config st; syncState := syncState st;
     syncIndicator := syncIndicator st; toasts := toasts st;
     debugLog := d; console_errors := console_errors st;
     tracker_locations := tracker_locations st;
     storage_writable := storage_writable st; network := network st;
     exchanges := exchanges st; clock := clock st |}.

Definition set_console_errors (c : list string) (st : App) : App :=
  {| heap := heap st; locations := locations st;
     currentFilter := currentFilter st;
     markers := markers st; config := config st; syncState := syncState st;
     syncIndicator := syncIndicator st; toasts := toasts st;
     debugLog := debugLog st; console_errors := c;
     tracker_locations := tracker_locations st;
     storage_writable := storage_writable st; network := network st;
     exchanges := exchanges st; clock := clock st |}.

Definition set_tracker_locations (i : StoredItem) (st : App) : App :=
  {| heap := heap st; locations := locations st;
     currentFilter := currentFilter st;
     markers := markers st; config := config st; syncState := syncState st;
     syncIndicator := syncIndicator st; toasts := toasts st;
     debugLog := debugLog st; console_errors := console_errors st;
     tracker_locations := i;
     storage_writable := storage_writable st; network := network st;
     exchanges := exchanges st; clock := clock st |}.

Definition set_exchanges (x : list Exchange) (st : App) : App :=
  {| heap := heap st; locations := locations st;
     currentFilter := currentFilter st;
     markers := markers st; config := config st; syncState := syncState st;
     syncIndicator := syncIndicator st; toasts := toasts st;
     debugLog := debugLog st; console_errors := console_errors st;
     tracker_locations := tracker_locations st;
     storage_writable := storage_writable st; network := network st;
     exchanges := x; clock := clock st |}.

(** this.config.offlineMode = b *)
Definition set_offlineMode (b : bool) (st : App) : App :=
  set_config {| serverUrl := serverUrl (config st); apiKey := apiKey (config st);
                syncInterval := syncInterval (config st); offlineMode := b |} st.

(** this.syncState.isSyncing = b *)
Definition set_isSyncing (b : bool) (st : App) : App :=
  set_syncState {| isSyncing := b; lastSync := lastSync (syncState st);
                   pendingSync := pendingSync (syncState st) |} st.

(** this.syncState.lastSync = new Date() *)
Definition set_lastSync (t : Z) (st : App) : App :=
  set_syncState {| isSyncing := isSyncing (syncState st); lastSync := Some t;
                   pendingSync := pendingSync (syncState st) |} st.

(** this.syncState.pendingSync.push(id) *)
Definition push_pendingSync (i : Z) (st : App) : App :=
  set_syncState {| isSyncing := isSyncing (syncState st);
                   lastSync := lastSync (syncState st);
                   pendingSync := pendingSync (syncState st) ++ [i] |} st.

(** *** Statements: state, and exceptions that keep the state *)

Inductive Res (A : Type) : Type :=
| Ret (a : A)
| Throw (e : JsError).
Arguments Ret {A} a.
Arguments Throw {A} e.

Definition M (A : Type) : Type := App -> Res A * App.

Definition ret {A} (a : A) : M A := fun st => (Ret a, st).

Definition throw {A} (e : JsError) : M A := fun st => (Throw e, st).

Definition bind {A B} (m : M A) (k : A -> M B) : M B :=
  fun st =>
    match m st with
    | (Ret a, st') => k a st'
    | (Throw e, st') => (Throw e, st')
    end.

(** try { m } catch (e) { h e } *)
Definition try_catch {A} (m : M A) (h : JsError -> M A) : M A :=
  fun st =>
    match m st with
    | (Ret a, st') => (Ret a, st')
    | (Throw e, st') => h e st'
    end.

Definition get : M App := fun st => (Ret st, st).

Definition modify (f : App -> App) : M unit := fun st => (Ret tt, f st).

Declare Scope js_scope.
Delimit Scope js_scope with js.
Notation "'let*' x ':=' m 'in' k" := (bind m (fun x => k))
  (at level 10, x pattern, m at level 100, k at level 200) : js_scope.
Notation "m ';;' k" := (bind m (fun _ => k))
  (at level 100, k at level 200, right associativity) : js_scope.
Open Scope js_scope.

(** *** Helpers of app.js *)

(** app.log(message, type): appends an entry to #debugLog and keeps the last
    100. (The "[time]" prefix of the entry text and the pictographs of the
    messages are left out, here and below.) *)
Definition log (message type : string) : M unit :=
  modify (fun st =>
    let entries := debugLog st ++ [(message, type)] in
    set_debugLog (drop (length entries - 100) entries) st).

(** app.showToast(message, type) *)
Definition showToast (message type : string) : M unit :=
  modify (fun st => set_toasts (toasts st ++ [(message, type)]) st).

(** app.updateSyncIndicator(status) *)
Definition updateSyncIndicator (status : Status) : M unit :=
  modify (set_syncIndicator (Some status)).

Definition console_error (message : string) : M unit :=
  modify (fun st => set_console_errors (console_errors st ++ [message]) st).

(** Reading [this.locations] as an array in order to call [method] on it:
    a value that is not an array has no such method. *)
Definition locations_array (method : string) : M (list addr) :=
  let* st := get in
  match locations st with
  | LArray refs => ret refs
  | LJunk NNull =>
      throw (TypeError ("Cannot read properties of null (reading '" +:+ method +:+ "')"))
  | LJunk _ =>
      throw (TypeError ("this.locations." +:+ method +:+ " is not a function"))
  end.

(** Reading the object at [a]. In JavaScript a reference always has its
    object; the [None] case stands for nothing in the source and is ruled
    out by [refs_valid]. *)
Definition read (a : addr) : M Location :=
  let* st := get in
  match heap st !! a with
  | Some l => ret l
  | None => throw (Error "no object at this address")
  end.

(** The references of [refs] whose object satisfies [p]:
    [refs.filter(l => p l)]. *)
Definition filter_refs (p : Location -> bool) (h : list Location)
    (refs : list addr) : list addr :=
  List.filter (fun a => match h !! a with Some l => p l | None => false end) refs.

(** A number as [JSON.parse] reads it back from what [JSON.stringify]
    wrote: a finite number is written with the digits that give it back,
    except that -0 is written 0; NaN and the infinities are written null,
    for which NaN stands here. *)
Definition json_number (x : float) : float :=
  if PrimFloat.is_finite x
  then (if PrimFloat.is_zero x then 0%float else x)
  else PrimFloat.nan.

(** A record object through [JSON.stringify] and [JSON.parse]: integers,
    strings and booleans come back as they were. *)
Definition json_record (l : Location) : Location :=
  {| loc_id := loc_id l; loc_type := loc_type l; loc_note := loc_note l;
     loc_lat := json_number (loc_lat l); loc_lng := json_number (loc_lng l);
     loc_timestamp := loc_timestamp l; loc_address := loc_address l;
     loc_synced := loc_synced l |}.

(** JSON.stringify(this.locations), as the item it makes. *)
Definition stringify_locations (st : App) : StoredItem :=
  match locations st with
  | LArray refs => JsonRecords (json_record <$> omap (fun a => heap st !! a) refs)
  | LJunk v => JsonOther v
  end.

(** localStorage.setItem('tracker_locations', data) *)
Definition setItem (data : StoredItem) : M unit :=
  let* st := get in
  if storage_writable st then modify (set_tracker_locations data)
  else throw (Error "QuotaExceededError").

(** app.saveToLocalStorage *)
Definition saveToLocalStorage : M unit :=
  try_catch
    (let* st := get in
     setItem (stringify_locations st))
    (fun e => console_error "Failed to save to localStorage:").

(** app.updateStats: it writes counts into the page, which the model does
    not carry; what remains is the calls of [this.locations.filter]. *)
Definition updateStats : M unit :=
  let* _ := locations_array "filter" in
  ret tt.

(** [filteredLocations.length === 0] followed by [[...filteredLocations]] for
    a value that is not an array: null has no length; a string is iterable
    (and its items render without an exception); an object whose own
    [length] is 0 takes the empty-state branch; anything else is not
    iterable. *)
Definition render_junk (v : NonArray) : M unit :=
  match v with
  | NNull => throw (TypeError "Cannot read properties of null (reading 'length')")
  | NStr _ => ret tt
  | NObj props =>
      match assoc "length" props with
      | JNum x => if PrimFloat.eqb x 0 then ret tt
                  else throw (TypeError "filteredLocations is not iterable")
      | _ => throw (TypeError "filteredLocations is not iterable")
      end
  | NBool _ | NNum _ => throw (TypeError "filteredLocations is not iterable")
  end.

(** app.updateLocationList: it writes the list into the page, which the
    model does not carry; what remains is how it reads [this.locations]. *)
Definition updateLocationList : M unit :=
  let* st := get in
  if negb (String.eqb (currentFilter st) "all") then
    let* _ := locations_array "filter" in
    ret tt
  else
    match locations st with
    | LArray _ => ret tt
    | LJunk v => render_junk v
    end.

(** app.addMarker(location): the Leaflet calls are taken to succeed; the
    marker is stored under the record's id. *)
Definition addMarker (a : addr) : M unit :=
  let* l := read a in
  modify (fun st => set_markers ({[loc_id l]} ∪ markers st) st).

(** *** fetch *)

(** [await fetch(...)]: the call is recorded with what it came to; a
    rejected promise is an exception at the [await]. *)
Definition fetch (req : Request) : M nat :=
  let* st := get in
  let r := network st (exchanges st) req in
  modify (set_exchanges (exchanges st ++ [(req, r)])) ;;
  match r with
  | Responded status => ret status
  | NetworkError message => throw (TypeError message)
  end.

(** The request both [syncLocationToServer] and [syncNow] build. *)
Definition upsert_request (c : Config) (l : Location) : Request :=
  {| req_method := POST;
     req_url := serverUrl c +:+ "/api/locations";
     req_api_key := apiKey c;
     req_body := Some {| b_id := loc_id l; b_type := loc_type l;
                         b_note := loc_note l; b_latitude := loc_lat l;
                         b_longitude := loc_lng l;
                         b_timestamp := loc_timestamp l;
                         b_address := loc_address l |} |}.

Definition delete_request (c : Config) (id : Z) : Request :=
  {| req_method := DELETE;
     req_url := serverUrl c +:+ "/api/locations/" +:+ pretty id;
     req_api_key := apiKey c;
     req_body := None |}.

Definition health_request (c : Config) : Request :=
  {| req_method := GET;
     req_url := serverUrl c +:+ "/api/health";
     req_api_key := apiKey c;
     req_body := None |}.

(** [location.synced = true] *)
Definition mark_synced (a : addr) : M unit :=
  modify (fun st => set_heap (alter (set_synced true) a (heap st)) st).

(** *** Database synchronization *)

(** app.syncLocationToServer(location) *)
Definition syncLocationToServer (a : addr) : M unit :=
  let* st := get in
  let* location := read a in
  if offlineMode (config st) then
    modify (push_pendingSync (loc_id location)) ;;
    log "Offline mode: Location queued for sync" "warning"
  else
    try_catch
      (let* status := fetch (upsert_request (config st) location) in
       if response_ok status then
         mark_synced a ;;
         saveToLocalStorage ;;
         updateLocationList ;;
         updateSyncIndicator Online ;;
         log ("Location synced to server: ID " +:+ pretty (loc_id location)) "success"
       else
         throw (Error ("Server returned error: " +:+ pretty status)))
      (fun error =>
         modify (push_pendingSync (loc_id location)) ;;
         updateSyncIndicator Offline ;;
         log ("Sync failed: " +:+ message_of error +:+ " (will retry)") "warning").

(** The [for (const location of unsyncedLocations)] loop of [syncNow], with
    its two counters. *)
Fixpoint sync_loop (unsynced : list addr) (successCount failCount : nat)
    : M (nat * nat) :=
  match unsynced with
  | [] => ret (successCount, failCount)
  | a :: rest =>
      let* counts :=
        try_catch
          (let* st := get in
           let* location := read a in
           let* status := fetch (upsert_request (config st) location) in
           if response_ok status then
             mark_synced a ;;
             ret (S successCount, failCount)
           else
             ret (successCount, S failCount))
          (fun error => ret (successCount, S failCount)) in
      sync_loop rest (fst counts) (snd counts)
  end.

(** The statements of [syncNow] that follow its loop. *)
Definition sync_finish (successCount failCount : nat) : M unit :=
  saveToLocalStorage ;;
  updateLocationList ;;
  modify (set_isSyncing false) ;;
  (let* st := get in modify (set_lastSync (clock st))) ;;
  if (failCount =? 0)%nat then
    modify (set_offlineMode false) ;;
    updateSyncIndicator Online ;;
    showToast ("Synced " +:+ pretty successCount +:+ " locations") "success" ;;
    log ("Sync complete: " +:+ pretty successCount +:+ " synced") "success"
  else
    updateSyncIndicator Offline ;;
    showToast ("Synced " +:+ pretty successCount +:+ ", failed "
               +:+ pretty failCount) "error" ;;
    log ("Sync partial: " +:+ pretty successCount +:+ " synced, "
         +:+ pretty failCount +:+ " failed") "warning".

(** app.syncNow *)
Definition syncNow : M unit :=
  let* st := get in
  if isSyncing (syncState st) then
    showToast "Sync already in progress" "error"
  else
    modify (set_isSyncing true) ;;
    updateSyncIndicator Syncing ;;
    log "Starting manual sync..." "info" ;;
    let* refs := locations_array "filter" in
    let* st1 := get in
    let unsyncedLocations := filter_refs (fun l => negb (loc_synced l)) (heap st1) refs in
    if (length unsyncedLocations =? 0)%nat then
      showToast "All locations already synced" "success" ;;
      modify (set_isSyncing false) ;;
      updateSyncIndicator Online
    else
      let* (successCount, failCount) := sync_loop unsyncedLocations 0 0 in
      sync_finish successCount failCount.

(** app.deleteFromServer(id). The caller does not await it: the function
    runs up to its [await fetch], and the rest (the value returned here, one
    of the two log lines) runs once the caller's statements are done. *)
Definition deleteFromServer (id : Z) : M (M unit) :=
  let* st := get in
  if offlineMode (config st) then ret (ret tt)
  else
    let req := delete_request (config st) id in
    let r := network st (exchanges st) req in
    modify (set_exchanges (exchanges st ++ [(req, r)])) ;;
    ret (match r with
         | Responded _ =>
             log ("Location deleted from server: ID " +:+ pretty id) "success"
         | NetworkError message =>
             log ("Delete from server failed: " +:+ message) "error"
         end).

(** app.deleteLocation(id); [confirmed] is the answer to the [confirm]
    dialog. *)
Definition deleteLocation (confirmed : bool) (id : Z) : M unit :=
  if negb confirmed then ret tt
  else
    let* refs := locations_array "find" in
    let* st := get in
    let location :=
      head (filter_refs (fun l => Z.eqb (loc_id l) id) (heap st) refs) in
    modify (fun st => set_markers (markers st ∖ {[id]}) st) ;;
    modify (set_locations
              (LArray (filter_refs (fun l => negb (Z.eqb (loc_id l) id)) (heap st) refs))) ;;
    saveToLocalStorage ;;
    updateStats ;;
    updateLocationList ;;
    let* later :=
      match location ≫= (fun a => heap st !! a) with
      | Some l => if loc_synced l then deleteFromServer id else ret (ret tt)
      | None => ret (ret tt)
      end in
    showToast "Location deleted" "success" ;;
    log ("Location deleted: ID " +:+ pretty id) "info" ;;
    later.

(** One tick of the timer that [startAutoSync] sets. *)
Definition autoSyncTick : M unit :=
  let* refs := locations_array "filter" in
  let* st := get in
  let unsyncedCount := length (filter_refs (fun l => negb (loc_synced l)) (heap st) refs) in
  if (0 <? unsyncedCount)%nat && negb (isSyncing (syncState st))
     && negb (offlineMode (config st)) then
    log ("Auto-sync triggered: " +:+ pretty unsyncedCount +:+ " pending") "info" ;;
    syncNow
  else ret tt.

(** app.checkConnection *)
Definition checkConnection : M bool :=
  let* st := get in
  try_catch
    (let* status := fetch (health_request (config st)) in
     if response_ok status then
       modify (set_offlineMode false) ;;
       updateSyncIndicator Online ;;
       log "Server connection established" "success" ;;
       ret true
     else
       (* no else branch in the source: control leaves the try block and
          reaches the final [return false] *)
       ret false)
    (fun error =>
       modify (set_offlineMode true) ;;
       updateSyncIndicator Offline ;;
       log "Server offline - running in offline mode" "warning" ;;
       (* after the catch block: [return false] *)
       ret false).

(** *** Local storage management *)

(** [JSON.parse(stored)] for an array of records: fresh objects, in order. *)
Definition alloc_records (ls : list Location) : M (list addr) :=
  let* st := get in
  modify (set_heap (heap st ++ ls)) ;;
  ret (seq (length (heap st)) (length ls)).

(** [this.locations.forEach(location => this.addMarker(location))] *)
Fixpoint forEach_addMarker (refs : list addr) : M unit :=
  match refs with
  | [] => ret tt
  | a :: rest => addMarker a ;; forEach_addMarker rest
  end.

(** app.loadStoredLocations *)
Definition loadStoredLocations : M unit :=
  try_catch
    (let* st := get in
     match tracker_locations st with
     | NoItem | EmptyText => ret tt
     | BadText => throw (SyntaxError "Unexpected token in JSON")
     | JsonRecords ls =>
         let* refs := alloc_records ls in
         modify (set_locations (LArray refs)) ;;
         forEach_addMarker refs ;;
         updateStats ;;
         updateLocationList ;;
         log ("Loaded " +:+ pretty (length refs) +:+ " locations from storage") "success"
     | JsonOther v =>
         modify (set_locations (LJunk v)) ;;
         let* refs := locations_array "forEach" in
         forEach_addMarker refs ;;
         updateStats ;;
         updateLocationList ;;
         log ("Loaded " +:+ pretty (length refs) +:+ " locations from storage") "success"
     end)
    (fun e => console_error "Failed to load from localStorage:").

(** The [app] object as app.js declares it, in a page whose storage holds
    [item] and whose network answers by [net]. *)
Definition initial (origin : string) (item : StoredItem) (writable : bool)
    (net : list Exchange -> Request -> FetchResult) (now : Z) : App :=
  {| heap := []; locations := LArray []; currentFilter := "all";
     markers := ∅;
     config := {| serverUrl := origin; apiKey := ""; syncInterval := 30000;
                  offlineMode := false |};
     syncState := {| isSyncing := false; lastSync := None; pendingSync := [] |};
     syncIndicator := None; toasts := []; debugLog := []; console_errors := [];
     tracker_locations := item; storage_writable := writable;
     network := net; exchanges := []; clock := now |}.

(** *** Vocabulary of the statements below *)

(** Every reference of the array is an object of the heap. *)
Definition refs_valid (h : list Location) (refs : list addr) : Prop :=
  Forall (fun a => is_Some (h !! a)) refs.

(** The pending records: [this.locations.filter(l => !l.synced)]. *)
Definition pending (h : list Location) (refs : list addr) : list addr :=
  filter_refs (fun l => negb (loc_synced l)) h refs.

(** The number of records of the array whose [synced] is true. *)
Definition count_synced (h : list Location) (refs : list addr) : nat :=
  length (filter_refs loc_synced h refs).

(** Of the records [ps], submitted in this order as the exchanges [evs],
    those whose upsert got a 2xx response. *)
Fixpoint succeeded (ps : list addr) (evs : list Exchange) : list addr :=
  match ps, evs with
  | a :: ps', ev :: evs' =>
      if result_ok (snd ev) then a :: succeeded ps' evs' else succeeded ps' evs'
  | _, _ => []
  end.

(** The number of exchanges that failed: a rejected fetch or a response that
    is not 2xx. *)
Definition failures (evs : list Exchange) : nat :=
  length (List.filter (fun ev => negb (result_ok (snd ev))) evs).

(** The heap in which exactly the objects at [marked] got [synced = true]. *)
Definition mark_all (marked : list addr) (h : list Location) : list Location :=
  imap (fun i l => if bool_decide (i ∈ marked) then set_synced true l else l) h.

(** Each record of [ps] was submitted once, in order, as the exchanges
    [evs], and every exchange came to what the network gave at that
    moment. *)
Definition submitted (st : App) (ps : list addr) (evs : list Exchange) : Prop :=
  Forall2 (fun a ev => exists l, heap st !! a = Some l
                                 /\ fst ev = upsert_request (config st) l) ps evs
  /\ forall k ev, evs !! k = Some ev ->
       snd ev = network st (exchanges st ++ take k evs) (fst ev).

(** The state in which the loop of [syncNow] starts. *)
Definition sync_started (st : App) : App :=
  (log "Starting manual sync..." "info"
     (set_syncIndicator (Some Syncing) (set_isSyncing true st))).2.

(** The state after [saveToLocalStorage]. *)
Definition saved (st : App) : App :=
  if storage_writable st
  then set_tracker_locations (stringify_locations st) st
  else set_console_errors
         (console_errors st ++ ["Failed to save to localStorage:"]) st.


(** *** Sample data *)

(** The record of the specification's example, and a second one. *)
Definition kudzu : Location :=
  {| loc_id := 1700000000000; loc_type := "plant"; loc_note := "kudzu";
     loc_lat := 38.75; loc_lng := -77.25;
     loc_timestamp := "2023-11-14T22:13:20.000Z";
     loc_address := "Centreville"; loc_synced := false |}.

Definition bottle : Location :=
  {| loc_id := 1700000060000; loc_type := "litter"; loc_note := "bottle";
     loc_lat := 38.5; loc_lng := -77.125;
     loc_timestamp := "2023-11-14T22:14:20.000Z";
     loc_address := "Address unavailable"; loc_synced := false |}.

(** A service that answers every request with [status]. *)
Definition net_status (status : nat) : list Exchange -> Request -> FetchResult :=
  fun _ _ => Responded status.

(** No connection. *)
Definition net_down : list Exchange -> Request -> FetchResult :=
  fun _ _ => NetworkError "Failed to fetch".

(** A service that answers its first request with [first] and every later
    one with [later]. *)
Definition net_then (first later : nat)
    : list Exchange -> Request -> FetchResult :=
  fun history _ =>
    match history with
    | [] => Responded first
    | _ => Responded later
    end.

(** A page with [records] in its store, none of them in flight. *)
Definition page (records : list Location) (offline : bool)
    (net : list Exchange -> Request -> FetchResult) : App :=
  set_offlineMode offline
    (set_locations (LArray (seq 0 (length records)))
       (set_heap records (initial "http://localhost:3000" NoItem true net 0))).

End Client.

(** ** The REST service (server.js) *)

Module Server.
Import Js.

(** *** The table *)

(** A TIMESTAMPTZ value, written as PostgreSQL prints it. *)
Abbreviation timestamptz := string (only parsing).

(** A row of [locations], as [CREATE TABLE] in [initDatabase] declares it. *)
Record Row : Type := {
  id : Z;                    (* BIGINT PRIMARY KEY *)
  type : string;             (* VARCHAR(20) NOT NULL CHECK (type IN ('plant', 'litter')) *)
  note : string;             (* TEXT NOT NULL *)
  latitude : float;          (* DOUBLE PRECISION NOT NULL *)
  longitude : float;         (* DOUBLE PRECISION NOT NULL *)
  timestamp : timestamptz;   (* TIMESTAMPTZ NOT NULL *)
  address : option string;   (* TEXT *)
  created_at : timestamptz;  (* TIMESTAMPTZ DEFAULT NOW() *)
  updated_at : timestamptz   (* TIMESTAMPTZ DEFAULT NOW() *)
}.

Definition Table : Type := list Row.

(** The primary key: no two rows share an id. *)
Definition pk_unique (t : Table) : Prop := NoDup (map id t).

(** The rows with a given id. *)
Definition rows_with (i : Z) (t : Table) : list Row :=
  List.filter (fun r => Z.eqb (id r) i) t.

(** The database behind [pool], as one request finds it: whether its
    queries reach the database, and the table. The table is what one
    request leaves to the next; whether the database can be reached is not
    (see [Routes.reachable]). *)
Record Db : Type := {
  connected : bool;
  locations : Table
}.

Definition set_locations (t : Table) (db : Db) : Db :=
  {| connected := connected db; locations := t |}.

(** *** Parameters of a statement *)

(** How a JavaScript value sent as a query parameter becomes a value of a
    column type: node-postgres writes it as text and PostgreSQL's input
    function of the column type reads it. [None] is the error PostgreSQL
    raises for a text it does not accept. These functions belong to the
    driver and the database, not to server.js, so the handlers are stated
    for any of them; null and undefined never reach them (see [param]). *)
Record Pg : Type := {
  bigint_in : JValue -> option Z;
  float8_in : JValue -> option float;
  timestamptz_in : JValue -> option timestamptz;
  text_in : JValue -> option string
}.

(** One parameter for a column: null and undefined are sent as NULL (the
    inner [None]); the outer [None] is a conversion error. *)
Definition param {A} (conv : JValue -> option A) (v : JValue)
    : option (option A) :=
  match v with
  | JUndefined | JNull => Some None
  | _ => match conv v with
         | Some a => Some (Some a)
         | None => None
         end
  end.

(** A JavaScript string is sent as it is to a text column. *)
Definition to_text (pg : Pg) (v : JValue) : option string :=
  match v with
  | JStr s => Some s
  | _ => text_in pg v
  end.

(** The values [$1 .. $7] of the two INSERT statements, converted. *)
Record Proposed : Type := {
  p_id : option Z;
  p_type : option string;
  p_note : option string;
  p_latitude : option float;
  p_longitude : option float;
  p_timestamp : option timestamptz;
  p_address : option string
}.

Definition convert (pg : Pg) (vid vtype vnote vlat vlng vts vaddr : JValue)
    : option Proposed :=
  match param (bigint_in pg) vid, param (to_text pg) vtype,
        param (to_text pg) vnote, param (float8_in pg) vlat,
        param (float8_in pg) vlng, param (timestamptz_in pg) vts,
        param (to_text pg) vaddr with
  | Some i, Some ty, Some n, Some la, Some lo, Some ts, Some ad =>
      Some {| p_id := i; p_type := ty; p_note := n; p_latitude := la;
              p_longitude := lo; p_timestamp := ts; p_address := ad |}
  | _, _, _, _, _, _, _ => None
  end.

(** The row INSERT proposes, if it passes the column constraints: the
    VARCHAR(20) length, the NOT NULL columns, and the CHECK on [type].
    PostgreSQL checks these on the proposed row before it looks for a
    conflict on the primary key. *)
Definition proposed_row (now : timestamptz) (p : Proposed) : option Row :=
  match p_id p, p_type p, p_note p, p_latitude p, p_longitude p, p_timestamp p with
  | Some i, Some ty, Some n, Some la, Some lo, Some ts =>
      if (String.length ty <=? 20)%nat
         && (String.eqb ty "plant" || String.eqb ty "litter")
      then Some {| id := i; type := ty; note := n; latitude := la;
                   longitude := lo; timestamp := ts; address := p_address p;
                   created_at := now; updated_at := now |}
      else None
  | _, _, _, _, _, _ => None
  end.

(** ON CONFLICT (id) DO UPDATE SET type = EXCLUDED.type, ...,
    updated_at = NOW(): the existing row keeps its id and created_at. *)
Definition do_update (new : Row) (old : Row) : Row :=
  {| id := id old; type := type new; note := note new;
     latitude := latitude new; longitude := longitude new;
     timestamp := timestamp new; address := address new;
     created_at := created_at old; updated_at := updated_at new |}.

Definition has_id (i : Z) (t : Table) : bool :=
  existsb (fun r => Z.eqb (id r) i) t.

(** INSERT ... ON CONFLICT (id) DO UPDATE SET ... RETURNING *, on the
    proposed row [new]: the table afterwards. *)
Definition upsert_row (new : Row) (t : Table) : Table :=
  if has_id (id new) t
  then map (fun old => if Z.eqb (id old) (id new) then do_update new old else old) t
  else t ++ [new].

(** INSERT ... ON CONFLICT (id) DO NOTHING *)
Definition insert_or_skip (new : Row) (t : Table) : Table :=
  if has_id (id new) t then t else t ++ [new].

(** The result of [await pool.query(...)]: the rows returned and the
    database afterwards, or a rejected promise. *)
Inductive QueryResult : Type :=
| QRows (rows : list Row) (db : Db)
| QError (message : string).

(** The row that [INSERT INTO locations (...) VALUES ($1, ..., $7)] proposes
    for its seven parameters, or [None] when PostgreSQL raises an error
    before it looks for a conflict. *)
Definition insert_values (pg : Pg) (now : timestamptz)
    (vid vtype vnote vlat vlng vts vaddr : JValue) : option Row :=
  match convert pg vid vtype vnote vlat vlng vts vaddr with
  | Some p => proposed_row now p
  | None => None
  end.

(** The upsert query of POST /api/locations. *)
Definition query_upsert (pg : Pg) (now : timestamptz) (db : Db)
    (vid vtype vnote vlat vlng vts vaddr : JValue) : QueryResult :=
  if negb (connected db) then QError "connection refused"
  else
    match insert_values pg now vid vtype vnote vlat vlng vts vaddr with
    | None => QError "the statement was rejected"
    | Some new =>
        let t := upsert_row new (locations db) in
        QRows (rows_with (id new) t) (set_locations t db)
    end.

(** The insert query of POST /api/import. *)
Definition query_insert (pg : Pg) (now : timestamptz) (db : Db)
    (vid vtype vnote vlat vlng vts vaddr : JValue) : QueryResult :=
  if negb (connected db) then QError "connection refused"
  else
    match insert_values pg now vid vtype vnote vlat vlng vts vaddr with
    | None => QError "the statement was rejected"
    | Some new =>
        QRows [] (set_locations (insert_or_skip new (locations db)) db)
    end.

(** *** Requests and responses *)

(** process.env, as far as [authenticate] reads it. *)
Record Env : Type := {
  NODE_ENV : option string;
  API_KEY : option string
}.

(** A request after [express.json()]: the X-API-Key header and the body. *)
Record Request : Type := {
  x_api_key : option string;
  body : JValue
}.

(** The [location] object of a response. *)
Record LocationView : Type := {
  v_id : Z;
  v_type : string;
  v_note : string;
  v_lat : float;
  v_lng : float;
  v_timestamp : timestamptz;
  v_address : option string;
  v_synced : bool
}.

Definition view (row : Row) : LocationView :=
  {| v_id := id row; v_type := type row; v_note := note row;
     v_lat := latitude row; v_lng := longitude row;
     v_timestamp := timestamp row; v_address := address row;
     v_synced := true |}.

Inductive Json : Type :=
| ErrorJson (error : string)
| HealthJson (status database version : string) (time : option string)
| SavedJson (message : string) (location : LocationView)
| ImportJson (message : string) (imported failed total : nat).

Record Response : Type := {
  status : nat;
  json : Json
}.

(** What a handler is given and what it leaves: the environment, the clock
    (NOW() and new Date()), the database, the request; the response and the
    database afterwards. *)
Definition Handler : Type :=
  Env -> timestamptz -> Db -> Request -> Response * Db.

(** *** Middleware *)

(** [!s] for a header or an environment variable. *)
Definition unset (s : option string) : bool :=
  match s with
  | None => true
  | Some s => String.eqb s ""
  end.

(** [authenticate]: [Some] is the 401 response, [None] is [next()]. *)
Definition authenticate (env : Env) (req : Request) : option Response :=
  let apiKey := x_api_key req in
  if match NODE_ENV env with
     | Some e => String.eqb e "development"
     | None => false
     end || unset (API_KEY env)
  then None
  else if unset apiKey
          || negb (match apiKey, API_KEY env with
                   | Some a, Some k => String.eqb a k
                   | _, _ => false
                   end)
       then Some {| status := 401; json := ErrorJson "Unauthorized" |}
       else None.

(** [app.METHOD(path, middleware, handler)] *)
Definition guarded (middleware : Env -> Request -> option Response)
    (handler : Handler) : Handler :=
  fun env now db req =>
    match middleware env req with
    | Some resp => (resp, db)
    | None => handler env now db req
    end.

(** *** Handlers *)

(** GET /api/health, registered without [authenticate]. *)
Definition GET_api_health : Handler :=
  fun env now db req =>
    if connected db
    then ({| status := 200;
             json := HealthJson "ok" "connected" "1.0.0" (Some now) |}, db)
    else ({| status := 503;
             json := HealthJson "error" "disconnected" "1.0.0" None |}, db).

(** The handler of POST /api/locations. (The double quotes around plant and
    litter in the second message are written as single quotes.) *)
Definition create_location (pg : Pg) : Handler :=
  fun env now db req =>
    let failed := ({| status := 500; json := ErrorJson "Failed to create location" |}, db) in
    match get_prop (body req) "id", get_prop (body req) "type",
          get_prop (body req) "note", get_prop (body req) "latitude",
          get_prop (body req) "longitude", get_prop (body req) "timestamp",
          get_prop (body req) "address" with
    | Some vid, Some vtype, Some vnote, Some latitude, Some longitude,
      Some vts, Some vaddr =>
        if negb (truthy vid) || negb (truthy vtype) || negb (truthy vnote)
           || negb (truthy latitude) || negb (truthy longitude)
           || negb (truthy vts)
        then ({| status := 400; json := ErrorJson "Missing required fields" |}, db)
        else if negb (is_string "plant" vtype) && negb (is_string "litter" vtype)
        then ({| status := 400;
                 json := ErrorJson "Invalid type. Must be 'plant' or 'litter'" |}, db)
        else if negb (String.eqb (typeof latitude) "number")
                || negb (String.eqb (typeof longitude) "number")
        then ({| status := 400;
                 json := ErrorJson "Latitude and longitude must be numbers" |}, db)
        else
          match query_upsert pg now db vid vtype vnote latitude longitude vts
                  (js_or vaddr JNull) with
          | QRows (row :: _) db' =>
              ({| status := 201;
                  json := SavedJson "Location saved successfully" (view row) |}, db')
          | QRows [] db' =>
              (* reading a property of result.rows[0], which is undefined *)
              ({| status := 500; json := ErrorJson "Failed to create location" |}, db')
          | QError _ => failed
          end
    | _, _, _, _, _, _, _ => failed
    end.

(** POST /api/locations *)
Definition POST_api_locations (pg : Pg) : Handler :=
  guarded authenticate (create_location pg).

(** How the loop of POST /api/import ends. *)
Inductive ImportEnd : Type :=
| Counted (imported failed : nat)
| Escaped.   (* an exception left the inner catch block *)

(** The [for (const loc of locations)] loop of POST /api/import. A [loc]
    that is null throws at [loc.id] inside the try block, and again inside
    the catch block, which reads [loc.id] for the log line: that exception
    reaches the handler's outer catch. So does the TypeError of the log
    line's template literal when the statement fails for a [loc] whose id
    has no conversion to a string. *)
Fixpoint import_loop (pg : Pg) (now : timestamptz) (locs : list JValue)
    (imported failed : nat) (db : Db) : ImportEnd * Db :=
  match locs with
  | [] => (Counted imported failed, db)
  | loc :: rest =>
      match get_prop loc "id", get_prop loc "type", get_prop loc "note",
            get_prop loc "lat", get_prop loc "lng", get_prop loc "timestamp",
            get_prop loc "address" with
      | Some vid, Some vtype, Some vnote, Some vlat, Some vlng, Some vts,
        Some vaddr =>
          match query_insert pg now db vid vtype vnote vlat vlng vts vaddr with
          | QRows _ db' => import_loop pg now rest (S imported) failed db'
          | QError _ =>
              if printable vid
              then import_loop pg now rest imported (S failed) db
              else (Escaped, db)
          end
      | _, _, _, _, _, _, _ => (Escaped, db)
      end
  end.

(** The handler of POST /api/import. *)
Definition import_locations (pg : Pg) : Handler :=
  fun env now db req =>
    match get_prop (body req) "locations" with
    | None => ({| status := 500; json := ErrorJson "Failed to import data" |}, db)
    | Some (JArr locs) =>
        match import_loop pg now locs 0 0 db with
        | (Counted imported failed, db') =>
            ({| status := 200;
                json := ImportJson "Import completed" imported failed (length locs) |},
             db')
        | (Escaped, db') =>
            ({| status := 500; json := ErrorJson "Failed to import data" |}, db')
        end
    | Some _ =>
        ({| status := 400; json := ErrorJson "Locations must be an array" |}, db)
    end.

(** POST /api/import *)
Definition POST_api_import (pg : Pg) : Handler :=
  guarded authenticate (import_locations pg).

(** *** Vocabulary of the statements below *)

(** The row that the import statement proposes for [loc]. *)
Definition import_row (pg : Pg) (now : timestamptz) (loc : JValue) : option Row :=
  match get_prop loc "id", get_prop loc "type", get_prop loc "note",
        get_prop loc "lat", get_prop loc "lng", get_prop loc "timestamp",
        get_prop loc "address" with
  | Some vid, Some vtype, Some vnote, Some vlat, Some vlng, Some vts,
    Some vaddr => insert_values pg now vid vtype vnote vlat vlng vts vaddr
  | _, _, _, _, _, _, _ => None
  end.

(** The id column of the row a request to POST /api/locations carries. *)
Definition request_id (pg : Pg) (req : Request) : option Z :=
  match get_prop (body req) "id" with
  | Some vid => match param (bigint_in pg) vid with
                | Some (Some i) => Some i
                | _ => None
                end
  | None => None
  end.

(** *** Sample data *)

(** The integer a JavaScript number stands for, if it is one. *)
Definition float_to_Z (x : float) : option Z :=
  match Prim2SF x with
  | S754_zero _ => Some 0%Z
  | S754_finite s m e =>
      let magnitude :=
        if (0 <=? e)%Z then Some (Z.pos m * 2 ^ e)%Z
        else if (Z.pos m mod 2 ^ (- e) =? 0)%Z then Some (Z.pos m / 2 ^ (- e))%Z
        else None in
      match magnitude with
      | Some z => Some (if s then (- z)%Z else z)
      | None => None
      end
  | _ => None
  end.

(** The conversions on the values app.js sends: ids as integral numbers in
    the range of BIGINT, coordinates as numbers, the rest as strings (a
    timestamp text is kept as it is written). Anything else is rejected. *)
Definition pg_js : Pg :=
  {| bigint_in := fun v =>
       match v with
       | JNum x =>
           match float_to_Z x with
           | Some z => if ((- 2 ^ 63 <=? z) && (z <? 2 ^ 63))%Z then Some z else None
           | None => None
           end
       | _ => None
       end;
     float8_in := fun v => match v with JNum x => Some x | _ => None end;
     timestamptz_in := fun v =>
       match v with
       | JStr s => if String.eqb s "" then None else Some s
       | _ => None
       end;
     text_in := fun _ => None |}.

(** The body of the specification's example request, with a given note. *)
Definition kudzu_body (note : string) (latitude : float) : JValue :=
  JObj [("id", JNum 1700000000000); ("type", JStr "plant");
        ("note", JStr note); ("latitude", JNum latitude);
        ("longitude", JNum (-77.25)); ("timestamp", JStr "2023-11-14T22:13:20.000Z");
        ("address", JStr "Centreville")].

Definition empty_db : Db := {| connected := true; locations := [] |}.

(** A location of an import batch, with the id of the example record. *)
Definition import_loc (type : string) (lat : JValue) : JValue :=
  JObj [("id", JNum 1700000000000); ("type", JStr type);
        ("note", JStr "kudzu again"); ("lat", lat); ("lng", JNum (-77.25));
        ("timestamp", JStr "2023-11-15T08:00:00.000Z");
        ("address", JStr "Centreville")].

(** A database whose table holds the example record. *)
Definition kudzu_db : Db :=
  {| connected := true;
     locations :=
       [ {| id := 1700000000000; type := "plant"; note := "kudzu";
            latitude := 38.75; longitude := -77.25;
            timestamp := "2023-11-14T22:13:20.000Z";
            address := Some "Centreville";
            created_at := "t1"; updated_at := "t1" |} ] |}.

Definition production : Env :=
  {| NODE_ENV := Some "production"; API_KEY := Some "secret" |}.

End Server.

(** ** The rest of the client (public/app.js) *)

Module ClientMore.
Import Js Client.

(** What the JavaScript runtime makes of a value: [parseFloat(v)], the text
    of [v] inside a template literal, and [new Date(t).toISOString()]. *)
Record Runtime : Type := {
  parseFloat : JValue -> float;
  display : JValue -> string;
  toISOString : Z -> string
}.

(** A coordinate as [addManualLocation] is given it: a number, or the text
    of an input of the developer panel. (Both have a conversion to a
    string, which [parseFloat] and the log line ask for.) *)
Inductive Coordinate : Type :=
| CNum (x : float)
| CStr (s : string).

Definition coordinate_value (c : Coordinate) : JValue :=
  match c with
  | CNum x => JNum x
  | CStr s => JStr s
  end.

(** An object literal: a fresh object. *)
Definition alloc (l : Location) : M addr :=
  let* st := get in
  modify (set_heap (heap st ++ [l])) ;;
  ret (length (heap st)).

(** this.locations.push(location) *)
Definition push (a : addr) : M unit :=
  let* refs := locations_array "push" in
  modify (set_locations (LArray (refs ++ [a]))).

(** [s || d] for an argument that is a string or is left out. *)
Definition or_default (d : string) (s : option string) : string :=
  match s with
  | Some s => if String.eqb s "" then d else s
  | None => d
  end.

(** app.addManualLocation(lat, lng, type, note) *)
Definition addManualLocation (rt : Runtime) (lat lng : Coordinate)
    (type note : option string) : M unit :=
  let* st := get in
  let* location :=
    alloc {| loc_id := clock st;
             loc_type := or_default "plant" type;
             loc_note := or_default "Manual test entry" note;
             loc_lat := parseFloat rt (coordinate_value lat);
             loc_lng := parseFloat rt (coordinate_value lng);
             loc_timestamp := toISOString rt (clock st);
             loc_address := "Manually added";
             loc_synced := false |} in
  push location ;;
  saveToLocalStorage ;;
  addMarker location ;;
  updateStats ;;
  updateLocationList ;;
  showToast "Manual location added" "success" ;;
  log ("Manual location added: " +:+ display rt (coordinate_value lat)
       +:+ ", " +:+ display rt (coordinate_value lng))
      "info".

(** app.clearAllData; [confirmed] is the answer to the [confirm] dialog. *)
Definition clearAllData (confirmed : bool) : M unit :=
  if negb confirmed then ret tt
  else
    modify (set_markers ∅) ;;
    modify (set_locations (LArray [])) ;;
    saveToLocalStorage ;;
    updateStats ;;
    updateLocationList ;;
    showToast "All data cleared" "success" ;;
    log "All data cleared" "warning".

(** The [imported.forEach(loc => ...)] loop of [importData], with its
    counter: a record whose id the store already has is passed over. *)
Fixpoint import_each (imported : list addr) (addedCount : nat) : M nat :=
  match imported with
  | [] => ret addedCount
  | a :: rest =>
      let* refs := locations_array "find" in
      let* loc := read a in
      let* st := get in
      match head (filter_refs (fun l => Z.eqb (loc_id l) (loc_id loc)) (heap st) refs) with
      | Some _ => import_each rest addedCount
      | None =>
          push a ;;
          addMarker a ;;
          import_each rest (S addedCount)
      end
  end.

(** The text of the chosen file, by what [JSON.parse] makes of it. *)
Inductive FileText : Type :=
| NotJson                         (* a text that JSON.parse rejects, the empty one included *)
| JsonArray (ls : list Location)  (* the text of an array of record objects *)
| JsonValue (v : NonArray).       (* the text of any other JSON value *)

(** app.importData(file), with the [reader.onload] callback it registers;
    [None] is no file. *)
Definition importData (file : option FileText) : M unit :=
  match file with
  | None => ret tt
  | Some text =>
      try_catch
        (let* imported :=
           match text with
           | NotJson => throw (SyntaxError "Unexpected token in JSON")
           | JsonValue _ => throw (Error "Invalid data format")
           | JsonArray ls => alloc_records ls
           end in
         let* addedCount := import_each imported 0 in
         saveToLocalStorage ;;
         updateStats ;;
         updateLocationList ;;
         showToast ("Imported " +:+ pretty addedCount +:+ " new locations") "success" ;;
         log ("Imported " +:+ pretty addedCount +:+ " locations") "success")
        (fun error =>
           showToast "Import failed: Invalid file" "error" ;;
           log ("Import error: " +:+ message_of error) "error")
  end.

(** app.saveConfig: the item 'tracker_config' is not carried by the model;
    what remains is the console line when localStorage refuses the write. *)
Definition saveConfig : M unit :=
  let* st := get in
  if storage_writable st then ret tt
  else console_error "Failed to save config:".

(** app.testConnection; [serverUrl] and [apiKey] are the values of the two
    inputs of the settings panel, [data] is what [await response.json()]
    gives ([None]: the body is not JSON). The status line the function
    writes into the page is not carried, but its text is computed inside
    the try block: the template literal over [data.version || '1.0'] throws
    for a version that has no conversion to a string. *)
Definition testConnection (serverUrl apiKey : string) (data : option JValue)
    : M unit :=
  modify (fun st =>
    set_config {| Client.serverUrl := serverUrl; Client.apiKey := apiKey;
                  syncInterval := syncInterval (config st);
                  offlineMode := offlineMode (config st) |} st) ;;
  saveConfig ;;
  try_catch
    (let* status :=
       fetch {| req_method := GET; req_url := serverUrl +:+ "/api/health";
                req_api_key := apiKey; req_body := None |} in
     if response_ok status then
       let* data :=
         match data with
         | Some data => ret data
         | None => throw (SyntaxError "Unexpected token in JSON")
         end in
       match get_prop data "version" with
       | Some version =>
           if printable (js_or version (JStr "1.0")) then
             modify (set_offlineMode false) ;;
             updateSyncIndicator Online ;;
             log "Connection test successful" "success"
           else throw (TypeError "Cannot convert object to primitive value")
       | None =>
           throw (TypeError "Cannot read properties of null (reading 'version')")
       end
     else throw (Error "Server returned error"))
    (fun error =>
       modify (set_offlineMode true) ;;
       updateSyncIndicator Offline ;;
       log ("Connection test failed: " +:+ message_of error) "error").

(** *** Vocabulary of the statements below *)

(** The records of the store, in the order of the array. *)
Definition records (st : App) : list Location :=
  match locations st with
  | LArray refs => omap (fun a => heap st !! a) refs
  | LJunk _ => []
  end.

(** Both coordinates of a record are finite numbers. *)
Definition finite_coordinates (l : Location) : Prop :=
  PrimFloat.is_finite (loc_lat l) = true
  /\ PrimFloat.is_finite (loc_lng l) = true.

(** The records of an imported array that a store holding the ids [ids]
    takes: each record whose id is neither in the store nor carried by an
    earlier record of the array. *)
Fixpoint new_records (ids : list Z) (ls : list Location) : list Location :=
  match ls with
  | [] => []
  | l :: rest =>
      if bool_decide (loc_id l ∈ ids) then new_records ids rest
      else l :: new_records (ids ++ [loc_id l]) rest
  end.

(** What a successful connection test needs of the body of the response:
    JSON other than null, whose version (or '1.0' in its place) can be
    printed. *)
Definition body_ok (data : option JValue) : bool :=
  match data with
  | Some d =>
      match get_prop d "version" with
      | Some version => printable (js_or version (JStr "1.0"))
      | None => false
      end
  | None => false
  end.

(** *** Sample data *)

(** A runtime for the examples, which pass coordinates as numbers and run
    at the clock's origin (the print of a number is left symbolic). *)
Definition rt_numbers : Runtime :=
  {| parseFloat := fun v => match v with JNum x => x | _ => PrimFloat.nan end;
     display := fun _ => "<number>";
     toISOString := fun _ => "1970-01-01T00:00:00.000Z" |}.

End ClientMore.

(** ** The other routes of the service (server.js) *)

Module Routes.
Import Js Server.

(** *** Responses *)

(** An element of the array GET /api/export sends: a row without the audit
    columns and without [synced]. *)
Record Exported : Type := {
  x_id : Z;
  x_type : string;
  x_note : string;
  x_lat : float;
  x_lng : float;
  x_timestamp : timestamptz;
  x_address : option string
}.

Definition exported (row : Row) : Exported :=
  {| x_id := id row; x_type := type row; x_note := note row;
     x_lat := latitude row; x_lng := longitude row;
     x_timestamp := timestamp row; x_address := address row |}.

(** The JSON of a response of these routes. *)
Inductive Payload : Type :=
| PJson (j : Json)                                   (* an error object: { error } *)
| PLocation (location : LocationView)                (* { success, location } *)
| PLocations (count : nat) (locations : list LocationView)
                                                     (* { success, count, locations } *)
| PUpdated (message : string) (location : LocationView)
                                                     (* { success, message, location } *)
| PDeleted (message : string) (id : Z)               (* { success, message, id } *)
| PDeletedAll (message : string) (count : nat)       (* { success, message, count } *)
| PStats (total plants litter : nat) (earliest latest : option timestamptz)
                                                     (* { success, stats } *)
| PExport (data : list Exported).                    (* the array itself *)

Record Reply : Type := {
  code : nat;
  payload : Payload
}.

Definition Route : Type :=
  Env -> timestamptz -> Db -> Request -> Reply * Db.

Definition error_reply (code : nat) (error : string) : Reply :=
  {| code := code; payload := PJson (ErrorJson error) |}.

(** [app.METHOD(path, authenticate, handler)] *)
Definition authenticated (handler : Route) : Route :=
  fun env now db req =>
    match authenticate env req with
    | Some resp => ({| code := status resp; payload := PJson (json resp) |}, db)
    | None => handler env now db req
    end.

(** *** Reading *)

(** The handler of GET /api/locations/:id; [id] is the text of the path. *)
Definition get_location (pg : Pg) (id : string) : Route :=
  fun env now db req =>
    let failed := (error_reply 500 "Failed to fetch location", db) in
    if negb (connected db) then failed
    else
      match bigint_in pg (JStr id) with
      | None => failed
      | Some i =>
          match rows_with i (locations db) with
          | [] => (error_reply 404 "Location not found", db)
          | row :: _ => ({| code := 200; payload := PLocation (view row) |}, db)
          end
      end.

(** What [parseInt] makes of a query parameter that is given, or the
    parameter's absence. *)
Inductive IntParam : Type :=
| Absent
| NotANumber
| Int (z : Z).

(** The value sent for LIMIT or OFFSET, with its default; PostgreSQL accepts
    a BIGINT that is not negative. *)
Definition limit_value (default : Z) (p : IntParam) : option nat :=
  match p with
  | Absent => Some (Z.to_nat default)
  | NotANumber => None
  | Int z => if ((0 <=? z) && (z <? 2 ^ 63))%Z then Some (Z.to_nat z) else None
  end.

(** Timestamps are ordered as the instants they denote: [instant] reads a
    TIMESTAMPTZ value as its distance from the epoch, which is PostgreSQL's
    business, so the handlers are stated for any reading. [later a b]: [a]
    is not before [b]. *)
Definition later (instant : timestamptz -> Z) (a b : timestamptz) : bool :=
  (instant b <=? instant a)%Z.

(** ORDER BY timestamp DESC, as an insertion sort. Rows with the same
    instant come in the order the sort leaves them (PostgreSQL promises
    none). *)
Fixpoint insert_desc (instant : timestamptz -> Z)
    (row : Row) (sorted : list Row) : list Row :=
  match sorted with
  | [] => [row]
  | r :: rest =>
      if later instant (timestamp row) (timestamp r) then row :: r :: rest
      else r :: insert_desc instant row rest
  end.

Definition order_desc (instant : timestamptz -> Z) (t : Table) : list Row :=
  foldr (insert_desc instant) [] t.

(** [type && (type === 'plant' || type === 'litter')] *)
Definition type_filter (type : JValue) : option string :=
  match type with
  | JStr s => if String.eqb s "plant" || String.eqb s "litter" then Some s else None
  | _ => None
  end.

(** The handler of GET /api/locations; [type], [limit] and [offset] are the
    parameters of the query string. *)
Definition list_locations (instant : timestamptz -> Z)
    (type : JValue) (limit offset : IntParam) : Route :=
  fun env now db req =>
    let failed := (error_reply 500 "Failed to fetch locations", db) in
    if negb (connected db) then failed
    else
      match limit_value 1000 limit, limit_value 0 offset with
      | Some n, Some k =>
          let selected :=
            match type_filter type with
            | Some ty => List.filter (fun r => String.eqb (Server.type r) ty) (locations db)
            | None => locations db
            end in
          let rows := take n (drop k (order_desc instant selected)) in
          ({| code := 200; payload := PLocations (length rows) (map view rows) |}, db)
      | _, _ => failed
      end.

(** MIN(timestamp) and MAX(timestamp): NULL over no row; [better a b]
    tells whether [a] is to be preferred to [b]. *)
Definition extreme (better : timestamptz -> timestamptz -> bool) (t : Table)
    : option timestamptz :=
  foldr (fun r acc =>
           match acc with
           | None => Some (timestamp r)
           | Some best => if better (timestamp r) best then Some (timestamp r)
                          else Some best
           end) None t.

(** The handler of GET /api/stats. *)
Definition get_stats (instant : timestamptz -> Z) : Route :=
  fun env now db req =>
    if negb (connected db) then (error_reply 500 "Failed to fetch statistics", db)
    else
      let t := locations db in
      ({| code := 200;
          payload :=
            PStats (length t)
                   (length (List.filter (fun r => String.eqb (type r) "plant") t))
                   (length (List.filter (fun r => String.eqb (type r) "litter") t))
                   (extreme (fun a b => later instant b a) t)
                   (extreme (later instant) t) |}, db).

(** The handler of GET /api/export. *)
Definition export_data (instant : timestamptz -> Z) : Route :=
  fun env now db req =>
    if negb (connected db) then (error_reply 500 "Failed to export data", db)
    else
      ({| code := 200;
          payload := PExport (map exported (order_desc instant (locations db))) |}, db).

(** *** Writing *)

(** [note !== undefined] *)
Definition is_defined (v : JValue) : bool :=
  match v with
  | JUndefined => false
  | _ => true
  end.

(** UPDATE locations SET note = .., address = .., updated_at = NOW() on one
    row; a column that is not named keeps its value. *)
Definition update_row (note : option string) (address : option (option string))
    (now : timestamptz) (old : Row) : Row :=
  {| id := id old; type := type old;
     note := match note with Some n => n | None => Server.note old end;
     latitude := latitude old; longitude := longitude old;
     timestamp := timestamp old;
     address := match address with Some a => a | None => Server.address old end;
     created_at := created_at old; updated_at := now |}.

(** The handler of PUT /api/locations/:id. A note that is null is sent as
    NULL, which the NOT NULL column refuses. *)
Definition update_location (pg : Pg) (id : string) : Route :=
  fun env now db req =>
    let failed := (error_reply 500 "Failed to update location", db) in
    match get_prop (body req) "note", get_prop (body req) "address" with
    | Some vnote, Some vaddress =>
        if negb (connected db) then failed
        else
          match bigint_in pg (JStr id) with
          | None => failed
          | Some i =>
              if negb (has_id i (locations db))
              then (error_reply 404 "Location not found", db)
              else if negb (is_defined vnote) && negb (is_defined vaddress)
              then (error_reply 400 "No fields to update", db)
              else
                let new_note :=
                  if is_defined vnote
                  then match param (to_text pg) vnote with
                       | Some (Some n) => Some (Some n)
                       | _ => None
                       end
                  else Some None in
                let new_address :=
                  if is_defined vaddress
                  then match param (to_text pg) vaddress with
                       | Some a => Some (Some a)
                       | None => None
                       end
                  else Some None in
                match new_note, new_address with
                | Some n, Some a =>
                    let t := map (fun old => if Z.eqb (Server.id old) i
                                             then update_row n a now old else old)
                                 (locations db) in
                    match rows_with i t with
                    | row :: _ =>
                        ({| code := 200;
                            payload := PUpdated "Location updated successfully"
                                                (view row) |},
                         set_locations t db)
                    | [] => (error_reply 500 "Failed to update location",
                             set_locations t db)
                    end
                | _, _ => failed
                end
          end
    | _, _ => failed
    end.

(** The handler of DELETE /api/locations/:id. *)
Definition delete_location (pg : Pg) (id : string) : Route :=
  fun env now db req =>
    let failed := (error_reply 500 "Failed to delete location", db) in
    if negb (connected db) then failed
    else
      match bigint_in pg (JStr id) with
      | None => failed
      | Some i =>
          match rows_with i (locations db) with
          | [] => (error_reply 404 "Location not found", db)
          | row :: _ =>
              ({| code := 200;
                  payload := PDeleted "Location deleted successfully" (Server.id row) |},
               set_locations
                 (List.filter (fun r => negb (Z.eqb (Server.id r) i)) (locations db)) db)
          end
      end.

(** The handler of DELETE /api/locations. *)
Definition delete_all : Route :=
  fun env now db req =>
    if negb (connected db) then (error_reply 500 "Failed to delete locations", db)
    else
      ({| code := 200;
          payload := PDeletedAll "All locations deleted" (length (locations db)) |},
       set_locations [] db).

(** *** The routes, as server.js registers them *)

Definition GET_api_locations instant type limit offset : Route :=
  authenticated (list_locations instant type limit offset).
Definition GET_api_location pg id : Route := authenticated (get_location pg id).
Definition PUT_api_location pg id : Route := authenticated (update_location pg id).
Definition DELETE_api_location pg id : Route := authenticated (delete_location pg id).
Definition DELETE_api_locations : Route := authenticated delete_all.
Definition GET_api_stats instant : Route := authenticated (get_stats instant).
Definition GET_api_export instant : Route := authenticated (export_data instant).

(** *** Vocabulary of the statements below *)

(** The CHECK constraint on [type], as a property of the table. *)
Definition types_valid (t : Table) : Prop :=
  Forall (fun r => type r = "plant" \/ type r = "litter") t.

(** Timestamps from the newest to the oldest: each is not before any that
    follows it. *)
Fixpoint newest_first (instant : timestamptz -> Z) (ts : list timestamptz)
    : Prop :=
  match ts with
  | [] => True
  | t :: rest =>
      Forall (fun u => (instant u <= instant t)%Z) rest
      /\ newest_first instant rest
  end.

(** The two constraints the table declares that span its rows. *)
Definition table_ok (t : Table) : Prop := pk_unique t /\ types_valid t.

(** The database as a later request finds it: the table as it was left,
    within reach or not. *)
Definition reachable (c : bool) (db : Db) : Db :=
  {| connected := c; locations := locations db |}.

(** *** Sample data *)

(** The number a text of decimal digits writes. *)
Fixpoint digits (s : string) (acc : Z) : option Z :=
  match s with
  | EmptyString => Some acc
  | String c rest =>
      let n := Z.of_nat (Ascii.nat_of_ascii c) in
      if ((48 <=? n) && (n <=? 57))%Z then digits rest (acc * 10 + (n - 48))%Z
      else None
  end.

(** The conversions of [pg_js], which also read the id of a path: a text
    of decimal digits in the range of BIGINT. *)
Definition pg_text : Pg :=
  {| bigint_in := fun v =>
       match v with
       | JStr (String c rest) =>
           match digits (String c rest) 0 with
           | Some z => if (z <? 2 ^ 63)%Z then Some z else None
           | None => None
           end
       | other => bigint_in pg_js other
       end;
     float8_in := float8_in pg_js;
     timestamptz_in := timestamptz_in pg_js;
     text_in := text_in pg_js |}.

(** The digits of a text read as one number: for timestamps written in one
    format and zone (ISO 8601, UTC) these numbers are ordered as the
    instants are. *)
Fixpoint digits_of (s : string) (acc : Z) : Z :=
  match s with
  | EmptyString => acc
  | String c rest =>
      let n := Z.of_nat (Ascii.nat_of_ascii c) in
      if ((48 <=? n) && (n <=? 57))%Z then digits_of rest (acc * 10 + (n - 48))%Z
      else digits_of rest acc
  end.

Definition instant_iso (ts : timestamptz) : Z := digits_of ts 0.

End Routes.

(** ** Properties of the client *)

Module ClientProofs.
Import Js Client.

(** *** The heap under marking *)

Lemma mark_all_lookup marked h a :
  mark_all marked h !! a =
  (fun l => if bool_decide (a ∈ marked) then set_synced true l else l) <$> h !! a.
Proof. unfold mark_all. by rewrite list_lookup_imap. Qed.

Lemma mark_all_nil h : mark_all [] h = h.
Proof.
  apply list_eq. intros i. rewrite mark_all_lookup.
  by destruct (h !! i).
Qed.

Lemma mark_all_cons a marked h :
  mark_all marked (alter (set_synced true) a h) = mark_all (a :: marked) h.
Proof.
  apply list_eq. intros i. rewrite !mark_all_lookup.
  destruct (decide (i = a)) as [->|Hne].
  - rewrite list_lookup_alter_eq. destruct (h !! a); simpl; [|done].
    rewrite (bool_decide_eq_true_2 (a ∈ a :: marked)); [|set_solver].
    by destruct (bool_decide (a ∈ marked)).
  - rewrite list_lookup_alter_ne; [|done]. destruct (h !! i); simpl; [|done].
    rewrite (bool_decide_ext (i ∈ marked) (i ∈ a :: marked)); [done|].
    rewrite elem_of_cons. naive_solver.
Qed.

Lemma refs_valid_alter f a h refs :
  refs_valid h refs -> refs_valid (alter f a h) refs.
Proof.
  unfold refs_valid. intros Hv. eapply Forall_impl; [exact Hv|].
  simpl. intros b [l Hl].
  destruct (decide (b = a)) as [->|Hne].
  - rewrite list_lookup_alter_eq, Hl. by eexists.
  - rewrite list_lookup_alter_ne, Hl by done. by eexists.
Qed.

(** The request does not carry the [synced] field. *)
Lemma upsert_request_set_synced c b l :
  upsert_request c (set_synced b l) = upsert_request c l.
Proof. reflexivity. Qed.

(** *** The loop of syncNow *)

(** One turn of the loop. *)
Lemma sync_loop_cons a rest s f st l :
  heap st !! a = Some l ->
  let req := upsert_request (config st) l in
  let r := network st (exchanges st) req in
  sync_loop (a :: rest) s f st =
  sync_loop rest (if result_ok r then S s else s) (if result_ok r then f else S f)
    (set_exchanges (exchanges st ++ [(req, r)])
       (set_heap (if result_ok r then alter (set_synced true) a (heap st)
                  else heap st) st)).
Proof.
  intros Hl req r. simpl.
  cbv [bind try_catch get read fetch modify mark_synced ret throw].
  rewrite Hl. fold req. fold r.
  destruct r as [msg|status]; simpl; [reflexivity|].
  destruct (response_ok status); reflexivity.
Qed.

Lemma succeeded_failures ps evs :
  length ps = length evs ->
  length (succeeded ps evs) + failures evs = length ps.
Proof.
  revert evs. induction ps as [|a ps IH]; intros [|ev evs] Hlen; try done.
  simpl in *. unfold failures in *. simpl.
  specialize (IH evs ltac:(lia)).
  destruct (result_ok (snd ev)); simpl; lia.
Qed.

(** The loop never throws: it submits every pending record once, in order,
    marks those whose response is 2xx and counts the others. *)
Lemma sync_loop_spec ps : forall st s f,
  refs_valid (heap st) ps ->
  exists evs,
    sync_loop ps s f st =
      (Ret (s + length (succeeded ps evs), f + failures evs),
       set_exchanges (exchanges st ++ evs)
         (set_heap (mark_all (succeeded ps evs) (heap st)) st))
    /\ submitted st ps evs.
Proof.
  induction ps as [|a rest IH]; intros st s f Hv.
  - exists []. split.
    + simpl. unfold ret. rewrite mark_all_nil, app_nil_r.
      unfold failures. simpl. rewrite !Nat.add_0_r. by destruct st.
    + split; [constructor|]. intros k ev Hk. by rewrite lookup_nil in Hk.
  - apply Forall_cons in Hv as [[l Hl] Hv].
    rewrite (sync_loop_cons _ _ _ _ _ _ Hl).
    set (req := upsert_request (config st) l).
    set (r := network st (exchanges st) req).
    set (h1 := if result_ok r then alter (set_synced true) a (heap st) else heap st).
    set (st1 := set_exchanges _ _).
    assert (Hv1 : refs_valid (heap st1) rest).
    { subst st1 h1. simpl. destruct (result_ok r); [by apply refs_valid_alter|done]. }
    destruct (IH st1 (if result_ok r then S s else s) (if result_ok r then f else S f) Hv1)
      as (evs & Hrun & Hsub & Hnet).
    exists ((req, r) :: evs). split; [|split].
    + rewrite Hrun. subst st1 h1. simpl.
      assert (Hf : failures ((req, r) :: evs)
                   = (if result_ok r then 0 else 1) + failures evs).
      { unfold failures. simpl. by destruct (result_ok r). }
      rewrite Hf. destruct (result_ok r) eqn:Hr; simpl.
      * f_equal; [do 2 f_equal; lia|].
        unfold set_exchanges, set_heap. simpl.
        f_equal; [apply mark_all_cons | by rewrite <- app_assoc].
      * f_equal; [do 2 f_equal; lia|].
        unfold set_exchanges, set_heap. simpl.
        f_equal. by rewrite <- app_assoc.
    + constructor; [by exists l|].
      eapply Forall2_impl; [exact Hsub|].
      intros b ev (l' & Hl' & Hreq). subst st1 h1. simpl in *.
      destruct (result_ok r); [|by exists l'].
      destruct (decide (b = a)) as [->|Hne].
      * rewrite list_lookup_alter_eq, Hl in Hl'. simpl in Hl'.
        injection Hl' as <-. by exists l.
      * rewrite list_lookup_alter_ne in Hl' by done. by exists l'.
    + intros [|k] ev Hk; simpl in Hk.
      * injection Hk as <-. simpl. by rewrite app_nil_r.
      * rewrite (Hnet k ev Hk). subst st1. simpl. by rewrite <- app_assoc.
Qed.


Ltac js_unfold :=
  cbv [sync_finish saveToLocalStorage setItem updateLocationList
       locations_array updateStats updateSyncIndicator showToast log
       console_error bind try_catch get modify ret throw].

(** The statements after the loop, on a store that is an array. *)
Lemma sync_finish_spec s f st refs :
  locations st = LArray refs ->
  exists st',
    sync_finish s f st = (Ret tt, st')
    /\ heap st' = heap st
    /\ exchanges st' = exchanges st
    /\ network st' = network st
    /\ locations st' = locations st
    /\ isSyncing (syncState st') = false
    /\ syncIndicator st' = Some (if (f =? 0)%nat then Online else Offline)
    /\ offlineMode (config st') =
         (if (f =? 0)%nat then false else offlineMode (config st))
    /\ (storage_writable st = true ->
        tracker_locations st' = stringify_locations st).
Proof.
  intros Hloc. js_unfold.
  destruct (storage_writable st) eqn:Hw; simpl;
    destruct (String.eqb (currentFilter st) "all"); simpl; rewrite ?Hloc;
    destruct (f =? 0)%nat; simpl;
    (eexists; split; [reflexivity|]); simpl; rewrite ?Hloc; repeat split; done.
Qed.

(** *** syncNow *)



Lemma syncNow_nothing_pending st refs :
  isSyncing (syncState st) = false ->
  locations st = LArray refs ->
  pending (heap st) refs = [] ->
  syncNow st =
  (Ret tt,
   set_syncIndicator (Some Online)
     (set_isSyncing false
        (set_toasts (toasts st ++ [("All locations already synced", "success")])
           (sync_started st)))).
Proof.
  intros Hb Hloc Hp. unfold syncNow.
  cbv [bind get modify updateSyncIndicator showToast log locations_array ret throw].
  unfold pending in Hp.
  rewrite Hb. simpl. rewrite Hloc. simpl. rewrite Hp. reflexivity.
Qed.

Lemma syncNow_pending st refs :
  isSyncing (syncState st) = false ->
  locations st = LArray refs ->
  pending (heap st) refs <> [] ->
  syncNow st =
  (let* (successCount, failCount) := sync_loop (pending (heap st) refs) 0 0 in
   sync_finish successCount failCount) (sync_started st).
Proof.
  intros Hb Hloc Hp. unfold syncNow.
  cbv [get modify updateSyncIndicator log locations_array ret throw].
  unfold pending in *. unfold sync_started.
  cbv [bind get modify updateSyncIndicator log locations_array ret throw].
  rewrite Hb. simpl. rewrite Hloc. simpl.
  destruct (filter_refs _ _ refs) eqn:E; [done|]. reflexivity.
Qed.

Lemma filter_refs_cons p h a refs :
  filter_refs p h (a :: refs) =
  if match h !! a with Some l => p l | None => false end
  then a :: filter_refs p h refs else filter_refs p h refs.
Proof. reflexivity. Qed.

Lemma filter_refs_elem p h refs a :
  a ∈ filter_refs p h refs -> a ∈ refs.
Proof.
  induction refs as [|b refs IH]; [done|].
  rewrite filter_refs_cons.
  destruct (h !! b) as [l|]; [destruct (p l)|]; set_solver.
Qed.

Lemma refs_valid_filter p h refs :
  refs_valid h refs -> refs_valid h (filter_refs p h refs).
Proof.
  unfold refs_valid. induction 1 as [|b refs Hb Hv IH]; [constructor|].
  rewrite filter_refs_cons. destruct Hb as [l Hl]. rewrite Hl.
  destruct (p l); [constructor; [by eexists|]|]; done.
Qed.

Lemma succeeded_elem ps evs a : a ∈ succeeded ps evs -> a ∈ ps.
Proof.
  revert evs. induction ps as [|b ps IH]; intros [|ev evs]; simpl; try set_solver.
  destruct (result_ok ev.2); set_solver.
Qed.

Lemma submitted_length st ps evs : submitted st ps evs -> length ps = length evs.
Proof. intros [H _]. by eapply Forall2_length. Qed.

(** The sweep of [syncNow] over a store with pending records. *)
Lemma syncNow_sweep st refs :
  isSyncing (syncState st) = false ->
  locations st = LArray refs ->
  refs_valid (heap st) refs ->
  pending (heap st) refs <> [] ->
  exists evs st',
    syncNow st = (Ret tt, st')
    /\ submitted st (pending (heap st) refs) evs
    /\ heap st' = mark_all (succeeded (pending (heap st) refs) evs) (heap st)
    /\ exchanges st' = exchanges st ++ evs
    /\ locations st' = LArray refs
    /\ isSyncing (syncState st') = false
    /\ syncIndicator st' =
         Some (if (failures evs =? 0)%nat then Online else Offline)
    /\ offlineMode (config st') =
         (if (failures evs =? 0)%nat then false else offlineMode (config st))
    /\ (storage_writable st = true ->
        tracker_locations st' = stringify_locations st').
Proof.
  intros Hb Hloc Hv Hp. rewrite (syncNow_pending st refs Hb Hloc Hp).
  set (ps := pending (heap st) refs).
  destruct (sync_loop_spec ps (sync_started st) 0 0) as (evs & Hrun & Hsub).
  { apply refs_valid_filter, Hv. }
  exists evs. unfold bind at 1. rewrite Hrun.
  match goal with |- context [sync_finish ?s ?f ?st1] =>
    destruct (sync_finish_spec s f st1 refs) as
      (st' & Hfin & Hh & Hx & Hn & Hl & Hs & Hi & Ho & Hst)
  end; [exact Hloc|].
  exists st'. rewrite Hfin. simpl in *.
  repeat split; try done.
  - apply Hsub.
  - apply Hsub.
  - by rewrite Hl.
  - intros Hw. rewrite (Hst Hw). unfold stringify_locations. simpl.
    rewrite Hl, Hloc, Hh. done.
Qed.

(** *** Counting the synced records *)

Lemma count_synced_cons h a refs :
  count_synced h (a :: refs) =
  (if match h !! a with Some l => loc_synced l | None => false end then 1 else 0)
  + count_synced h refs.
Proof.
  unfold count_synced. rewrite filter_refs_cons.
  by destruct (match h !! a with Some l => loc_synced l | None => false end).
Qed.

Lemma count_synced_mark_ext S1 S2 h refs :
  (forall b, b ∈ refs -> (b ∈ S1 <-> b ∈ S2)) ->
  count_synced (mark_all S1 h) refs = count_synced (mark_all S2 h) refs.
Proof.
  induction refs as [|a refs IH]; intros Hext; [done|].
  rewrite !count_synced_cons, !mark_all_lookup.
  rewrite IH by (intros b Hb; apply Hext; set_solver).
  rewrite (bool_decide_ext (a ∈ S1) (a ∈ S2)) by (apply Hext; set_solver).
  done.
Qed.

Lemma count_synced_sweep h refs : forall evs,
  NoDup refs ->
  refs_valid h refs ->
  length (pending h refs) = length evs ->
  count_synced (mark_all (succeeded (pending h refs) evs) h) refs
  = count_synced h refs + length (succeeded (pending h refs) evs).
Proof.
  induction refs as [|a refs IH]; intros evs Hnd Hv Hlen; [done|].
  apply NoDup_cons in Hnd as [Ha Hnd].
  apply Forall_cons in Hv as [[l Hl] Hv].
  assert (Hout : forall evs', a ∉ succeeded (pending h refs) evs').
  { intros evs' Hin. apply Ha.
    eapply filter_refs_elem, succeeded_elem, Hin. }
  revert Hlen. unfold pending at 1 2 3. rewrite filter_refs_cons, Hl.
  fold (pending h refs). rewrite !count_synced_cons, mark_all_lookup, Hl. simpl.
  destruct (loc_synced l) eqn:Hs; simpl; intros Hlen.
  - rewrite IH by done.
    by destruct (bool_decide _); simpl; rewrite ?Hs.
  - destruct evs as [|ev evs]; [done|]. simpl in *.
    destruct (result_ok ev.2); simpl.
    + rewrite bool_decide_eq_true_2 by set_solver. simpl.
      rewrite (count_synced_mark_ext _ (succeeded (pending h refs) evs)).
      * rewrite IH by (done || lia). lia.
      * intros b Hb. rewrite elem_of_cons.
        split; [intros [->|]; done | by right].
    + rewrite bool_decide_eq_false_2 by apply Hout. rewrite Hs. simpl.
      apply IH; (done || lia).
Qed.

Lemma succeeded_all ps : forall evs,
  length ps = length evs -> failures evs = 0 -> succeeded ps evs = ps.
Proof.
  induction ps as [|a ps IH]; intros [|ev evs] Hlen Hf; try done.
  unfold failures in *. simpl in *.
  destruct (result_ok ev.2); simpl in *; [|done].
  f_equal. apply IH; [lia|done].
Qed.

(** C1 (amended). Started on a store that is an array of distinct records
    with no sync in flight, syncNow returns after submitting each pending
    record once, in order; it sets synced = true on exactly the records whose
    upsert got a 2xx response, so that the number of synced records grows by
    N - failures. With zero failures every previously pending record is
    synced and the indicator shows online, and the offline-mode flag is
    cleared when at least one record was pending; with nothing pending the
    flag is left as it was. With a failure the indicator shows offline. *)
Theorem syncNow_marks_the_succeeded st refs :
  isSyncing (syncState st) = false ->
  locations st = LArray refs ->
  NoDup refs ->
  refs_valid (heap st) refs ->
  exists evs st',
    syncNow st = (Ret tt, st')
    /\ exchanges st' = exchanges st ++ evs
    /\ submitted st (pending (heap st) refs) evs
    /\ (forall a l, heap st !! a = Some l ->
          heap st' !! a =
          Some (if bool_decide (a ∈ succeeded (pending (heap st) refs) evs)
                then set_synced true l else l))
    /\ count_synced (heap st') refs
       = count_synced (heap st) refs
         + (length (pending (heap st) refs) - failures evs)
    /\ (failures evs = 0 ->
          Forall (fun a => exists l, heap st' !! a = Some l /\ loc_synced l = true)
                 (pending (heap st) refs)
          /\ syncIndicator st' = Some Online
          /\ (pending (heap st) refs <> [] -> offlineMode (config st') = false))
    /\ (failures evs <> 0 ->
          syncIndicator st' = Some Offline
          /\ offlineMode (config st') = offlineMode (config st))
    /\ (pending (heap st) refs = [] ->
          evs = [] /\ offlineMode (config st') = offlineMode (config st)).
Proof.
  intros Hb Hloc Hnd Hv.
  destruct (decide (pending (heap st) refs = [])) as [Hp|Hp].
  - exists [], (set_syncIndicator (Some Online)
       (set_isSyncing false
          (set_toasts (toasts st ++ [("All locations already synced", "success")])
             (sync_started st)))).
    rewrite (syncNow_nothing_pending st refs Hb Hloc Hp), Hp. simpl.
    repeat split; try done. by rewrite app_nil_r.
  - destruct (syncNow_sweep st refs Hb Hloc Hv Hp)
      as (evs & st' & Hrun & Hsub & Hh & Hx & Hl & Hs & Hi & Ho & _).
    pose proof (submitted_length _ _ _ Hsub) as Hlen.
    exists evs, st'. repeat split; try done.
    + apply Hsub.
    + apply Hsub.
    + intros a l Ha. by rewrite Hh, mark_all_lookup, Ha.
    + rewrite Hh, count_synced_sweep by done.
      pose proof (succeeded_failures _ _ Hlen). lia.
    + rewrite Hh, (succeeded_all _ _ Hlen H).
      apply Forall_forall. intros a Ha.
      pose proof (refs_valid_filter (fun l => negb (loc_synced l)) _ _ Hv) as Hvp.
      unfold refs_valid in Hvp. rewrite Forall_forall in Hvp. destruct (Hvp a Ha) as [l Hla].
      exists (set_synced true l). rewrite mark_all_lookup, Hla. simpl.
      by rewrite bool_decide_eq_true_2.
    + by rewrite Hi, H.
    + by rewrite Ho, H.
    + rewrite Hi. by destruct (failures evs).
    + rewrite Ho. by destruct (failures evs).
Qed.

(** C1 (amended) at a store of two pending records and a service that
    answers 201. *)
Lemma syncNow_marks_the_succeeded_witness :
  exists evs st',
    syncNow (page [kudzu; bottle] false (net_status 201)) = (Ret tt, st')
    /\ failures evs = 0
    /\ exchanges st' = evs
    /\ count_synced (heap st') [0; 1] = 2
    /\ syncIndicator st' = Some Online.
Proof.
  destruct (syncNow_marks_the_succeeded
              (page [kudzu; bottle] false (net_status 201)) [0; 1])
    as (evs & st' & Hrun & Hx & Hsub & Hh & Hc & Hz & _).
  - reflexivity.
  - reflexivity.
  - repeat constructor; set_solver.
  - repeat constructor; by eexists.
  - exists evs, st'.
    assert (Hf : failures evs = 0).
    { destruct Hsub as [Hf2 Hnet].
      inversion Hf2 as [|a1 e1 ? ? _ Hf3]; subst.
      inversion Hf3 as [|a2 e2 ? ? _ Hf4]; subst. inversion Hf4; subst.
      unfold failures. simpl.
      rewrite (Hnet 0 e1 eq_refl), (Hnet 1 e2 eq_refl). reflexivity. }
    repeat split; try done.
    + rewrite Hc, Hf. reflexivity.
    + by apply Hz.
Defined.

(** C1, as stated, fails when nothing is pending: no upsert fails, the
    indicator shows online, and yet the offline-mode flag stays set. *)
Lemma syncNow_nothing_pending_keeps_offline_flag :
  let st := page [set_synced true kudzu] true (net_status 201) in
  let r := syncNow st in
  pending (heap st) [0] = []
  /\ r.1 = Ret tt
  /\ exchanges r.2 = []
  /\ syncIndicator r.2 = Some Online
  /\ offlineMode (config r.2) = true.
Proof. vm_compute. repeat split. Qed.

(** A sweep of two pending records in which the second upsert is answered
    500: one record flips to synced, the indicator shows offline. *)
Example syncNow_partial :
  let st := page [kudzu; bottle] false (net_then 201 500) in
  let r := syncNow st in
  r.1 = Ret tt
  /\ heap r.2 = [set_synced true kudzu; bottle]
  /\ map snd (exchanges r.2) = [Responded 201; Responded 500]
  /\ count_synced (heap r.2) [0; 1] = 1
  /\ syncIndicator r.2 = Some Offline
  /\ isSyncing (syncState r.2) = false
  /\ toasts r.2 = [("Synced 1, failed 1", "error")].
Proof. vm_compute. repeat split. Qed.

(** *** Single flight *)





(** *** Deleting a record *)

Lemma filter_refs_spec p h refs a :
  a ∈ filter_refs p h refs <->
  a ∈ refs /\ exists l, h !! a = Some l /\ p l = true.
Proof.
  induction refs as [|b refs IH]; [set_solver|].
  rewrite filter_refs_cons.
  destruct (h !! b) as [lb|] eqn:Hb; [destruct (p lb) eqn:Hp|];
    rewrite ?elem_of_cons, IH; split; try naive_solver.
  intros [[->|Ha] (l & Hl & Hpl)]; [congruence|eauto].
Qed.


Lemma last_keep_100 {A} (l : list A) x :
  last (drop (length (l ++ [x]) - 100) (l ++ [x])) = Some x.
Proof.
  rewrite length_app. simpl. rewrite drop_app_le by lia. apply last_snoc.
Qed.

Lemma log_last message type st :
  last (debugLog (log message type st).2) = Some (message, type).
Proof. apply last_keep_100. Qed.

(** Running statements one at a time. *)
Lemma bind_run {A B} (m : M A) (k : A -> M B) st a st' :
  m st = (Ret a, st') -> bind m k st = k a st'.
Proof. intros H. unfold bind. by rewrite H. Qed.

Lemma bind_throw {A B} (m : M A) (k : A -> M B) st e st' :
  m st = (Throw e, st') -> bind m k st = (Throw e, st').
Proof. intros H. unfold bind. by rewrite H. Qed.

Lemma locations_array_ok method st refs :
  locations st = LArray refs -> locations_array method st = (Ret refs, st).
Proof. intros H. unfold locations_array, bind, get. by rewrite H. Qed.

Lemma saveToLocalStorage_run st : saveToLocalStorage st = (Ret tt, saved st).
Proof.
  unfold saveToLocalStorage, saved, setItem, console_error.
  cbv [bind try_catch get modify ret throw].
  by destruct (storage_writable st).
Qed.

Lemma updateStats_array st refs :
  locations st = LArray refs -> updateStats st = (Ret tt, st).
Proof.
  intros H. unfold updateStats.
  by rewrite (bind_run _ _ _ _ _ (locations_array_ok _ _ _ H)).
Qed.

Lemma updateLocationList_array st refs :
  locations st = LArray refs -> updateLocationList st = (Ret tt, st).
Proof.
  intros H. unfold updateLocationList.
  rewrite (bind_run get _ st st st eq_refl).
  destruct (negb _).
  - by rewrite (bind_run _ _ _ _ _ (locations_array_ok _ _ _ H)).
  - by rewrite H.
Qed.

Ltac js_step :=
  erewrite bind_run;
  [| first [ reflexivity
           | apply saveToLocalStorage_run
           | eapply locations_array_ok; simpl; eassumption
           | eapply updateStats_array; unfold saved;
             match goal with |- context [storage_writable ?s] =>
               destruct (storage_writable s) end; reflexivity
           | eapply updateLocationList_array; unfold saved;
             match goal with |- context [storage_writable ?s] =>
               destruct (storage_writable s) end; reflexivity ] ].

(** What [deleteLocation] does once the dialog is confirmed, on a store that
    is an array. *)
Lemma deleteLocation_spec st refs id :
  locations st = LArray refs ->
  let found := head (filter_refs (fun l => Z.eqb (loc_id l) id) (heap st) refs)
               ≫= (fun a => heap st !! a) in
  let remote := match found with
                | Some l => loc_synced l && negb (offlineMode (config st))
                | None => false
                end in
  let req := delete_request (config st) id in
  let r := network st (exchanges st) req in
  exists st',
    deleteLocation true id st = (Ret tt, st')
    /\ heap st' = heap st
    /\ config st' = config st
    /\ locations st' =
         LArray (filter_refs (fun l => negb (Z.eqb (loc_id l) id)) (heap st) refs)
    /\ exchanges st' = exchanges st ++ (if remote then [(req, r)] else [])
    /\ (storage_writable st = true ->
        tracker_locations st' = stringify_locations st')
    /\ (remote = true -> forall message, r = NetworkError message ->
        last (debugLog st') =
        Some ("Delete from server failed: " +:+ message, "error"))
    /\ (remote = true -> forall status, r = Responded status ->
        last (debugLog st') =
        Some ("Location deleted from server: ID " +:+ pretty id, "success"))
    /\ syncState st' = syncState st.
Proof.
  intros Hloc found remote req r. unfold deleteLocation. simpl.
  do 7 js_step. fold found. subst remote.
  unfold saved, deleteFromServer. cbv [bind get modify ret showToast log].
  simpl.
  destruct (storage_writable st) eqn:Hw;
    (destruct found as [l|]; [destruct (loc_synced l)|]); simpl;
    destruct (offlineMode (config st)) eqn:Ho; simpl;
    try (fold req; fold r; destruct r as [msg|status] eqn:Hr; simpl);
    (eexists; split; [reflexivity|]); simpl;
    repeat split; try done;
    try (by rewrite app_nil_r);
    try (intros _ message [= <-]; apply last_keep_100);
    try (intros _ status' [= <-]; apply last_keep_100).
Qed.



(** A DELETE request answered 500 is logged as a successful deletion. *)
Example deleteLocation_error_status_logged_as_success :
  let st := page [set_synced true kudzu] false (net_status 500) in
  let r := deleteLocation true (loc_id kudzu) st in
  map snd (exchanges r.2) = [Responded 500]
  /\ last (debugLog r.2)
     = Some ("Location deleted from server: ID 1700000000000", "success").
Proof. vm_compute. repeat split. Qed.


(** *** Pushing one record *)

Lemma read_ok a st l : heap st !! a = Some l -> read a st = (Ret l, st).
Proof. intros H. unfold read, bind, get. by rewrite H. Qed.

Lemma fetch_responded req st status :
  network st (exchanges st) req = Responded status ->
  fetch req st =
  (Ret status, set_exchanges (exchanges st ++ [(req, Responded status)]) st).
Proof. intros H. unfold fetch. cbv [bind get modify ret]. by rewrite H. Qed.

Lemma fetch_rejected req st message :
  network st (exchanges st) req = NetworkError message ->
  fetch req st =
  (Throw (TypeError message),
   set_exchanges (exchanges st ++ [(req, NetworkError message)]) st).
Proof. intros H. unfold fetch. cbv [bind get modify ret throw]. by rewrite H. Qed.


(** *** The periodic sweep *)

(** A tick of the auto-sync timer starts syncNow exactly when a record is
    pending, no sync is in flight and the offline-mode flag is not set; so
    a record that a failed push left pending is submitted again. *)
Lemma autoSyncTick_spec st refs :
  locations st = LArray refs ->
  autoSyncTick st =
  if (0 <? length (pending (heap st) refs))%nat
     && negb (isSyncing (syncState st)) && negb (offlineMode (config st))
  then syncNow
         (log ("Auto-sync triggered: "
               +:+ pretty (length (pending (heap st) refs)) +:+ " pending")
              "info" st).2
  else (Ret tt, st).
Proof.
  intros Hloc. unfold autoSyncTick.
  rewrite (bind_run _ _ _ _ _ (locations_array_ok _ _ _ Hloc)).
  rewrite (bind_run get _ st st st eq_refl). fold (pending (heap st) refs).
  by destruct (_ && _ && _).
Qed.




(** A push that finds no connection: the record stays pending and the next
    tick of the timer submits it again. *)
Example syncLocationToServer_push_then_tick :
  let st := (syncLocationToServer 0 (page [kudzu] false net_down)).2 in
  heap st = [kudzu]
  /\ offlineMode (config st) = false
  /\ syncIndicator st = Some Offline
  /\ map fst (exchanges (autoSyncTick st).2)
     = [upsert_request (config st) kudzu; upsert_request (config st) kudzu].
Proof. vm_compute. repeat split. Qed.

(** *** The health probe *)

(** What checkConnection does, by what the probe comes to: it returns true
    exactly on a 2xx response and touches no record; a 2xx response clears
    the offline-mode flag, a rejected fetch sets it, and a response that is
    not 2xx changes neither the flag nor the indicator. *)
Lemma checkConnection_spec st :
  let req := health_request (config st) in
  let r := network st (exchanges st) req in
  exists st',
    checkConnection st = (Ret (result_ok r), st')
    /\ heap st' = heap st
    /\ locations st' = locations st
    /\ tracker_locations st' = tracker_locations st
    /\ exchanges st' = exchanges st ++ [(req, r)]
    /\ match r with
       | Responded status =>
           if response_ok status
           then offlineMode (config st') = false
                /\ syncIndicator st' = Some Online
           else offlineMode (config st') = offlineMode (config st)
                /\ syncIndicator st' = syncIndicator st
       | NetworkError _ =>
           offlineMode (config st') = true /\ syncIndicator st' = Some Offline
       end.
Proof.
  intros req r. unfold checkConnection.
  rewrite (bind_run get _ st st st eq_refl). unfold try_catch. fold req.
  destruct r as [msg|status] eqn:Hr; subst r.
  - rewrite (bind_throw _ _ _ _ _ (fetch_rejected _ _ _ Hr)).
    eexists. split; [reflexivity|]. by simpl.
  - rewrite (bind_run _ _ _ _ _ (fetch_responded _ _ _ Hr)). simpl.
    destruct (response_ok status);
      (eexists; split; [reflexivity|]); by simpl.
Qed.

(** C5 at its failing input: after a probe that succeeded, a probe answered
    503 returns false and leaves the offline-mode flag cleared and the
    indicator on online. *)
Lemma checkConnection_ignores_error_status :
  let st := (checkConnection (page [kudzu] false (net_then 200 503))).2 in
  let r := checkConnection st in
  exchanges r.2 =
    [(health_request (config st), Responded 200);
     (health_request (config st), Responded 503)]
  /\ r.1 = Ret false
  /\ offlineMode (config r.2) = false
  /\ syncIndicator r.2 = Some Online.
Proof. vm_compute. repeat split. Qed.

(** By contrast a probe that is rejected (no connection) sets the flag and
    the indicator. *)
Example checkConnection_network_error :
  let r := checkConnection (page [kudzu] false net_down) in
  r.1 = Ret false
  /\ offlineMode (config r.2) = true
  /\ syncIndicator r.2 = Some Offline.
Proof. vm_compute. repeat split. Qed.

(** *** Restoring the store *)

(** loadStoredLocations never throws. *)
Lemma loadStoredLocations_returns st :
  exists st', loadStoredLocations st = (Ret tt, st').
Proof.
  unfold loadStoredLocations, try_catch.
  match goal with |- context [match ?m st with _ => _ end] =>
    destruct (m st) as [[[]|e] st1] end; eexists; reflexivity.
Qed.

(** With no item, an empty item or a text that does not parse, the store is
    left as it was. *)
Lemma loadStoredLocations_keeps st :
  tracker_locations st = NoItem \/ tracker_locations st = EmptyText
  \/ tracker_locations st = BadText ->
  locations (loadStoredLocations st).2 = locations st
  /\ heap (loadStoredLocations st).2 = heap st.
Proof.
  unfold loadStoredLocations, try_catch, console_error.
  cbv [bind get modify ret throw].
  intros [H|[H|H]]; rewrite H; done.
Qed.

(** A well-formed item that is not an array is adopted as the store. *)
Lemma loadStoredLocations_junk st v :
  tracker_locations st = JsonOther v ->
  locations (loadStoredLocations st).2 = LJunk v
  /\ console_errors (loadStoredLocations st).2 =
     console_errors st ++ ["Failed to load from localStorage:"].
Proof.
  intros H. unfold loadStoredLocations, try_catch, console_error, locations_array.
  cbv [bind get modify ret throw]. rewrite H. simpl. by destruct v.
Qed.

(** C8 at its failing input: the stored item is the JSON text of an object.
    loadStoredLocations returns normally and logs to the console, but the
    store is that object, not the empty array it was before. *)
Lemma loadStoredLocations_adopts_non_array :
  let item := JsonOther (NObj [("a", JNum 1)]) in
  let st := initial "http://localhost:3000" item true (net_status 200) 0 in
  let r := loadStoredLocations st in
  locations st = LArray []
  /\ r.1 = Ret tt
  /\ locations r.2 = LJunk (NObj [("a", JNum 1)])
  /\ console_errors r.2 = ["Failed to load from localStorage:"].
Proof. vm_compute. repeat split. Qed.

(** An array of records is restored as it was saved. *)
Example loadStoredLocations_records :
  let item := JsonRecords [kudzu; set_synced true bottle] in
  let st := initial "http://localhost:3000" item true (net_status 200) 0 in
  let r := loadStoredLocations st in
  r.1 = Ret tt
  /\ locations r.2 = LArray [0; 1]
  /\ heap r.2 = [kudzu; set_synced true bottle]
  /\ pending (heap r.2) [0; 1] = [0].
Proof. vm_compute. repeat split. Qed.

End ClientProofs.

(** ** Properties of the service *)

Module ServerProofs.
Import Js Server.

(** *** The primary key *)

Lemma has_id_true i t : has_id i t = true <-> i ∈ map id t.
Proof.
  unfold has_id. induction t as [|r t IH]; simpl.
  - split; [done|]. by intros ?%elem_of_nil.
  - rewrite orb_true_iff, IH, elem_of_cons, Z.eqb_eq. naive_solver.
Qed.

Lemma has_id_false i t : has_id i t = false <-> i ∉ map id t.
Proof.
  rewrite <- has_id_true. destruct (has_id i t); split; done.
Qed.

Lemma rows_with_absent i t : i ∉ map id t -> rows_with i t = [].
Proof.
  unfold rows_with. induction t as [|r t IH]; simpl; [done|].
  rewrite elem_of_cons. intros Hn.
  destruct (Z.eqb_spec (id r) i) as [<-|Hne]; [naive_solver|].
  apply IH. naive_solver.
Qed.

Lemma rows_with_id_eq i t row : row ∈ rows_with i t -> id row = i.
Proof.
  unfold rows_with. rewrite list_elem_of_In, filter_In.
  intros [_ Heq]. by apply Z.eqb_eq.
Qed.

Lemma rows_with_app i t1 t2 :
  rows_with i (t1 ++ t2) = rows_with i t1 ++ rows_with i t2.
Proof. unfold rows_with. apply List.filter_app. Qed.

Lemma upsert_row_ids new t :
  map id (upsert_row new t) =
  if has_id (id new) t then map id t else map id t ++ [id new].
Proof.
  unfold upsert_row. destruct (has_id (id new) t).
  - rewrite List.map_map. apply List.map_ext. intros old.
    by destruct (Z.eqb (id old) (id new)).
  - by rewrite List.map_app.
Qed.

(** Both statements keep the primary key. *)
Lemma upsert_row_pk new t : pk_unique t -> pk_unique (upsert_row new t).
Proof.
  unfold pk_unique. rewrite upsert_row_ids.
  destruct (has_id (id new) t) eqn:E; [done|].
  intros Hnd. apply NoDup_app. split; [done|]. split.
  - intros x Hx ->%list_elem_of_singleton. by apply has_id_false in E.
  - apply NoDup_singleton.
Qed.

Lemma insert_or_skip_pk new t : pk_unique t -> pk_unique (insert_or_skip new t).
Proof.
  unfold pk_unique, insert_or_skip.
  destruct (has_id (id new) t) eqn:E; [done|].
  intros Hnd. rewrite List.map_app. apply NoDup_app. split; [done|]. split.
  - intros x Hx ->%list_elem_of_singleton. by apply has_id_false in E.
  - apply NoDup_singleton.
Qed.

(** After the upsert the table holds exactly one row with the id: the
    proposed values, under the creation time of the row that was there. *)
Lemma upsert_row_one new t :
  pk_unique t ->
  exists row,
    rows_with (id new) (upsert_row new t) = [row]
    /\ row = match rows_with (id new) t with
             | old :: _ => do_update new old
             | [] => new
             end.
Proof.
  unfold pk_unique, upsert_row. intros Hnd.
  destruct (has_id (id new) t) eqn:E.
  - apply has_id_true in E.
    induction t as [|r t IH]; [by apply elem_of_nil in E|].
    simpl in *. apply NoDup_cons in Hnd as [Hr Hnd].
    destruct (Z.eqb_spec (id r) (id new)) as [Heq|Hne].
    + exists (do_update new r). unfold rows_with at 1. simpl.
      rewrite Heq, Z.eqb_refl. split; [|done]. f_equal.
      fold (rows_with (id new)
              (map (fun old => if Z.eqb (id old) (id new) then do_update new old else old) t)).
      apply rows_with_absent. rewrite List.map_map.
      rewrite (List.map_ext _ id); [by rewrite <- Heq|].
      intros old. by destruct (Z.eqb (id old) (id new)).
    + apply elem_of_cons in E as [E|E]; [congruence|].
      destruct (IH Hnd E) as (row & Hrow & Heq). exists row.
      unfold rows_with in *. simpl.
      destruct (Z.eqb_spec (id r) (id new)); [congruence|]. done.
  - apply has_id_false in E. exists new.
    rewrite rows_with_app, (rows_with_absent _ _ E). unfold rows_with. simpl.
    by rewrite Z.eqb_refl.
Qed.

(** *** POST /api/locations *)

Lemma param_some {A} (conv : JValue -> option A) v a :
  param conv v = Some (Some a) -> conv v = Some a.
Proof.
  unfold param. destruct v; try done; destruct (conv _); naive_solver.
Qed.

(** What the columns of a proposed row come from. *)
Lemma insert_values_fields pg now vid vtype vnote vlat vlng vts vaddr new :
  insert_values pg now vid vtype vnote vlat vlng vts vaddr = Some new ->
  param (bigint_in pg) vid = Some (Some (id new))
  /\ param (to_text pg) vtype = Some (Some (type new))
  /\ param (to_text pg) vnote = Some (Some (note new))
  /\ param (float8_in pg) vlat = Some (Some (latitude new))
  /\ param (float8_in pg) vlng = Some (Some (longitude new))
  /\ param (timestamptz_in pg) vts = Some (Some (timestamp new))
  /\ param (to_text pg) vaddr = Some (address new)
  /\ (type new = "plant" \/ type new = "litter")
  /\ created_at new = now /\ updated_at new = now.
Proof.
  unfold insert_values, convert, proposed_row.
  destruct (param (bigint_in pg) vid) as [[i|]|]; try done;
  destruct (param (to_text pg) vtype) as [[ty|]|]; try done;
  destruct (param (to_text pg) vnote) as [[n|]|]; try done;
  destruct (param (float8_in pg) vlat) as [[la|]|]; try done;
  destruct (param (float8_in pg) vlng) as [[lo|]|]; try done;
  destruct (param (timestamptz_in pg) vts) as [[ts|]|]; try done;
  destruct (param (to_text pg) vaddr) as [ad|]; try done; simpl.
  destruct (_ <=? _)%nat; simpl; [|done].
  destruct (String.eqb_spec ty "plant") as [->|]; simpl;
    [|destruct (String.eqb_spec ty "litter") as [->|]; simpl; [|done]];
    intros [= <-]; simpl; repeat split; auto.
Qed.

(** A 201 response of the handler: the request's fields were read, the
    statement was accepted, and the response shows a row of the table. *)
Lemma create_location_201 pg env now db req :
  status (create_location pg env now db req).1 = 201 ->
  exists vid vtype vnote vlat vlng vts vaddr new row rest,
    get_prop (body req) "id" = Some vid
    /\ get_prop (body req) "note" = Some vnote
    /\ insert_values pg now vid vtype vnote vlat vlng vts (js_or vaddr JNull)
       = Some new
    /\ (create_location pg env now db req).2
       = set_locations (upsert_row new (locations db)) db
    /\ rows_with (id new) (upsert_row new (locations db)) = row :: rest
    /\ json (create_location pg env now db req).1
       = SavedJson "Location saved successfully" (view row)
    /\ get_prop (body req) "type" = Some vtype
    /\ get_prop (body req) "latitude" = Some vlat
    /\ get_prop (body req) "longitude" = Some vlng
    /\ get_prop (body req) "timestamp" = Some vts
    /\ get_prop (body req) "address" = Some vaddr
    /\ (vtype = JStr "plant" \/ vtype = JStr "litter").
Proof.
  unfold create_location, query_upsert.
  destruct (get_prop (body req) "id") as [vid|]; [|done].
  destruct (get_prop (body req) "type") as [vtype|]; [|done].
  destruct (get_prop (body req) "note") as [vnote|]; [|done].
  destruct (get_prop (body req) "latitude") as [vlat|]; [|done].
  destruct (get_prop (body req) "longitude") as [vlng|]; [|done].
  destruct (get_prop (body req) "timestamp") as [vts|]; [|done].
  destruct (get_prop (body req) "address") as [vaddr|]; [|done].
  destruct (_ || _ || _ || _ || _ || _); [done|].
  destruct (_ && _) eqn:Hty; [done|].
  destruct (_ || _); [done|].
  destruct (connected db); simpl; [|done].
  destruct (insert_values _ _ _ _ _ _ _ _ _) as [new|] eqn:Hnew; [|done].
  destruct (rows_with _ _) as [|row rest] eqn:Hrows; [done|]. simpl.
  intros _. exists vid, vtype, vnote, vlat, vlng, vts, vaddr, new, row, rest.
  repeat split; try done.
  destruct vtype as [| | | |s| |]; try done. simpl in Hty.
  destruct (String.eqb_spec s "plant") as [->|_]; [by left|].
  destruct (String.eqb_spec s "litter") as [->|_]; [by right|done].
Qed.

Lemma guarded_201 mw (h : Handler) env now db req :
  (forall resp, mw env req = Some resp -> status resp <> 201) ->
  status (guarded mw h env now db req).1 = 201 ->
  guarded mw h env now db req = h env now db req.
Proof.
  unfold guarded. intros Hmw. destruct (mw env req) as [resp|]; [|done].
  simpl. intros H. by destruct (Hmw resp eq_refl).
Qed.

Lemma authenticate_401 env req resp :
  authenticate env req = Some resp -> status resp = 401.
Proof.
  unfold authenticate. destruct (_ || _); [done|].
  destruct (_ || _); [|done]. by intros [= <-].
Qed.

Lemma POST_api_locations_201 pg env now db req :
  status (POST_api_locations pg env now db req).1 = 201 ->
  POST_api_locations pg env now db req = create_location pg env now db req.
Proof.
  apply guarded_201. intros resp H%authenticate_401. by rewrite H.
Qed.

(** The primary key is an invariant of the service: it holds of the empty
    table and both handlers keep it, whatever they answer. *)
Lemma query_upsert_pk pg now db vid vtype vnote vlat vlng vts vaddr rows db' :
  query_upsert pg now db vid vtype vnote vlat vlng vts vaddr = QRows rows db' ->
  pk_unique (locations db) -> pk_unique (locations db').
Proof.
  unfold query_upsert. destruct (negb (connected db)); [done|].
  destruct (insert_values _ _ _ _ _ _ _ _ _) as [new|]; [|done].
  intros [= _ <-] Hpk. simpl. by apply upsert_row_pk.
Qed.

Lemma query_insert_pk pg now db vid vtype vnote vlat vlng vts vaddr rows db' :
  query_insert pg now db vid vtype vnote vlat vlng vts vaddr = QRows rows db' ->
  pk_unique (locations db) -> pk_unique (locations db').
Proof.
  unfold query_insert. destruct (negb (connected db)); [done|].
  destruct (insert_values _ _ _ _ _ _ _ _ _) as [new|]; [|done].
  intros [= _ <-] Hpk. simpl. by apply insert_or_skip_pk.
Qed.

Lemma create_location_pk pg env now db req :
  pk_unique (locations db) ->
  pk_unique (locations (create_location pg env now db req).2).
Proof.
  intros Hpk. unfold create_location.
  destruct (get_prop (body req) "id") as [vid|]; [|done].
  destruct (get_prop (body req) "type") as [vtype|]; [|done].
  destruct (get_prop (body req) "note") as [vnote|]; [|done].
  destruct (get_prop (body req) "latitude") as [vlat|]; [|done].
  destruct (get_prop (body req) "longitude") as [vlng|]; [|done].
  destruct (get_prop (body req) "timestamp") as [vts|]; [|done].
  destruct (get_prop (body req) "address") as [vaddr|]; [|done].
  destruct (_ || _ || _ || _ || _ || _); [done|].
  destruct (_ && _); [done|].
  destruct (_ || _); [done|].
  destruct (query_upsert _ _ _ _ _ _ _ _ _ _) as [rows db'|] eqn:Hq; [|done].
  pose proof (query_upsert_pk _ _ _ _ _ _ _ _ _ _ _ _ Hq Hpk).
  by destruct rows.
Qed.

Lemma import_loop_pk pg now locs : forall imported failed db,
  pk_unique (locations db) ->
  pk_unique (locations (import_loop pg now locs imported failed db).2).
Proof.
  induction locs as [|loc rest IH]; intros imported failed db Hpk; [done|].
  simpl.
  destruct (get_prop loc "id") as [vid|]; [|done].
  destruct (get_prop loc "type") as [vtype|]; [|done].
  destruct (get_prop loc "note") as [vnote|]; [|done].
  destruct (get_prop loc "lat") as [vlat|]; [|done].
  destruct (get_prop loc "lng") as [vlng|]; [|done].
  destruct (get_prop loc "timestamp") as [vts|]; [|done].
  destruct (get_prop loc "address") as [vaddr|]; [|done].
  destruct (query_insert _ _ _ _ _ _ _ _ _ _) as [rows db'|] eqn:Hq.
  - apply IH. by eapply query_insert_pk.
  - destruct (printable vid); [by apply IH|done].
Qed.

Lemma import_locations_pk pg env now db req :
  pk_unique (locations db) ->
  pk_unique (locations (import_locations pg env now db req).2).
Proof.
  intros Hpk. unfold import_locations.
  destruct (get_prop (body req) "locations") as [[]|]; try done.
  pose proof (import_loop_pk pg now items 0 0 db Hpk) as H.
  by destruct (import_loop pg now items 0 0 db) as [[] db'].
Qed.

(** C7. In a table that keeps its primary key, two successful upserts
    (POST /api/locations answered 201) that carry the same id leave exactly
    one row with that id. The second upsert overwrites every mutable field:
    type, note, latitude, longitude, timestamp and address of the row are
    the values of the second request, as the database reads them (a string
    is stored as it is, so the stored note is the latest note). Its
    updated_at is the time of the second statement, and its created_at is
    the one the row had after the first. *)
Theorem upsert_same_id_one_row pg env1 env2 now1 now2 db req1 req2 :
  pk_unique (locations db) ->
  let out1 := POST_api_locations pg env1 now1 db req1 in
  let out2 := POST_api_locations pg env2 now2 out1.2 req2 in
  status out1.1 = 201 ->
  status out2.1 = 201 ->
  request_id pg req1 = request_id pg req2 ->
  exists i row row1,
    request_id pg req2 = Some i
    /\ rows_with i (locations out2.2) = [row]
    /\ pk_unique (locations out2.2)
    /\ (forall s, get_prop (body req2) "note" = Some (JStr s) -> note row = s)
    /\ updated_at row = now2
    /\ rows_with i (locations out1.2) = [row1]
    /\ created_at row = created_at row1
    /\ json out2.1 = SavedJson "Location saved successfully" (view row)
    /\ id row = i
    /\ get_prop (body req2) "type" = Some (JStr (type row))
    /\ (exists v, get_prop (body req2) "note" = Some v
                  /\ to_text pg v = Some (note row))
    /\ (exists v, get_prop (body req2) "latitude" = Some v
                  /\ float8_in pg v = Some (latitude row))
    /\ (exists v, get_prop (body req2) "longitude" = Some v
                  /\ float8_in pg v = Some (longitude row))
    /\ (exists v, get_prop (body req2) "timestamp" = Some v
                  /\ timestamptz_in pg v = Some (timestamp row))
    /\ (exists v, get_prop (body req2) "address" = Some v
                  /\ param (to_text pg) (js_or v JNull) = Some (address row))
    /\ (forall s, get_prop (body req2) "address" = Some (JStr s) -> s <> "" ->
        address row = Some s).
Proof.
  intros Hpk out1 out2 H1 H2 Hid.
  pose proof (POST_api_locations_201 _ _ _ _ _ H1) as E1.
  pose proof (POST_api_locations_201 _ _ _ _ _ H2) as E2.
  fold out1 in E1. fold out2 in E2. rewrite E1 in H1. rewrite E2 in H2.
  destruct (create_location_201 _ _ _ _ _ H1)
    as (vid1 & ? & vnote1 & ? & ? & ? & ? & new1 & row1 & rest1
        & Gid1 & Gnote1 & Hnew1 & Hdb1 & Hrows1 & Hjson1 & _).
  destruct (create_location_201 _ _ _ _ _ H2)
    as (vid2 & vtype2 & vnote2 & vlat2 & vlng2 & vts2 & vaddr2
        & new2 & row2 & rest2
        & Gid2 & Gnote2 & Hnew2 & Hdb2 & Hrows2 & Hjson2
        & Gtype2 & Glat2 & Glng2 & Gts2 & Gaddr2 & Htype2).
  rewrite <- E1 in Hdb1. rewrite <- E2 in Hdb2, Hjson2. fold out1 in Hdb1.
  destruct (insert_values_fields _ _ _ _ _ _ _ _ _ _ Hnew1) as (Hi1 & _).
  destruct (insert_values_fields _ _ _ _ _ _ _ _ _ _ Hnew2)
    as (Hi2 & Hty2 & Hn2 & Hla2 & Hlo2 & Hts2 & Had2 & _ & _ & Hu2).
  assert (Hr1 : request_id pg req1 = Some (id new1))
    by (unfold request_id; by rewrite Gid1, Hi1).
  assert (Hr2 : request_id pg req2 = Some (id new2))
    by (unfold request_id; by rewrite Gid2, Hi2).
  assert (Hsame : id new1 = id new2) by congruence.
  assert (Hpk1 : pk_unique (locations out1.2)).
  { rewrite Hdb1. simpl. by apply upsert_row_pk. }
  destruct (upsert_row_one new1 (locations db) Hpk) as (r1 & Hone1 & _).
  destruct (upsert_row_one new2 (locations out1.2) Hpk1) as (r2 & Hone2 & Hr2eq).
  assert (Hin1 : rows_with (id new2) (locations out1.2) = [r1]).
  { rewrite Hdb1. simpl. by rewrite <- Hsame. }
  rewrite Hin1 in Hr2eq.
  assert (row2 = r2) by (rewrite Hone2 in Hrows2; congruence). subst row2.
  assert (Hr1id : id r1 = id new2).
  { eapply (rows_with_id_eq (id new2) (locations out1.2)). rewrite Hin1.
    by left. }
  exists (id new2), r2, r1. rewrite Hdb2. simpl.
  rewrite Hr2eq. simpl.
  split; [done|]. split; [by rewrite <- Hr2eq|].
  split; [by apply upsert_row_pk|].
  split.
  { intros s Hs. rewrite Gnote2 in Hs. injection Hs as ->.
    simpl in Hn2. congruence. }
  split; [done|]. split; [done|]. split; [done|].
  split; [by rewrite <- Hr2eq|]. split; [done|].
  split.
  { rewrite Gtype2. f_equal.
    destruct Htype2 as [-> | ->]; simpl in Hty2; congruence. }
  split; [exists vnote2; split; [done|]; by apply param_some|].
  split; [exists vlat2; split; [done|]; by apply param_some|].
  split; [exists vlng2; split; [done|]; by apply param_some|].
  split; [exists vts2; split; [done|]; by apply param_some|].
  split; [by exists vaddr2|].
  intros s Hs Hne. rewrite Gaddr2 in Hs. injection Hs as ->.
  unfold js_or in Had2. simpl in Had2.
  destruct (String.eqb_spec s "") as [->|_]; [done|]. simpl in Had2.
  congruence.
Qed.

(** C7 at the example request, followed by a request with the same id in
    which every other field has changed. *)
Lemma upsert_same_id_one_row_witness :
  let req1 := {| x_api_key := Some "secret"; body := kudzu_body "kudzu" 38.75 |} in
  let req2 := {| x_api_key := Some "secret";
                 body := JObj [("id", JNum 1700000000000); ("type", JStr "litter");
                               ("note", JStr "a bottle, not kudzu");
                               ("latitude", JNum 38.5);
                               ("longitude", JNum (-77.125));
                               ("timestamp", JStr "2023-11-15T08:00:00.000Z");
                               ("address", JStr "Chantilly")] |} in
  let out1 := POST_api_locations pg_js production "t1" empty_db req1 in
  let out2 := POST_api_locations pg_js production "t2" out1.2 req2 in
  exists i row row1,
    request_id pg_js req2 = Some i
    /\ rows_with i (locations out2.2) = [row]
    /\ pk_unique (locations out2.2)
    /\ (forall s, get_prop (body req2) "note" = Some (JStr s) -> note row = s)
    /\ updated_at row = "t2"
    /\ rows_with i (locations out1.2) = [row1]
    /\ created_at row = created_at row1
    /\ json out2.1 = SavedJson "Location saved successfully" (view row)
    /\ id row = i
    /\ get_prop (body req2) "type" = Some (JStr (type row))
    /\ (exists v, get_prop (body req2) "note" = Some v
                  /\ to_text pg_js v = Some (note row))
    /\ (exists v, get_prop (body req2) "latitude" = Some v
                  /\ float8_in pg_js v = Some (latitude row))
    /\ (exists v, get_prop (body req2) "longitude" = Some v
                  /\ float8_in pg_js v = Some (longitude row))
    /\ (exists v, get_prop (body req2) "timestamp" = Some v
                  /\ timestamptz_in pg_js v = Some (timestamp row))
    /\ (exists v, get_prop (body req2) "address" = Some v
                  /\ param (to_text pg_js) (js_or v JNull) = Some (address row))
    /\ (forall s, get_prop (body req2) "address" = Some (JStr s) -> s <> "" ->
        address row = Some s).
Proof.
  apply (upsert_same_id_one_row pg_js production production "t1" "t2" empty_db
           {| x_api_key := Some "secret"; body := kudzu_body "kudzu" 38.75 |}
           {| x_api_key := Some "secret";
              body := JObj [("id", JNum 1700000000000); ("type", JStr "litter");
                            ("note", JStr "a bottle, not kudzu");
                            ("latitude", JNum 38.5);
                            ("longitude", JNum (-77.125));
                            ("timestamp", JStr "2023-11-15T08:00:00.000Z");
                            ("address", JStr "Chantilly")] |}).
  - apply NoDup_nil_2.
  - vm_compute. reflexivity.
  - vm_compute. reflexivity.
  - vm_compute. reflexivity.
Defined.

(** The same two requests, evaluated: one row, every mutable field that of
    the second request, created at the first statement and updated at the
    second. *)
Example upsert_twice_example :
  let req1 := {| x_api_key := Some "secret"; body := kudzu_body "kudzu" 38.75 |} in
  let req2 := {| x_api_key := Some "secret";
                 body := JObj [("id", JNum 1700000000000); ("type", JStr "litter");
                               ("note", JStr "a bottle, not kudzu");
                               ("latitude", JNum 38.5);
                               ("longitude", JNum (-77.125));
                               ("timestamp", JStr "2023-11-15T08:00:00.000Z");
                               ("address", JStr "Chantilly")] |} in
  let out1 := POST_api_locations pg_js production "t1" empty_db req1 in
  let out2 := POST_api_locations pg_js production "t2" out1.2 req2 in
  locations out2.2 =
  [ {| id := 1700000000000; type := "litter"; note := "a bottle, not kudzu";
       latitude := 38.5; longitude := -77.125;
       timestamp := "2023-11-15T08:00:00.000Z"; address := Some "Chantilly";
       created_at := "t1"; updated_at := "t2" |} ].
Proof. vm_compute. reflexivity. Qed.

(** C3 at its failing input: a body whose fields are all present and valid,
    with latitude 0, is answered 400 "Missing required fields" and nothing
    is stored, whatever the driver, the environment and the database are.
    The same holds for longitude 0. *)
Theorem create_location_rejects_zero pg env now db key :
  create_location pg env now db
    {| x_api_key := key; body := kudzu_body "kudzu" 0 |}
  = ({| status := 400; json := ErrorJson "Missing required fields" |}, db)
  /\ create_location pg env now db
       {| x_api_key := key;
          body := JObj [("id", JNum 1700000000000); ("type", JStr "litter");
                        ("note", JStr "bottle"); ("latitude", JNum 38.75);
                        ("longitude", JNum 0);
                        ("timestamp", JStr "2023-11-14T22:13:20.000Z")] |}
     = ({| status := 400; json := ErrorJson "Missing required fields" |}, db).
Proof. split; reflexivity. Qed.

(** The same body with a latitude that is not zero is stored and answered
    201: the rejection above is the falsy test [!latitude], not the body. *)
Example create_location_accepts_nonzero :
  create_location pg_js production "t1" empty_db
    {| x_api_key := None; body := kudzu_body "kudzu" 38.75 |}
  = ({| status := 201;
        json := SavedJson "Location saved successfully"
                  {| v_id := 1700000000000; v_type := "plant"; v_note := "kudzu";
                     v_lat := 38.75; v_lng := -77.25;
                     v_timestamp := "2023-11-14T22:13:20.000Z";
                     v_address := Some "Centreville"; v_synced := true |} |},
     {| connected := true;
        locations :=
          [ {| id := 1700000000000; type := "plant"; note := "kudzu";
               latitude := 38.75; longitude := -77.25;
               timestamp := "2023-11-14T22:13:20.000Z";
               address := Some "Centreville";
               created_at := "t1"; updated_at := "t1" |} ] |}).
Proof. vm_compute. reflexivity. Qed.

(** A body that the falsy tests let through, whose type is plant or litter
    and whose coordinates are numbers, is stored when PostgreSQL accepts the
    statement, and answered 201 with the stored row. *)
Lemma create_location_stores pg env now db req
    vid vtype vnote la lo vts vaddr new :
  get_prop (body req) "id" = Some vid ->
  get_prop (body req) "type" = Some vtype ->
  get_prop (body req) "note" = Some vnote ->
  get_prop (body req) "latitude" = Some (JNum la) ->
  get_prop (body req) "longitude" = Some (JNum lo) ->
  get_prop (body req) "timestamp" = Some vts ->
  get_prop (body req) "address" = Some vaddr ->
  truthy vid = true -> truthy vnote = true -> truthy vts = true ->
  vtype = JStr "plant" \/ vtype = JStr "litter" ->
  truthy (JNum la) = true -> truthy (JNum lo) = true ->
  connected db = true ->
  pk_unique (locations db) ->
  insert_values pg now vid vtype vnote (JNum la) (JNum lo) vts (js_or vaddr JNull)
  = Some new ->
  exists row,
    create_location pg env now db req
    = ({| status := 201;
          json := SavedJson "Location saved successfully" (view row) |},
       set_locations (upsert_row new (locations db)) db)
    /\ rows_with (id new) (upsert_row new (locations db)) = [row]
    /\ note row = note new
    /\ latitude row = latitude new /\ longitude row = longitude new.
Proof.
  intros Gid Gtype Gnote Glat Glng Gts Gaddr Tid Tnote Tts Htype Tla Tlo Hc Hpk Hnew.
  destruct (upsert_row_one new (locations db) Hpk) as (row & Hone & Hrow).
  exists row. unfold create_location, query_upsert.
  rewrite Gid, Gtype, Gnote, Glat, Glng, Gts, Gaddr, Tid, Tnote, Tts, Tla, Tlo, Hc.
  assert (Tty : truthy vtype = true) by (by destruct Htype as [-> | ->]).
  assert (Hty : negb (is_string "plant" vtype) && negb (is_string "litter" vtype) = false)
    by (by destruct Htype as [-> | ->]).
  rewrite Tty, Hty. simpl. rewrite Hnew, Hone. split; [done|]. split; [done|].
  rewrite Hrow. by destruct (rows_with (id new) (locations db)).
Qed.

(** *** GET /api/health *)

(** C9. The response of GET /api/health is the same whatever the
    X-API-Key header and whatever API_KEY and NODE_ENV are, and it is never
    401. *)
Theorem health_ignores_authentication env1 env2 key1 key2 now db b :
  GET_api_health env1 now db {| x_api_key := key1; body := b |}
  = GET_api_health env2 now db {| x_api_key := key2; body := b |}
  /\ status (GET_api_health env1 now db {| x_api_key := key1; body := b |}).1
     <> 401.
Proof. unfold GET_api_health. by destruct (connected db). Qed.

(** By contrast a route registered with [authenticate] answers 401 when a
    key is configured outside development and the header does not carry
    it. *)
Lemma guarded_route_unauthorized pg now db b key :
  key <> Some "secret" ->
  POST_api_locations pg production now db {| x_api_key := key; body := b |}
  = ({| status := 401; json := ErrorJson "Unauthorized" |}, db).
Proof.
  intros Hk. unfold POST_api_locations, guarded, authenticate. simpl.
  destruct key as [k|]; simpl; [|done].
  destruct (String.eqb_spec k "") as [->|]; simpl; [done|].
  destruct (String.eqb_spec k "secret") as [->|]; simpl; done.
Qed.

(** *** POST /api/import *)

Lemma insert_or_skip_present new t :
  has_id (id new) t = true -> insert_or_skip new t = t.
Proof. unfold insert_or_skip. by intros ->. Qed.

(** One turn of the loop on a location whose statement is accepted and
    whose id is in the table: counted as imported, nothing inserted. *)
Lemma import_loop_skip pg now loc rest imported failed db new :
  connected db = true ->
  import_row pg now loc = Some new ->
  has_id (id new) (locations db) = true ->
  import_loop pg now (loc :: rest) imported failed db
  = import_loop pg now rest (S imported) failed db.
Proof.
  intros Hc Hrow Hid. simpl. unfold import_row in Hrow.
  destruct (get_prop loc "id") as [vid|]; [|done].
  destruct (get_prop loc "type") as [vtype|]; [|done].
  destruct (get_prop loc "note") as [vnote|]; [|done].
  destruct (get_prop loc "lat") as [vlat|]; [|done].
  destruct (get_prop loc "lng") as [vlng|]; [|done].
  destruct (get_prop loc "timestamp") as [vts|]; [|done].
  destruct (get_prop loc "address") as [vaddr|]; [|done].
  unfold query_insert. rewrite Hc, Hrow. simpl.
  rewrite (insert_or_skip_present _ _ Hid). by destruct db.
Qed.

Lemma import_loop_all_skipped pg now locs : forall imported failed db,
  connected db = true ->
  Forall (fun loc => exists new, import_row pg now loc = Some new
                                 /\ has_id (id new) (locations db) = true) locs ->
  import_loop pg now locs imported failed db
  = (Counted (imported + length locs) failed, db).
Proof.
  induction locs as [|loc rest IH]; intros imported failed db Hc Hall; simpl.
  - by rewrite Nat.add_0_r.
  - apply Forall_cons in Hall as [(new & Hrow & Hid) Hall].
    pose proof (import_loop_skip pg now loc rest imported failed db new Hc Hrow Hid) as E.
    simpl in E. rewrite E, IH by done. do 2 f_equal. lia.
Qed.

(** C10 (amended). When the database is reachable and every location of the
    batch is one whose statement PostgreSQL accepts (the values convert to
    the column types and pass the NOT NULL and CHECK constraints) and whose
    id is already in the table, POST /api/import answers imported = total
    and failed = 0 although no row was inserted and no row changed: the
    count is of statements that ran without an error. *)
Theorem import_counts_skipped_rows pg env now db req locs :
  connected db = true ->
  get_prop (body req) "locations" = Some (JArr locs) ->
  Forall (fun loc => exists new, import_row pg now loc = Some new
                                 /\ has_id (id new) (locations db) = true) locs ->
  import_locations pg env now db req
  = ({| status := 200;
        json := ImportJson "Import completed" (length locs) 0 (length locs) |},
     db).
Proof.
  intros Hc Hbody Hall. unfold import_locations. rewrite Hbody.
  by rewrite (import_loop_all_skipped pg now locs 0 0 db Hc Hall).
Qed.

(** C10 (amended) at a batch of two locations that carry the id of the
    stored record. *)
Lemma import_counts_skipped_rows_witness :
  import_locations pg_js production "t2" kudzu_db
    {| x_api_key := Some "secret";
       body := JObj [("locations", JArr [import_loc "plant" (JNum 38.75);
                                         import_loc "litter" (JNum 40)])] |}
  = ({| status := 200; json := ImportJson "Import completed" 2 0 2 |}, kudzu_db).
Proof.
  apply (import_counts_skipped_rows pg_js production "t2" kudzu_db
           {| x_api_key := Some "secret";
              body := JObj [("locations", JArr [import_loc "plant" (JNum 38.75);
                                                import_loc "litter" (JNum 40)])] |}
           [import_loc "plant" (JNum 38.75); import_loc "litter" (JNum 40)]).
  - reflexivity.
  - reflexivity.
  - repeat constructor; eexists; split; vm_compute; reflexivity.
Defined.

(** C10, as stated, fails for a location whose id is in the table but whose
    statement PostgreSQL rejects: a latitude that is not a number, or a type
    outside plant and litter. It is counted as failed, not as imported. *)
Lemma import_counts_rejected_row_as_failed :
  let batch loc := {| x_api_key := Some "secret";
                      body := JObj [("locations", JArr [loc])] |} in
  has_id 1700000000000 (locations kudzu_db) = true
  /\ import_locations pg_js production "t2" kudzu_db
       (batch (import_loc "plant" (JStr "north")))
     = ({| status := 200; json := ImportJson "Import completed" 0 1 1 |}, kudzu_db)
  /\ import_locations pg_js production "t2" kudzu_db
       (batch (import_loc "weed" (JNum 38.75)))
     = ({| status := 200; json := ImportJson "Import completed" 0 1 1 |}, kudzu_db).
Proof. vm_compute. repeat split. Qed.

(** A batch with a new id is inserted, and a null location ends the request
    with 500 after the rows before it were inserted. *)
Example import_examples :
  let fresh := JObj [("id", JNum 1700000060000); ("type", JStr "litter");
                     ("note", JStr "bottle"); ("lat", JNum 38.5);
                     ("lng", JNum (-77.125));
                     ("timestamp", JStr "2023-11-14T22:14:20.000Z")] in
  let batch locs := {| x_api_key := None; body := JObj [("locations", JArr locs)] |} in
  let out1 := import_locations pg_js production "t2" kudzu_db (batch [fresh]) in
  let out2 := import_locations pg_js production "t2" kudzu_db (batch [fresh; JNull]) in
  out1.1 = {| status := 200; json := ImportJson "Import completed" 1 0 1 |}
  /\ length (locations out1.2) = 2
  /\ out2.1 = {| status := 500; json := ErrorJson "Failed to import data" |}
  /\ length (locations out2.2) = 2.
Proof. vm_compute. repeat split. Qed.

End ServerProofs.

(** ** Properties of the rest of the client *)

Module ClientMoreProofs.
Import Js Client ClientMore ClientProofs.

(** *** The store as a list of records *)

Lemma stringify_records st refs :
  locations st = LArray refs ->
  stringify_locations st = JsonRecords (json_record <$> records st).
Proof. unfold stringify_locations, records. by intros ->. Qed.

Lemma json_number_fixed x : json_number (json_number x) = json_number x.
Proof.
  unfold json_number. destruct (PrimFloat.is_finite x) eqn:Hf; [|done].
  destruct (PrimFloat.is_zero x) eqn:Hz; [done|]. by rewrite Hf, Hz.
Qed.

(** A record whose coordinates JSON writes as they are: finite and not
    -0. *)
Lemma json_record_same l :
  json_number (loc_lat l) = loc_lat l ->
  json_number (loc_lng l) = loc_lng l ->
  json_record l = l.
Proof. destruct l. unfold json_record. simpl. by intros -> ->. Qed.

Lemma omap_lookup_ext (h h' : list Location) (refs : list nat) :
  (forall a, a ∈ refs -> h' !! a = h !! a) ->
  omap (fun a => h' !! a) refs = omap (fun a => h !! a) refs.
Proof.
  induction refs as [|a refs IH]; intros H; csimpl; [done|].
  rewrite H by left. rewrite IH; [done|]. intros b Hb. apply H. by right.
Qed.

Lemma omap_lookup_app (h more : list Location) (refs : list nat) :
  refs_valid h refs ->
  omap (fun a => (h ++ more) !! a) refs = omap (fun a => h !! a) refs.
Proof.
  intros Hv. apply omap_lookup_ext. intros a Ha.
  unfold refs_valid in Hv. rewrite Forall_forall in Hv.
  destruct (Hv a Ha) as [l Hl]. rewrite Hl. by apply lookup_app_l_Some.
Qed.

Lemma omap_lookup_seq (h ls : list Location) :
  omap (fun a => (h ++ ls) !! a) (seq (length h) (length ls)) = ls.
Proof.
  revert h. induction ls as [|l ls IH]; intros h; csimpl; [done|].
  rewrite lookup_app_r by lia. rewrite Nat.sub_diag. csimpl.
  specialize (IH (h ++ [l])). rewrite length_app in IH. simpl in IH.
  rewrite Nat.add_1_r, <- app_assoc in IH. simpl in IH. by rewrite IH.
Qed.

Lemma refs_valid_app h more refs :
  refs_valid h refs -> refs_valid (h ++ more) refs.
Proof.
  unfold refs_valid. intros H. eapply Forall_impl; [exact H|].
  intros a [l Hl]. exists l. by apply lookup_app_l_Some.
Qed.

Lemma refs_valid_seq (h ls : list Location) :
  refs_valid (h ++ ls) (seq (length h) (length ls)).
Proof.
  unfold refs_valid. apply Forall_forall. intros a Ha.
  apply elem_of_seq in Ha. apply lookup_lt_is_Some. rewrite length_app. lia.
Qed.

(** *** Steps *)

Lemma addMarker_run a st l :
  heap st !! a = Some l ->
  addMarker a st = (Ret tt, set_markers ({[loc_id l]} ∪ markers st) st).
Proof.
  intros Hl. unfold addMarker. by rewrite (bind_run _ _ _ _ _ (read_ok _ _ _ Hl)).
Qed.

Lemma forEach_addMarker_run refs : forall st,
  refs_valid (heap st) refs ->
  forEach_addMarker refs st =
  (Ret tt,
   set_markers (list_to_set (loc_id <$> omap (fun a => heap st !! a) refs)
                ∪ markers st) st).
Proof.
  induction refs as [|a refs IH]; intros st Hv.
  - simpl. unfold ret, set_markers. f_equal. destruct st; simpl. f_equal.
    set_solver.
  - apply Forall_cons in Hv as [[l Hl] Hv]. simpl.
    rewrite (bind_run _ _ _ _ _ (addMarker_run a st l Hl)).
    rewrite IH by done. simpl. rewrite Hl. csimpl. f_equal.
    unfold set_markers. simpl. f_equal. set_solver.
Qed.

(** *** The debug log *)

(** X17. The debug log never grows beyond 100 entries: after a call of
    [log] it holds the new entry last, and before it the most recent
    entries it held, dropped from the oldest end only. *)
Theorem log_keeps_newest_100 message type st :
  let entries := debugLog (log message type st).2 in
  length entries = Nat.min (S (length (debugLog st))) 100
  /\ last entries = Some (message, type)
  /\ entries `suffix_of` debugLog st ++ [(message, type)].
Proof.
  simpl. split; [|split].
  - rewrite length_drop, length_app. simpl. lia.
  - apply last_keep_100.
  - apply suffix_drop.
Qed.

(** *** The local store *)

Lemma alloc_records_run ls st :
  alloc_records ls st
  = (Ret (seq (length (heap st)) (length ls)), set_heap (heap st ++ ls) st).
Proof. reflexivity. Qed.

Lemma loadStoredLocations_run st ls :
  tracker_locations st = JsonRecords ls ->
  exists st',
    loadStoredLocations st = (Ret tt, st')
    /\ heap st' = heap st ++ ls
    /\ locations st' = LArray (seq (length (heap st)) (length ls))
    /\ markers st' = list_to_set (loc_id <$> ls) ∪ markers st
    /\ console_errors st' = console_errors st
    /\ exchanges st' = exchanges st
    /\ tracker_locations st' = tracker_locations st.
Proof.
  intros Hitem. unfold loadStoredLocations, try_catch.
  rewrite (bind_run get _ st st st eq_refl). rewrite Hitem.
  rewrite (bind_run _ _ _ _ _ (alloc_records_run ls st)).
  js_step.
  erewrite bind_run; [|apply forEach_addMarker_run; simpl; apply refs_valid_seq].
  simpl. rewrite omap_lookup_seq.
  erewrite bind_run; [|eapply updateStats_array; reflexivity].
  erewrite bind_run; [|eapply updateLocationList_array; reflexivity].
  cbv [log modify]. simpl.
  eexists. split; [reflexivity|]. simpl. by repeat split.
Qed.

(** X18. What [saveToLocalStorage] writes, [loadStoredLocations] reads
    back: for a store that is an array of records with finite coordinates
    and a localStorage that accepts the write, a page whose item
    'tracker_locations' is the one written loads without an exception the
    records that were saved, in their order, each as JSON carries it: id,
    type, note, timestamp, address and [synced] flag as they were, and the
    coordinates as they were except that -0 comes back as 0. It puts a
    marker under each id. *)
Theorem save_then_load st refs page :
  locations st = LArray refs ->
  Forall finite_coordinates (records st) ->
  storage_writable st = true ->
  tracker_locations page = tracker_locations (saveToLocalStorage st).2 ->
  (loadStoredLocations page).1 = Ret tt
  /\ records (loadStoredLocations page).2 = json_record <$> records st
  /\ Forall2 (fun saved loaded =>
               loc_id loaded = loc_id saved
               /\ loc_type loaded = loc_type saved
               /\ loc_note loaded = loc_note saved
               /\ loc_timestamp loaded = loc_timestamp saved
               /\ loc_address loaded = loc_address saved
               /\ loc_synced loaded = loc_synced saved
               /\ (PrimFloat.is_zero (loc_lat saved) = false ->
                   loc_lat loaded = loc_lat saved)
               /\ (PrimFloat.is_zero (loc_lng saved) = false ->
                   loc_lng loaded = loc_lng saved)
               /\ (PrimFloat.is_zero (loc_lat saved) = true ->
                   loc_lat loaded = 0%float)
               /\ (PrimFloat.is_zero (loc_lng saved) = true ->
                   loc_lng loaded = 0%float))
            (records st) (records (loadStoredLocations page).2)
  /\ markers (loadStoredLocations page).2
     = list_to_set (loc_id <$> records st) ∪ markers page
  /\ console_errors (loadStoredLocations page).2 = console_errors page.
Proof.
  intros Hloc Hfin Hw Hitem.
  rewrite saveToLocalStorage_run in Hitem. unfold saved in Hitem.
  rewrite Hw in Hitem. simpl in Hitem.
  rewrite (stringify_records st refs Hloc) in Hitem.
  destruct (loadStoredLocations_run page (json_record <$> records st) Hitem)
    as (st' & -> & Hheap & Hlocs & Hmarkers & Herr & _).
  simpl.
  assert (Hrec : records st' = json_record <$> records st).
  { unfold records at 1. rewrite Hlocs, Hheap, length_fmap.
    rewrite <- (length_fmap json_record (records st)).
    by rewrite omap_lookup_seq. }
  split; [done|]. split; [done|]. split.
  { rewrite Hrec. apply Forall2_fmap_r, Forall_Forall2_diag.
    eapply Forall_impl; [exact Hfin|]. intros l [Hla Hlo]. unfold compose.
    simpl. unfold json_number. rewrite Hla, Hlo.
    repeat split; try done; by intros ->. }
  split; [|done].
  rewrite Hmarkers. f_equal. f_equal. rewrite <- list_fmap_compose.
  by apply list_fmap_ext.
Qed.

(** X18 for a store of two records, reloaded in a fresh page. *)
Lemma save_then_load_witness :
  let st := page [kudzu; set_synced true bottle] false (net_status 200) in
  let fresh := initial "http://localhost:3000"
                 (tracker_locations (saveToLocalStorage st).2) true
                 (net_status 200) 0 in
  (loadStoredLocations fresh).1 = Ret tt
  /\ records (loadStoredLocations fresh).2
     = json_record <$> [kudzu; set_synced true bottle].
Proof.
  assert (Hfin : Forall finite_coordinates [kudzu; set_synced true bottle])
    by (repeat constructor).
  pose proof (save_then_load
                (page [kudzu; set_synced true bottle] false (net_status 200))
                [0; 1]
                (initial "http://localhost:3000"
                   (tracker_locations
                      (saveToLocalStorage
                         (page [kudzu; set_synced true bottle] false
                            (net_status 200))).2) true (net_status 200) 0)
                eq_refl Hfin eq_refl eq_refl) as H.
  exact (conj (proj1 H) (proj1 (proj2 H))).
Defined.

(** The two records of that store come back exactly as they were. *)
Example save_then_load_example :
  let st := page [kudzu; set_synced true bottle] false (net_status 200) in
  let fresh := initial "http://localhost:3000"
                 (tracker_locations (saveToLocalStorage st).2) true
                 (net_status 200) 0 in
  records (loadStoredLocations fresh).2 = [kudzu; set_synced true bottle].
Proof. vm_compute. reflexivity. Qed.

(** *** Adding and removing by hand *)

Lemma push_run a st refs :
  locations st = LArray refs ->
  push a st = (Ret tt, set_locations (LArray (refs ++ [a])) st).
Proof.
  intros Hloc. unfold push.
  by rewrite (bind_run _ _ _ _ _ (locations_array_ok _ _ _ Hloc)).
Qed.

Lemma saved_locations st : locations (saved st) = locations st.
Proof. unfold saved. by destruct (storage_writable st). Qed.

Lemma saved_heap st : heap (saved st) = heap st.
Proof. unfold saved. by destruct (storage_writable st). Qed.

Lemma addManualLocation_run rt lat lng type note st refs :
  locations st = LArray refs ->
  let new := {| loc_id := clock st;
                loc_type := or_default "plant" type;
                loc_note := or_default "Manual test entry" note;
                loc_lat := parseFloat rt (coordinate_value lat);
                loc_lng := parseFloat rt (coordinate_value lng);
                loc_timestamp := toISOString rt (clock st);
                loc_address := "Manually added";
                loc_synced := false |} in
  exists st',
    addManualLocation rt lat lng type note st = (Ret tt, st')
    /\ heap st' = heap st ++ [new]
    /\ locations st' = LArray (refs ++ [length (heap st)])
    /\ markers st' = {[clock st]} ∪ markers st
    /\ exchanges st' = exchanges st
    /\ config st' = config st
    /\ network st' = network st
    /\ storage_writable st' = storage_writable st
    /\ tracker_locations st' =
       (if storage_writable st
        then JsonRecords (json_record <$>
                            omap (fun a => (heap st ++ [new]) !! a)
                                 (refs ++ [length (heap st)]))
        else tracker_locations st).
Proof.
  intros Hloc new. unfold addManualLocation.
  rewrite (bind_run get _ st st st eq_refl). fold new.
  erewrite bind_run; [|reflexivity].
  erewrite bind_run; [|by apply push_run].
  erewrite bind_run; [|apply saveToLocalStorage_run].
  erewrite bind_run.
  2:{ apply (addMarker_run _ _ new). rewrite saved_heap. simpl.
      by rewrite list_lookup_middle. }
  erewrite bind_run;
    [|eapply updateStats_array; simpl; by rewrite saved_locations].
  erewrite bind_run;
    [|eapply updateLocationList_array; simpl; by rewrite saved_locations].
  cbv [bind showToast log modify]. simpl.
  eexists. split; [reflexivity|]. simpl.
  rewrite saved_heap, saved_locations. unfold saved. simpl.
  destruct (storage_writable st) eqn:Hw; simpl; rewrite ?Hw; by repeat split.
Qed.

(** X19. [addManualLocation], called with coordinates that [parseFloat]
    reads as finite numbers on a store that is an array, appends exactly one
    record and changes no other: the new record is pending (synced =
    false), has the clock's value as its id and the defaults 'plant' and
    'Manual test entry' where type or note is left out; it gets a marker,
    and the store is written to localStorage, each record as JSON carries
    it, when localStorage accepts the write; no request is sent to the
    service. *)
Theorem addManualLocation_appends rt lat lng type note st refs :
  locations st = LArray refs ->
  refs_valid (heap st) refs ->
  let new := {| loc_id := clock st;
                loc_type := or_default "plant" type;
                loc_note := or_default "Manual test entry" note;
                loc_lat := parseFloat rt (coordinate_value lat);
                loc_lng := parseFloat rt (coordinate_value lng);
                loc_timestamp := toISOString rt (clock st);
                loc_address := "Manually added";
                loc_synced := false |} in
  finite_coordinates new ->
  exists st',
    addManualLocation rt lat lng type note st = (Ret tt, st')
    /\ records st' = records st ++ [new]
    /\ markers st' = {[clock st]} ∪ markers st
    /\ exchanges st' = exchanges st
    /\ (storage_writable st = true ->
        tracker_locations st'
        = JsonRecords (json_record <$> (records st ++ [new])))
    /\ (storage_writable st = false ->
        tracker_locations st' = tracker_locations st).
Proof.
  intros Hloc Hv new _.
  destruct (addManualLocation_run rt lat lng type note st refs Hloc)
    as (st' & Hrun & Hheap & Hlocs & Hmarkers & Hex & _ & _ & _ & Hitem).
  fold new in Hheap, Hitem.
  assert (omap (fun a => (heap st ++ [new]) !! a) (refs ++ [length (heap st)])
          = records st ++ [new]) as Hrec.
  { rewrite omap_app, omap_lookup_app by done. unfold records. rewrite Hloc.
    f_equal. csimpl. by rewrite list_lookup_middle. }
  exists st'. split; [done|]. split.
  { unfold records at 1. by rewrite Hlocs, Hheap. }
  split; [done|]. split; [done|].
  rewrite Hitem, Hrec. split; by intros ->.
Qed.

(** X19 for the example store, with type and note left out. *)
Lemma addManualLocation_appends_witness :
  exists st',
    addManualLocation rt_numbers (CNum 38.5) (CNum (-77.125)) None None
      (page [kudzu] false net_down) = (Ret tt, st')
    /\ records st'
       = [kudzu;
          {| loc_id := 0; loc_type := "plant"; loc_note := "Manual test entry";
             loc_lat := 38.5; loc_lng := -77.125;
             loc_timestamp := "1970-01-01T00:00:00.000Z";
             loc_address := "Manually added"; loc_synced := false |}]
    /\ exchanges st' = [].
Proof.
  destruct (addManualLocation_appends rt_numbers (CNum 38.5) (CNum (-77.125))
              None None (page [kudzu] false net_down) [0] eq_refl)
    as (st' & Hrun & Hrec & _ & Hex & _).
  { apply Forall_singleton. by exists kudzu. }
  { by split. }
  exists st'. split; [exact Hrun|]. split; [exact Hrec|exact Hex].
Defined.

Lemma filter_refs_app p h refs1 refs2 :
  filter_refs p h (refs1 ++ refs2) = filter_refs p h refs1 ++ filter_refs p h refs2.
Proof. unfold filter_refs. apply List.filter_app. Qed.

Lemma filter_refs_ext p h h' refs :
  (forall a, a ∈ refs -> h' !! a = h !! a) ->
  filter_refs p h' refs = filter_refs p h refs.
Proof.
  intros H. unfold filter_refs. apply List.filter_ext_in.
  intros a Ha%list_elem_of_In. by rewrite H.
Qed.

Lemma filter_refs_all p h refs :
  (forall a l, a ∈ refs -> h !! a = Some l -> p l = true) ->
  refs_valid h refs ->
  filter_refs p h refs = refs.
Proof.
  intros Hp Hv. induction refs as [|a refs IH]; [done|].
  apply Forall_cons in Hv as [[l Hl] Hv]. rewrite filter_refs_cons, Hl.
  rewrite (Hp a l); [|by left|done]. rewrite IH; [done| |done].
  intros b lb Hb. apply Hp. by right.
Qed.

Lemma filter_refs_none p h refs :
  (forall a l, a ∈ refs -> h !! a = Some l -> p l = false) ->
  filter_refs p h refs = [].
Proof.
  intros Hp. induction refs as [|a refs IH]; [done|].
  rewrite filter_refs_cons. rewrite IH by (intros b lb Hb; apply Hp; by right).
  destruct (h !! a) as [l|] eqn:Hl; [|done]. by rewrite (Hp a l); [|left|].
Qed.

Lemma records_elem st refs a l :
  locations st = LArray refs -> a ∈ refs -> heap st !! a = Some l ->
  l ∈ records st.
Proof.
  intros Hloc Ha Hl. unfold records. rewrite Hloc.
  apply list_elem_of_omap. by exists a.
Qed.

(** X20. Deleting what was just added by hand restores the store: if no
    record has the clock's value as its id, [addManualLocation] followed by
    [deleteLocation] of that id (the dialog confirmed) leaves the array with
    the references and the records it had, and neither call sends a
    request. *)
Theorem add_then_delete rt lat lng type note st refs :
  locations st = LArray refs ->
  refs_valid (heap st) refs ->
  Forall (fun l => loc_id l <> clock st) (records st) ->
  exists st1 st2,
    addManualLocation rt lat lng type note st = (Ret tt, st1)
    /\ deleteLocation true (clock st) st1 = (Ret tt, st2)
    /\ locations st2 = LArray refs
    /\ records st2 = records st
    /\ exchanges st2 = exchanges st.
Proof.
  intros Hloc Hv Hfresh.
  destruct (addManualLocation_run rt lat lng type note st refs Hloc)
    as (st1 & Hrun & Hheap & Hlocs & _ & Hex & _ & _ & _ & _).
  set (new := {| loc_id := clock st |}) in Hheap.
  destruct (deleteLocation_spec st1 _ (clock st) Hlocs)
    as (st2 & Hdel & Hheap2 & _ & Hlocs2 & Hex2 & _).
  assert (Hold : forall a l, a ∈ refs -> heap st1 !! a = Some l ->
                             loc_id l <> clock st).
  { intros a l Ha Hl. rewrite Forall_forall in Hfresh. apply Hfresh.
    apply (records_elem st refs a); [done..|].
    unfold refs_valid in Hv. rewrite Forall_forall in Hv.
    destruct (Hv a Ha) as [l' Hl']. rewrite Hheap in Hl.
    rewrite (lookup_app_l_Some _ _ _ _ Hl') in Hl. congruence. }
  assert (Hnew : heap st1 !! length (heap st) = Some new)
    by (by rewrite Hheap, list_lookup_middle).
  assert (Hfound :
    filter_refs (fun l => Z.eqb (loc_id l) (clock st)) (heap st1)
      (refs ++ [length (heap st)]) = [length (heap st)]).
  { rewrite filter_refs_app, filter_refs_none.
    - rewrite filter_refs_cons, Hnew. simpl. by rewrite Z.eqb_refl.
    - intros a l Ha Hl. apply Z.eqb_neq. by eapply Hold. }
  assert (Hkept :
    filter_refs (fun l => negb (Z.eqb (loc_id l) (clock st))) (heap st1)
      (refs ++ [length (heap st)]) = refs).
  { rewrite filter_refs_app, filter_refs_all.
    - rewrite filter_refs_cons, Hnew. simpl. rewrite Z.eqb_refl. simpl.
      by rewrite app_nil_r.
    - intros a l Ha Hl. apply negb_true_iff, Z.eqb_neq. by eapply Hold.
    - rewrite Hheap. by apply refs_valid_app. }
  rewrite Hfound in Hex2. simpl in Hex2. rewrite Hnew in Hex2. simpl in Hex2.
  rewrite Hkept in Hlocs2.
  exists st1, st2. split; [done|]. split; [done|]. split; [done|].
  split.
  - unfold records. rewrite Hlocs2, Hloc, Hheap2, Hheap.
    by apply omap_lookup_app.
  - by rewrite Hex2, app_nil_r.
Qed.

(** X20 for the example store. *)
Lemma add_then_delete_witness :
  exists st1 st2,
    addManualLocation rt_numbers (CNum 38.5) (CNum (-77.125)) None None
      (page [kudzu] false net_down) = (Ret tt, st1)
    /\ deleteLocation true 0 st1 = (Ret tt, st2)
    /\ locations st2 = LArray [0]
    /\ records st2 = [kudzu]
    /\ exchanges st2 = [].
Proof.
  apply (add_then_delete rt_numbers (CNum 38.5) (CNum (-77.125)) None None
           (page [kudzu] false net_down) [0] eq_refl).
  - apply Forall_singleton. by exists kudzu.
  - apply Forall_singleton. done.
Defined.

(** X21. Asking to delete an id that no record has removes nothing: the
    array keeps its references and no request is sent. *)
Theorem deleteLocation_unknown_id st refs id :
  locations st = LArray refs ->
  refs_valid (heap st) refs ->
  Forall (fun l => loc_id l <> id) (records st) ->
  exists st',
    deleteLocation true id st = (Ret tt, st')
    /\ locations st' = LArray refs
    /\ heap st' = heap st
    /\ exchanges st' = exchanges st.
Proof.
  intros Hloc Hv Hfresh.
  destruct (deleteLocation_spec st refs id Hloc)
    as (st' & Hdel & Hheap & _ & Hlocs & Hex & _).
  assert (Hold : forall a l, a ∈ refs -> heap st !! a = Some l -> loc_id l <> id).
  { intros a l Ha Hl. rewrite Forall_forall in Hfresh. apply Hfresh.
    by apply (records_elem st refs a). }
  rewrite filter_refs_none in Hex
    by (intros a l Ha Hl; apply Z.eqb_neq; by eapply Hold).
  rewrite filter_refs_all in Hlocs;
    [|intros a l Ha Hl; apply negb_true_iff, Z.eqb_neq; by eapply Hold|done].
  simpl in Hex. rewrite app_nil_r in Hex. by exists st'.
Qed.

(** X21 for the example store. *)
Lemma deleteLocation_unknown_id_witness :
  exists st',
    deleteLocation true 42 (page [kudzu] false net_down) = (Ret tt, st')
    /\ locations st' = LArray [0]
    /\ heap st' = [kudzu]
    /\ exchanges st' = [].
Proof.
  apply (deleteLocation_unknown_id (page [kudzu] false net_down) [0] 42 eq_refl).
  - apply Forall_singleton. by exists kudzu.
  - apply Forall_singleton. done.
Defined.

(** X22. [clearAllData], once the dialog is confirmed, empties the store
    whatever it held, a value that is not an array included: it returns
    normally, the array and the markers are empty, the empty array is
    written to localStorage when localStorage accepts the write, and no
    request is sent, so the copies on the service stay. Declined, it
    changes nothing. *)
Theorem clearAllData_empties st :
  clearAllData false st = (Ret tt, st)
  /\ exists st',
       clearAllData true st = (Ret tt, st')
       /\ locations st' = LArray []
       /\ records st' = []
       /\ markers st' = ∅
       /\ exchanges st' = exchanges st
       /\ tracker_locations st' =
          (if storage_writable st then JsonRecords [] else tracker_locations st)
       /\ last (toasts st') = Some ("All data cleared", "success").
Proof.
  split; [done|]. unfold clearAllData. simpl.
  do 2 (erewrite bind_run; [|reflexivity]).
  erewrite bind_run; [|apply saveToLocalStorage_run].
  erewrite bind_run;
    [|eapply updateStats_array; by rewrite saved_locations].
  erewrite bind_run;
    [|eapply updateLocationList_array; by rewrite saved_locations].
  cbv [bind showToast log modify]. simpl.
  eexists. split; [reflexivity|]. simpl. unfold records. simpl.
  rewrite saved_locations. unfold saved. simpl.
  destruct (storage_writable st) eqn:Hw; simpl; rewrite ?last_snoc;
    by repeat split.
Qed.

(** *** The connection test *)

(** X23. [testConnection] never throws, sends exactly one GET to
    /api/health of the server and key it was given, and touches no record.
    It leaves the offline-mode flag cleared and the indicator on online
    exactly when the response is 2xx and its body is JSON other than null
    whose version can be printed in the status line; on a rejected fetch, on
    a response that is not 2xx, on an unreadable body and on a version that
    has no conversion to a string it sets the flag and shows offline. *)
Theorem testConnection_result serverUrl apiKey data st :
  let req := {| req_method := GET; req_url := serverUrl +:+ "/api/health";
                req_api_key := apiKey; req_body := None |} in
  let r := network st (exchanges st) req in
  let good := result_ok r && body_ok data in
  exists st',
    testConnection serverUrl apiKey data st = (Ret tt, st')
    /\ exchanges st' = exchanges st ++ [(req, r)]
    /\ heap st' = heap st
    /\ locations st' = locations st
    /\ tracker_locations st' = tracker_locations st
    /\ Client.serverUrl (config st') = serverUrl
    /\ Client.apiKey (config st') = apiKey
    /\ offlineMode (config st') = negb good
    /\ syncIndicator st' = Some (if good then Online else Offline).
Proof.
  intros req r good. subst good. unfold testConnection, saveConfig, body_ok.
  cbv [bind try_catch get modify fetch ret throw console_error
       updateSyncIndicator log]. simpl.
  fold req.
  destruct (storage_writable st); simpl; fold r;
    (destruct r as [msg|status]; simpl;
     [|destruct (response_ok status); simpl;
       [destruct data as [d|]; simpl;
        [destruct (get_prop d "version") as [version|] eqn:Hd; simpl;
         [destruct (printable (js_or version (JStr "1.0"))); simpl|]|]|]]);
    (eexists; split; [reflexivity|]); simpl; by repeat split.
Qed.

(** A 2xx answer whose version cannot be printed ends in offline mode. *)
Example testConnection_unprintable_version :
  let data := JObj [("version", JObj [("toString", JNum 1)])] in
  let r := testConnection "http://localhost:3000" "secret" (Some data)
             (page [kudzu] false (net_status 200)) in
  r.1 = Ret tt
  /\ map snd (exchanges r.2) = [Responded 200]
  /\ offlineMode (config r.2) = true
  /\ syncIndicator r.2 = Some Offline.
Proof. vm_compute. repeat split. Qed.

(** *** The timer *)

(** X24. A tick of the auto-sync timer does nothing at all when no record
    is pending, when a sync is in flight, or when the offline-mode flag is
    set: the state is left as it was and no request is sent, so in offline
    mode pending records wait for a manual sync. *)
Theorem autoSyncTick_idle st refs :
  locations st = LArray refs ->
  pending (heap st) refs = []
  \/ isSyncing (syncState st) = true
  \/ offlineMode (config st) = true ->
  autoSyncTick st = (Ret tt, st).
Proof.
  intros Hloc H. rewrite (autoSyncTick_spec st refs Hloc).
  destruct H as [->|[->| ->]]; simpl; [done| |];
    by rewrite ?andb_false_r.
Qed.

(** X24 for a page in offline mode with a pending record. *)
Lemma autoSyncTick_idle_witness :
  autoSyncTick (page [kudzu] true (net_status 201))
  = (Ret tt, page [kudzu] true (net_status 201)).
Proof.
  apply (autoSyncTick_idle (page [kudzu] true (net_status 201)) [0] eq_refl).
  right. right. reflexivity.
Defined.

Lemma pending_mark_all h refs :
  pending (mark_all (pending h refs) h) refs = [].
Proof.
  unfold pending at 1. apply filter_refs_none. intros a l Ha Hl.
  rewrite mark_all_lookup in Hl.
  destruct (h !! a) as [l0|] eqn:Hl0; [|done]. simpl in Hl.
  injection Hl as <-. case_bool_decide as Hin; [done|].
  destruct (loc_synced l0) eqn:Hs; [done|]. destruct Hin.
  apply filter_refs_spec. split; [done|]. exists l0. by rewrite Hs.
Qed.

Lemma failures_none evs :
  Forall (fun ev => result_ok ev.2 = true) evs -> failures evs = 0.
Proof.
  unfold failures. induction 1 as [|ev evs Hev _ IH]; simpl; [done|].
  by rewrite Hev.
Qed.

(** X25. Against a service that answers every request with a 2xx status, a
    tick of the timer (no sync in flight, offline mode off) leaves no record
    pending: it returns normally, sends one request per record that was
    pending, and afterwards every record of the array is synced. *)
Theorem autoSyncTick_drains st refs :
  locations st = LArray refs ->
  refs_valid (heap st) refs ->
  isSyncing (syncState st) = false ->
  offlineMode (config st) = false ->
  (forall history req, result_ok (network st history req) = true) ->
  exists st' evs,
    autoSyncTick st = (Ret tt, st')
    /\ exchanges st' = exchanges st ++ evs
    /\ length evs = length (pending (heap st) refs)
    /\ locations st' = LArray refs
    /\ pending (heap st') refs = []
    /\ isSyncing (syncState st') = false.
Proof.
  intros Hloc Hv Hsync Hoff Hnet. rewrite (autoSyncTick_spec st refs Hloc).
  rewrite Hsync, Hoff. change (negb false) with true. rewrite !andb_true_r.
  destruct (decide (pending (heap st) refs = [])) as [Hp|Hp].
  { rewrite Hp. simpl. exists st, []. rewrite app_nil_r. by rewrite Hp. }
  assert ((0 <? length (pending (heap st) refs))%nat = true) as ->
    by (by destruct (pending (heap st) refs)).
  set (st0 := (log _ _ st).2).
  destruct (syncNow_sweep st0 refs) as (evs & st' & Hrun & Hsub & Hheap & Hex
                                        & Hlocs & Hflag & _); try done.
  simpl in Hsub, Hheap, Hex.
  pose proof (submitted_length _ _ _ Hsub) as Hlen.
  assert (failures evs = 0) as Hf.
  { apply failures_none, Forall_forall. intros ev Hev.
    apply list_elem_of_lookup in Hev as [k Hk].
    destruct Hsub as [_ Hnetw]. rewrite (Hnetw k ev Hk). apply Hnet. }
  rewrite (succeeded_all _ _ Hlen Hf) in Hheap.
  exists st', evs. split; [done|]. split; [done|]. split; [done|].
  split; [done|]. split; [|done].
  rewrite Hheap. apply pending_mark_all.
Qed.

(** X25 for two pending records. *)
Lemma autoSyncTick_drains_witness :
  exists st' evs,
    autoSyncTick (page [kudzu; bottle] false (net_status 201)) = (Ret tt, st')
    /\ exchanges st' = [] ++ evs
    /\ length evs = 2
    /\ locations st' = LArray [0; 1]
    /\ pending (heap st') [0; 1] = []
    /\ isSyncing (syncState st') = false.
Proof.
  apply (autoSyncTick_drains (page [kudzu; bottle] false (net_status 201))
           [0; 1] eq_refl).
  - apply Forall_cons. split; [by exists kudzu|].
    apply Forall_singleton. by exists bottle.
  - reflexivity.
  - reflexivity.
  - intros history req. reflexivity.
Defined.

(** *** Importing a file *)

Lemma sublist_omap {A B} (f : A -> option B) l1 l2 :
  l1 `sublist_of` l2 -> omap f l1 `sublist_of` omap f l2.
Proof.
  induction 1 as [|x l1 l2 _ IH|x l1 l2 _ IH]; csimpl; [done| |];
    destruct (f x); try done; by constructor.
Qed.

Lemma omap_valid_length (h : list Location) (refs : list nat) :
  refs_valid h refs -> length (omap (fun a => h !! a) refs) = length refs.
Proof.
  induction 1 as [|a refs [l Hl] _ IH]; csimpl; [done|].
  rewrite Hl. simpl. by rewrite IH.
Qed.

Lemma ids_elem (h : list Location) (refs : list nat) x :
  x ∈ loc_id <$> omap (fun a => h !! a) refs
  <-> exists a l, a ∈ refs /\ h !! a = Some l /\ loc_id l = x.
Proof.
  rewrite list_elem_of_fmap. split.
  - intros (l & -> & (a & Ha & Hl)%list_elem_of_omap). by exists a, l.
  - intros (a & l & Ha & Hl & <-). exists l. split; [done|].
    apply list_elem_of_omap. by exists a.
Qed.

Lemma import_each_spec imported : forall k st refs,
  locations st = LArray refs ->
  refs_valid (heap st) refs ->
  refs_valid (heap st) imported ->
  exists st' added,
    import_each imported k st = (Ret (k + length added), st')
    /\ heap st' = heap st
    /\ locations st' = LArray (refs ++ added)
    /\ added `sublist_of` imported
    /\ (forall a l, a ∈ imported -> heap st !! a = Some l ->
          loc_id l ∈ loc_id <$> omap (fun b => heap st !! b) (refs ++ added))
    /\ (NoDup (loc_id <$> omap (fun b => heap st !! b) refs) ->
        NoDup (loc_id <$> omap (fun b => heap st !! b) (refs ++ added)))
    /\ exchanges st' = exchanges st
    /\ tracker_locations st' = tracker_locations st
    /\ storage_writable st' = storage_writable st
    /\ console_errors st' = console_errors st
    /\ toasts st' = toasts st
    /\ debugLog st' = debugLog st.
Proof.
  induction imported as [|a rest IH]; intros k st refs Hloc Hv Hi.
  { exists st, []. rewrite app_nil_r, Nat.add_0_r. simpl.
    repeat split; try done. intros a l Ha. by apply elem_of_nil in Ha. }
  apply Forall_cons in Hi as [[l Hl] Hi]. simpl.
  rewrite (bind_run _ _ _ _ _ (locations_array_ok _ _ _ Hloc)).
  rewrite (bind_run _ _ _ _ _ (read_ok _ _ _ Hl)).
  rewrite (bind_run get _ st st st eq_refl).
  destruct (head (filter_refs _ (heap st) refs)) as [b|] eqn:Hfind.
  - destruct (IH k st refs Hloc Hv Hi)
      as (st' & added & Hrun & Hheap & Hlocs & Hsub & Hids & Hnd & Hrest).
    exists st', added. split; [done|]. split; [done|]. split; [done|].
    split; [by apply sublist_cons|]. split; [|done].
    intros a' l' [->|Ha']%elem_of_cons Hl'; [|by eapply Hids].
    assert (l' = l) as -> by congruence.
    assert (b ∈ filter_refs (fun l0 => Z.eqb (loc_id l0) (loc_id l)) (heap st) refs)
      as Hb.
    { destruct (filter_refs _ _ _); [done|]. injection Hfind as ->. by left. }
    apply filter_refs_spec in Hb as (Hb & lb & Hlb & Heq%Z.eqb_eq).
    apply ids_elem. exists b, lb. split; [|done]. apply elem_of_app. by left.
  - apply head_None in Hfind.
    erewrite bind_run; [|by apply push_run].
    erewrite bind_run; [|by apply (addMarker_run _ _ l)].
    set (st1 := set_markers _ _).
    destruct (IH (S k) st1 (refs ++ [a])) as
      (st' & added & Hrun & Hheap & Hlocs & Hsub & Hids & Hnd & Hrest);
      [done| |done|].
    { simpl. apply Forall_app. split; [done|]. apply Forall_singleton. by exists l. }
    simpl in Hids, Hnd, Hrest, Hheap, Hrun.
    exists st', (a :: added).
    replace (refs ++ a :: added) with ((refs ++ [a]) ++ added)
      by (by rewrite <- app_assoc).
    split; [rewrite Hrun; do 2 f_equal; simpl; lia|].
    split; [done|]. split; [done|]. split; [by apply sublist_skip|].
    split; [|split; [|done]].
    + intros a' l' [->|Ha']%elem_of_cons Hl'; [|by eapply Hids].
      assert (l' = l) as -> by congruence.
      apply ids_elem. exists a, l. split; [|done]. set_solver.
    + intros Hnodup. apply Hnd. rewrite omap_app, fmap_app. csimpl.
      rewrite Hl. simpl. apply NoDup_app. split; [done|]. split.
      * intros x Hx ->%list_elem_of_singleton.
        apply ids_elem in Hx as (c & lc & Hc & Hlc & Heq).
        assert (c ∈ filter_refs (fun l0 => Z.eqb (loc_id l0) (loc_id l))
                      (heap st) refs) as Hin.
        { apply filter_refs_spec. split; [done|]. exists lc. split; [done|].
          by apply Z.eqb_eq. }
        rewrite Hfind in Hin. by apply elem_of_nil in Hin.
      * apply NoDup_singleton.
Qed.

(** Which records the loop appends: those of [new_records]. *)
Lemma import_each_added imported : forall k st refs,
  locations st = LArray refs ->
  refs_valid (heap st) imported ->
  exists st' added,
    import_each imported k st = (Ret (k + length added), st')
    /\ locations st' = LArray (refs ++ added)
    /\ omap (fun b => heap st !! b) added
       = new_records (loc_id <$> omap (fun b => heap st !! b) refs)
                     (omap (fun b => heap st !! b) imported).
Proof.
  induction imported as [|a rest IH]; intros k st refs Hloc Hi.
  { exists st, []. by rewrite app_nil_r, Nat.add_0_r. }
  apply Forall_cons in Hi as [[l Hl] Hi]. simpl.
  rewrite (bind_run _ _ _ _ _ (locations_array_ok _ _ _ Hloc)).
  rewrite (bind_run _ _ _ _ _ (read_ok _ _ _ Hl)).
  rewrite (bind_run get _ st st st eq_refl).
  csimpl. rewrite Hl. csimpl.
  destruct (head (filter_refs _ (heap st) refs)) as [b|] eqn:Hfind.
  - destruct (IH k st refs Hloc Hi) as (st' & added & Hrun & Hlocs & Hnew).
    exists st', added. split; [done|]. split; [done|].
    rewrite bool_decide_true; [done|].
    assert (b ∈ filter_refs (fun l0 => Z.eqb (loc_id l0) (loc_id l)) (heap st) refs)
      as Hb.
    { destruct (filter_refs _ _ _); [done|]. injection Hfind as ->. by left. }
    apply filter_refs_spec in Hb as (Hb & lb & Hlb & Heq%Z.eqb_eq).
    apply ids_elem. by exists b, lb.
  - apply head_None in Hfind.
    erewrite bind_run; [|by apply push_run].
    erewrite bind_run; [|by apply (addMarker_run _ _ l)].
    set (st1 := set_markers _ _).
    destruct (IH (S k) st1 (refs ++ [a])) as (st' & added & Hrun & Hlocs & Hnew);
      [done|done|].
    simpl in Hnew, Hrun.
    exists st', (a :: added).
    replace (refs ++ a :: added) with ((refs ++ [a]) ++ added)
      by (by rewrite <- app_assoc).
    split; [rewrite Hrun; do 2 f_equal; simpl; lia|]. split; [done|].
    csimpl. rewrite Hl. csimpl.
    rewrite bool_decide_false.
    + rewrite Hnew, omap_app, fmap_app. csimpl. by rewrite Hl.
    + intros (c & lc & Hc & Hlc & Heq)%ids_elem.
      assert (c ∈ filter_refs (fun l0 => Z.eqb (loc_id l0) (loc_id l))
                    (heap st) refs) as Hin.
      { apply filter_refs_spec. split; [done|]. exists lc. split; [done|].
        by apply Z.eqb_eq. }
      rewrite Hfind in Hin. by apply elem_of_nil in Hin.
Qed.

(** X26. [importData] never throws. Without a file it does nothing; for a
    file that is not JSON, or whose JSON is not an array, it shows the
    toast 'Import failed: Invalid file' and leaves the store, the markers
    and the stored item as they were: unlike [loadStoredLocations] it never
    puts a value that is not an array in [this.locations]. *)
Theorem importData_rejects_invalid_file file st :
  exists st',
    importData file st = (Ret tt, st')
    /\ match file with
       | None => st' = st
       | Some (JsonArray _) => True
       | Some _ =>
           locations st' = locations st
           /\ heap st' = heap st
           /\ markers st' = markers st
           /\ tracker_locations st' = tracker_locations st
           /\ exchanges st' = exchanges st
           /\ last (toasts st') = Some ("Import failed: Invalid file", "error")
       end.
Proof.
  destruct file as [[|ls|v]|]; simpl.
  - eexists. split; [reflexivity|]. simpl. rewrite last_snoc. by repeat split.
  - unfold try_catch.
    destruct (bind _ _ st) as [[[]|e] st1]; eexists; split; try reflexivity; done.
  - eexists. split; [reflexivity|]. simpl. rewrite last_snoc. by repeat split.
  - by exists st.
Qed.

(** X27. Importing a file that holds an array of records merges it into a
    store that is an array: the records of the store are kept, in their
    order, and followed, in the order of the file, by exactly the imported
    records whose id neither the store nor an earlier record of the file
    has (of two imported records with one id, the first). Afterwards every
    id of the file is in the store, ids that were distinct stay distinct,
    the toast counts the records added, the store is written to
    localStorage, each record as JSON carries it, when localStorage accepts
    the write, and no request is sent. *)
Theorem importData_merges ls st refs :
  locations st = LArray refs ->
  refs_valid (heap st) refs ->
  exists st' added,
    importData (Some (JsonArray ls)) st = (Ret tt, st')
    /\ records st' = records st ++ added
    /\ added = new_records (loc_id <$> records st) ls
    /\ added `sublist_of` ls
    /\ (forall l, l ∈ ls -> loc_id l ∈ loc_id <$> records st')
    /\ (NoDup (loc_id <$> records st) -> NoDup (loc_id <$> records st'))
    /\ exchanges st' = exchanges st
    /\ (storage_writable st = true ->
        tracker_locations st' = JsonRecords (json_record <$> records st'))
    /\ last (toasts st')
       = Some ("Imported " +:+ pretty (length added) +:+ " new locations",
               "success").
Proof.
  intros Hloc Hv. unfold importData, try_catch.
  rewrite (bind_run _ _ _ _ _ (alloc_records_run ls st)).
  set (st0 := set_heap (heap st ++ ls) st).
  destruct (import_each_spec (seq (length (heap st)) (length ls)) 0 st0 refs)
    as (st1 & arefs & Hrun & Hheap & Hlocs & Hsub & Hids & Hnd & Hex & Hitem
        & Hw & Herr & Htoasts & Hlog); [done| | |].
  { by apply refs_valid_app. }
  { apply refs_valid_seq. }
  assert (Hnew : omap (fun a => (heap st ++ ls) !! a) arefs
                 = new_records (loc_id <$> records st) ls).
  { destruct (import_each_added (seq (length (heap st)) (length ls)) 0 st0 refs)
      as (st2 & arefs2 & Hrun2 & Hlocs2 & Hnew2); [done|apply refs_valid_seq|].
    rewrite Hrun in Hrun2. injection Hrun2 as Hlen <-.
    rewrite Hlocs in Hlocs2. injection Hlocs2 as Heq%app_inv_head. subst arefs2.
    simpl in Hnew2. rewrite Hnew2, omap_lookup_seq, omap_lookup_app by done.
    unfold records. by rewrite Hloc. }
  simpl in Hheap, Hids, Hnd, Hex, Hitem, Hw, Htoasts.
  rewrite (bind_run _ _ _ _ _ Hrun).
  erewrite bind_run; [|apply saveToLocalStorage_run].
  erewrite bind_run;
    [|eapply updateStats_array; by rewrite saved_locations].
  erewrite bind_run;
    [|eapply updateLocationList_array; by rewrite saved_locations].
  cbv [bind showToast log modify]. simpl.
  assert (Hrec : omap (fun a => (heap st ++ ls) !! a) (refs ++ arefs)
                 = records st
                   ++ omap (fun a => (heap st ++ ls) !! a) arefs).
  { rewrite omap_app, omap_lookup_app by done. unfold records. by rewrite Hloc. }
  assert (Hvalid : refs_valid (heap st ++ ls) arefs).
  { unfold refs_valid. rewrite Forall_forall. intros a Ha.
    pose proof (refs_valid_seq (heap st) ls) as Hseq.
    unfold refs_valid in Hseq. rewrite Forall_forall in Hseq.
    apply Hseq. by eapply elem_of_sublist. }
  eexists. exists (omap (fun a => (heap st ++ ls) !! a) arefs).
  split; [reflexivity|]. simpl.
  assert (Hrecs : forall s, locations s = LArray (refs ++ arefs) ->
                            heap s = heap st ++ ls ->
                            records s = records st
                              ++ omap (fun a => (heap st ++ ls) !! a) arefs).
  { intros s Hl Hh. unfold records at 1. by rewrite Hl, Hh. }
  rewrite (Hrecs _) by (simpl; by rewrite ?saved_locations, ?saved_heap).
  split; [done|]. split; [done|]. split.
  { pose proof (sublist_omap (fun a => (heap st ++ ls) !! a) _ _ Hsub) as Hs.
    by rewrite omap_lookup_seq in Hs. }
  split.
  { intros l (i & Hi)%list_elem_of_lookup. rewrite <- Hrec.
    apply (Hids (length (heap st) + i)).
    - apply elem_of_seq. apply lookup_lt_Some in Hi. lia.
    - rewrite lookup_app_r by lia. rewrite <- Hi. f_equal. lia. }
  split.
  { intros Hnodup. rewrite <- Hrec. apply Hnd.
    rewrite omap_lookup_app by done. unfold records in Hnodup.
    by rewrite Hloc in Hnodup. }
  rewrite omap_valid_length by done. rewrite Nat.add_0_l in *.
  unfold saved. rewrite Hw.
  destruct (storage_writable st); simpl; rewrite last_snoc;
    (split; [done|]); (split; [|done]); [|done].
  intros _. unfold stringify_locations. rewrite Hlocs, Hheap. by rewrite Hrec.
Qed.

(** X27 for a file that repeats a record of the store and brings a new one
    twice, with two notes: the first of the two is taken. *)
Lemma importData_merges_witness :
  let again := {| loc_id := loc_id bottle; loc_type := "litter";
                  loc_note := "the same bottle"; loc_lat := 38.5;
                  loc_lng := -77.125;
                  loc_timestamp := "2023-11-14T22:16:20.000Z";
                  loc_address := "Address unavailable"; loc_synced := false |} in
  exists st',
    importData (Some (JsonArray [kudzu; bottle; again]))
      (page [kudzu] false net_down)
    = (Ret tt, st')
    /\ records st' = [kudzu; bottle]
    /\ exchanges st' = [].
Proof.
  destruct (importData_merges
              [kudzu; bottle;
               {| loc_id := loc_id bottle; loc_type := "litter";
                  loc_note := "the same bottle"; loc_lat := 38.5;
                  loc_lng := -77.125;
                  loc_timestamp := "2023-11-14T22:16:20.000Z";
                  loc_address := "Address unavailable"; loc_synced := false |}]
              (page [kudzu] false net_down) [0] eq_refl)
    as (st' & added & Hrun & Hrec & Hadded & _ & _ & _ & Hex & _).
  { apply Forall_singleton. by exists kudzu. }
  exists st'. split; [exact Hrun|]. split; [|exact Hex].
  rewrite Hrec, Hadded. vm_compute. reflexivity.
Defined.

End ClientMoreProofs.

(** ** Properties of the other routes *)

Module RoutesProofs.
Import Js Server Routes ServerProofs.

(** *** The table under the statements *)

Lemma set_locations_same db : set_locations (locations db) db = db.
Proof. by destruct db. Qed.

Lemma has_id_rows_with i t : has_id i t = true <-> rows_with i t <> [].
Proof.
  unfold has_id, rows_with. induction t as [|r t IH]; simpl; [done|].
  destruct (Z.eqb (id r) i); simpl; [done|]. exact IH.
Qed.

Lemma rows_with_id i t row : row ∈ rows_with i t -> id row = i /\ row ∈ t.
Proof.
  unfold rows_with. rewrite list_elem_of_In, filter_In, <- list_elem_of_In.
  intros [Hin Heq]. split; [by apply Z.eqb_eq | done].
Qed.

(** An UPDATE of the rows with id [i] that keeps their id. *)
Lemma rows_with_update i f t :
  (forall r, id (f r) = id r) ->
  rows_with i (map (fun old => if Z.eqb (id old) i then f old else old) t)
  = map f (rows_with i t).
Proof.
  intros Hf. unfold rows_with. induction t as [|r t IH]; simpl; [done|].
  destruct (Z.eqb (id r) i) eqn:E; simpl.
  - rewrite Hf, E. simpl. by rewrite IH.
  - by rewrite E.
Qed.

Lemma rows_with_update_other i j f t :
  i <> j ->
  (forall r, id (f r) = id r) ->
  rows_with j (map (fun old => if Z.eqb (id old) i then f old else old) t)
  = rows_with j t.
Proof.
  intros Hij Hf. unfold rows_with. induction t as [|r t IH]; simpl; [done|].
  destruct (Z.eqb (id r) i) eqn:E; simpl; rewrite ?Hf, IH; [|done].
  apply Z.eqb_eq in E. by destruct (Z.eqb_spec (id r) j); [lia|].
Qed.

Lemma ids_update i f t :
  (forall r, id (f r) = id r) ->
  map id (map (fun old => if Z.eqb (id old) i then f old else old) t) = map id t.
Proof.
  intros Hf. induction t as [|r t IH]; simpl; [done|].
  rewrite IH. by destruct (Z.eqb (id r) i); rewrite ?Hf.
Qed.

Lemma rows_with_upsert new t : rows_with (id new) (upsert_row new t) <> [].
Proof.
  unfold upsert_row. destruct (has_id (id new) t) eqn:H.
  - rewrite (rows_with_update (id new) (do_update new)) by done.
    apply has_id_rows_with in H. by destruct (rows_with (id new) t).
  - rewrite rows_with_app. unfold rows_with at 2. simpl. rewrite Z.eqb_refl.
    by destruct (rows_with (id new) t).
Qed.

(** DELETE FROM locations WHERE id = i *)
Lemma rows_with_deleted i t :
  rows_with i (List.filter (fun r => negb (Z.eqb (id r) i)) t) = [].
Proof.
  unfold rows_with. induction t as [|r t IH]; simpl; [done|].
  destruct (Z.eqb (id r) i) eqn:E; simpl; [done|]. by rewrite E.
Qed.

Lemma rows_with_delete_other i j t :
  i <> j ->
  rows_with j (List.filter (fun r => negb (Z.eqb (id r) i)) t) = rows_with j t.
Proof.
  intros Hij. unfold rows_with. induction t as [|r t IH]; simpl; [done|].
  destruct (Z.eqb (id r) i) eqn:E; simpl; rewrite IH; [|done].
  apply Z.eqb_eq in E. by destruct (Z.eqb_spec (id r) j); [lia|].
Qed.

Lemma delete_absent i t :
  rows_with i t = [] -> List.filter (fun r => negb (Z.eqb (id r) i)) t = t.
Proof.
  unfold rows_with. induction t as [|r t IH]; simpl; [done|].
  destruct (Z.eqb (id r) i); simpl; [done|]. intros H. by rewrite IH.
Qed.

Lemma filter_elem_of {A} (f : A -> bool) l x :
  x ∈ List.filter f l <-> x ∈ l /\ f x = true.
Proof. by rewrite !list_elem_of_In, filter_In. Qed.

Lemma pk_unique_filter f t : pk_unique t -> pk_unique (List.filter f t).
Proof.
  unfold pk_unique. induction t as [|r t IH]; simpl; [done|].
  rewrite NoDup_cons. intros [Hr Ht]. destruct (f r); simpl; [|by apply IH].
  apply NoDup_cons. split; [|by apply IH].
  intros (r' & Hid & Hin)%list_elem_of_fmap. apply Hr.
  apply list_elem_of_fmap. exists r'. split; [done|].
  by apply filter_elem_of in Hin as [Hin _].
Qed.

Lemma types_valid_filter f t : types_valid t -> types_valid (List.filter f t).
Proof.
  unfold types_valid. rewrite !Forall_forall. intros H r Hr.
  apply filter_elem_of in Hr as [Hr _]. by apply H.
Qed.

Lemma types_valid_upsert new t :
  type new = "plant" \/ type new = "litter" ->
  types_valid t -> types_valid (upsert_row new t).
Proof.
  intros Hnew Ht. unfold upsert_row, types_valid.
  destruct (has_id (id new) t).
  - apply Forall_fmap. eapply Forall_impl; [exact Ht|]. simpl.
    intros old Hold. by destruct (Z.eqb (id old) (id new)).
  - apply Forall_app. split; [done|]. by apply Forall_singleton.
Qed.

Lemma types_valid_insert new t :
  type new = "plant" \/ type new = "litter" ->
  types_valid t -> types_valid (insert_or_skip new t).
Proof.
  intros Hnew Ht. unfold insert_or_skip, types_valid.
  destruct (has_id (id new) t); [done|].
  apply Forall_app. split; [done|]. by apply Forall_singleton.
Qed.

(** *** The statements of the claims' handlers, by cases *)

(** POST /api/locations either leaves the database as it was, with an
    answer that is not 201, or upserts the proposed row and answers 201. *)
Lemma create_location_cases pg env now db req :
  ((create_location pg env now db req).2 = db
   /\ status (create_location pg env now db req).1 <> 201)
  \/ exists new row rest,
       connected db = true
       /\ (type new = "plant" \/ type new = "litter")
       /\ request_id pg req = Some (id new)
       /\ rows_with (id new) (upsert_row new (locations db)) = row :: rest
       /\ create_location pg env now db req
          = ({| status := 201;
                json := SavedJson "Location saved successfully" (view row) |},
             set_locations (upsert_row new (locations db)) db).
Proof.
  unfold create_location, query_upsert, request_id.
  destruct (get_prop (body req) "id") as [vid|]; [|by left].
  destruct (get_prop (body req) "type") as [vtype|]; [|by left].
  destruct (get_prop (body req) "note") as [vnote|]; [|by left].
  destruct (get_prop (body req) "latitude") as [vlat|]; [|by left].
  destruct (get_prop (body req) "longitude") as [vlng|]; [|by left].
  destruct (get_prop (body req) "timestamp") as [vts|]; [|by left].
  destruct (get_prop (body req) "address") as [vaddr|]; [|by left].
  destruct (_ || _ || _ || _ || _ || _); [by left|].
  destruct (_ && _); [by left|].
  destruct (_ || _); [by left|].
  destruct (connected db); simpl; [|by left].
  destruct (insert_values _ _ _ _ _ _ _ _ _) as [new|] eqn:Hnew; [|by left].
  pose proof (rows_with_upsert new (locations db)) as Hne.
  destruct (rows_with _ _) as [|row rest] eqn:Hrows; [done|].
  right. exists new, row, rest.
  apply insert_values_fields in Hnew as (Hi & _ & _ & _ & _ & _ & _ & Hty & _).
  by rewrite Hi.
Qed.

(** One turn of the loop of POST /api/import. *)
Lemma import_loop_step pg now loc rest imported failed db :
  import_loop pg now (loc :: rest) imported failed db =
  match get_prop loc "id" with
  | None => (Escaped, db)
  | Some vid =>
      match (if connected db then import_row pg now loc else None) with
      | Some new =>
          import_loop pg now rest (S imported) failed
            (set_locations (insert_or_skip new (locations db)) db)
      | None =>
          if printable vid
          then import_loop pg now rest imported (S failed) db
          else (Escaped, db)
      end
  end.
Proof.
  destruct loc; try done; simpl; unfold query_insert, import_row; simpl;
    destruct (connected db); simpl; try done;
    by destruct (insert_values _ _ _ _ _ _ _ _ _).
Qed.

Lemma import_row_valid pg now loc new :
  import_row pg now loc = Some new -> type new = "plant" \/ type new = "litter".
Proof.
  unfold import_row. repeat case_match; try done.
  intros Hnew%insert_values_fields. by intuition.
Qed.

(** Whether the statement is accepted, and the id it proposes, do not depend
    on the time of the statement. *)
Lemma import_row_now pg now now' loc :
  match import_row pg now loc, import_row pg now' loc with
  | Some new, Some new' => id new' = id new
  | None, None => True
  | _, _ => False
  end.
Proof.
  unfold import_row, insert_values, proposed_row.
  repeat case_match; simplify_eq; done.
Qed.

(** A property of the table that every accepted insert keeps is kept by the
    loop, however it ends. *)
Lemma import_loop_keeps (P : Table -> Prop) pg now :
  (forall new t, type new = "plant" \/ type new = "litter" ->
                 P t -> P (insert_or_skip new t)) ->
  forall locs imported failed db,
    P (locations db) ->
    P (locations (import_loop pg now locs imported failed db).2).
Proof.
  intros Hstep. induction locs as [|loc rest IH]; intros imported failed db HP;
    [done|].
  rewrite import_loop_step. destruct (get_prop loc "id") as [vid|]; [|done].
  destruct (connected db); [|by destruct (printable vid); [apply IH|]].
  destruct (import_row pg now loc) as [new|] eqn:Hrow;
    [|by destruct (printable vid); [apply IH|]].
  apply IH. simpl. apply Hstep; [|done]. by eapply import_row_valid.
Qed.

Lemma import_loop_connected pg now : forall locs imported failed db,
  connected (import_loop pg now locs imported failed db).2 = connected db.
Proof.
  induction locs as [|loc rest IH]; intros imported failed db; [done|].
  rewrite import_loop_step. destruct (get_prop loc "id") as [vid|]; [|done].
  destruct (connected db) eqn:Hc; [|by destruct (printable vid); rewrite ?IH].
  destruct (import_row pg now loc); [by rewrite IH|].
  by destruct (printable vid); rewrite ?IH.
Qed.

(** *** The handlers of the other routes, by cases *)

(** PUT /api/locations/:id either leaves the database as it was, with an
    answer that is not 200, or updates the rows with the id of the path. *)
Lemma update_location_cases pg path env now db req :
  ((update_location pg path env now db req).2 = db
   /\ code (update_location pg path env now db req).1 <> 200)
  \/ exists i n a old rest,
       connected db = true
       /\ bigint_in pg (JStr path) = Some i
       /\ rows_with i (locations db) = old :: rest
       /\ update_location pg path env now db req
          = ({| code := 200;
                payload := PUpdated "Location updated successfully"
                                    (view (update_row n a now old)) |},
             set_locations
               (map (fun old => if Z.eqb (id old) i then update_row n a now old
                                else old) (locations db)) db).
Proof.
  unfold update_location.
  destruct (get_prop (body req) "note") as [vnote|]; [|by left].
  destruct (get_prop (body req) "address") as [vaddr|]; [|by left].
  destruct (connected db); simpl; [|by left].
  destruct (bigint_in pg (JStr path)) as [i|]; [|by left].
  destruct (has_id i (locations db)) eqn:Hid; simpl; [|by left].
  destruct (negb (is_defined vnote) && negb (is_defined vaddr)); [by left|].
  destruct (if is_defined vnote then _ else _) as [n|]; [|by left].
  destruct (if is_defined vaddr then _ else _) as [a|]; [|by left].
  rewrite (rows_with_update i (update_row n a now)) by done.
  apply has_id_rows_with in Hid.
  destruct (rows_with i (locations db)) as [|old rest] eqn:Hrows; [done|].
  right. by exists i, n, a, old, rest.
Qed.

(** DELETE /api/locations/:id either leaves the database as it was, with an
    answer that is not 200, or deletes the rows with the id of the path. *)
Lemma delete_location_cases pg path env now db req :
  ((delete_location pg path env now db req).2 = db
   /\ code (delete_location pg path env now db req).1 <> 200)
  \/ exists i row rest,
       connected db = true
       /\ bigint_in pg (JStr path) = Some i
       /\ rows_with i (locations db) = row :: rest
       /\ delete_location pg path env now db req
          = ({| code := 200;
                payload := PDeleted "Location deleted successfully" i |},
             set_locations
               (List.filter (fun r => negb (Z.eqb (id r) i)) (locations db)) db).
Proof.
  unfold delete_location.
  destruct (connected db); simpl; [|by left].
  destruct (bigint_in pg (JStr path)) as [i|]; [|by left].
  destruct (rows_with i (locations db)) as [|row rest] eqn:Hrows; [by left|].
  right. exists i, row, rest.
  assert (id row = i) as ->; [|done].
  eapply (rows_with_id i (locations db)). rewrite Hrows. by left.
Qed.

Lemma authenticated_cases (h : Route) env now db req :
  authenticated h env now db req = (error_reply 401 "Unauthorized", db)
  \/ authenticated h env now db req = h env now db req.
Proof.
  unfold authenticated. destruct (authenticate env req) as [resp|] eqn:H;
    [|by right].
  left. revert H. unfold authenticate.
  destruct (_ || _); [done|]. destruct (_ || _); [|done]. by intros [= <-].
Qed.

Lemma guarded_cases (h : Handler) env now db req :
  guarded authenticate h env now db req
  = ({| status := 401; json := ErrorJson "Unauthorized" |}, db)
  \/ guarded authenticate h env now db req = h env now db req.
Proof.
  unfold guarded. destruct (authenticate env req) as [resp|] eqn:H;
    [|by right].
  left. revert H. unfold authenticate.
  destruct (_ || _); [done|]. destruct (_ || _); [|done]. by intros [= <-].
Qed.

(** *** Authentication *)

(** X1. Where an API key is configured and the server does not run in
    development mode, a request whose X-API-Key header is missing or differs
    from the key is answered 401 by every route registered with
    [authenticate], and its handler does not run: the database is left as
    it was. *)
Theorem authenticate_rejects (h : Route) (h' : Handler) env now db req key :
  NODE_ENV env <> Some "development" ->
  API_KEY env = Some key ->
  key <> "" ->
  x_api_key req <> Some key ->
  authenticated h env now db req = (error_reply 401 "Unauthorized", db)
  /\ guarded authenticate h' env now db req
     = ({| status := 401; json := ErrorJson "Unauthorized" |}, db).
Proof.
  intros Hdev Hkey Hne Hreq.
  assert (authenticate env req
          = Some {| status := 401; json := ErrorJson "Unauthorized" |}) as Ha.
  { unfold authenticate. rewrite Hkey. simpl.
    destruct (NODE_ENV env) as [e|].
    - destruct (String.eqb_spec e "development") as [->|_]; [done|].
      destruct (String.eqb_spec key "") as [->|_]; [done|]. simpl.
      destruct (x_api_key req) as [a|]; [|done]. simpl.
      destruct (String.eqb_spec a key) as [->|_]; [done|].
      by rewrite orb_true_r.
    - destruct (String.eqb_spec key "") as [->|_]; [done|]. simpl.
      destruct (x_api_key req) as [a|]; [|done]. simpl.
      destruct (String.eqb_spec a key) as [->|_]; [done|].
      by rewrite orb_true_r. }
  unfold authenticated, guarded. by rewrite Ha.
Qed.

(** X1 for the route that deletes every row, called without a key. *)
Lemma authenticate_rejects_witness :
  DELETE_api_locations production "t2" kudzu_db
    {| x_api_key := None; body := JUndefined |}
  = (error_reply 401 "Unauthorized", kudzu_db).
Proof.
  apply (authenticate_rejects delete_all GET_api_health production "t2" kudzu_db
           {| x_api_key := None; body := JUndefined |} "secret"); done.
Defined.

(** X2. [authenticate] lets a request through to the handler in three
    cases: the server runs in development mode, no API key is configured
    (whatever the header says, even none), or the header carries the
    configured key. *)
Theorem authenticate_passes (h : Route) (h' : Handler) env now db req :
  NODE_ENV env = Some "development"
  \/ API_KEY env = None
  \/ API_KEY env = Some ""
  \/ (exists key, key <> "" /\ API_KEY env = Some key /\ x_api_key req = Some key) ->
  authenticated h env now db req = h env now db req
  /\ guarded authenticate h' env now db req = h' env now db req.
Proof.
  intros H.
  assert (authenticate env req = None) as Ha.
  { unfold authenticate.
    destruct H as [->|[->|[->|(key & Hne & -> & ->)]]]; simpl.
    - done.
    - by rewrite orb_true_r.
    - by rewrite orb_true_r.
    - destruct (String.eqb_spec key "") as [->|_]; [done|].
      rewrite String.eqb_refl. simpl. by destruct (_ || _). }
  unfold authenticated, guarded. by rewrite Ha.
Qed.

(** X2 where no key is configured: a request without a header deletes every
    row. *)
Lemma authenticate_passes_witness :
  DELETE_api_locations {| NODE_ENV := Some "production"; API_KEY := None |}
    "t2" kudzu_db {| x_api_key := None; body := JUndefined |}
  = ({| code := 200; payload := PDeletedAll "All locations deleted" 1 |}, empty_db).
Proof.
  apply (proj1 (authenticate_passes delete_all GET_api_health
                  {| NODE_ENV := Some "production"; API_KEY := None |}
                  "t2" kudzu_db {| x_api_key := None; body := JUndefined |}
                  (or_intror (or_introl eq_refl)))).
Defined.

(** *** Writes *)

(** X3. A write either succeeds or changes nothing: POST /api/locations
    leaves the database as it was unless it answers 201, and PUT
    /api/locations/:id, DELETE /api/locations/:id and DELETE /api/locations
    leave it as it was unless they answer 200. *)
Theorem writes_all_or_nothing pg path env now db req :
  (status (POST_api_locations pg env now db req).1 = 201
   \/ (POST_api_locations pg env now db req).2 = db)
  /\ (code (PUT_api_location pg path env now db req).1 = 200
      \/ (PUT_api_location pg path env now db req).2 = db)
  /\ (code (DELETE_api_location pg path env now db req).1 = 200
      \/ (DELETE_api_location pg path env now db req).2 = db)
  /\ (code (DELETE_api_locations env now db req).1 = 200
      \/ (DELETE_api_locations env now db req).2 = db).
Proof.
  repeat split.
  - unfold POST_api_locations.
    destruct (guarded_cases (create_location pg) env now db req) as [->| ->];
      [by right|].
    destruct (create_location_cases pg env now db req)
      as [[H _]|(new & row & rest & _ & _ & _ & _ & ->)]; [by right|by left].
  - unfold PUT_api_location.
    destruct (authenticated_cases (update_location pg path) env now db req)
      as [->| ->]; [by right|].
    destruct (update_location_cases pg path env now db req)
      as [[H _]|(i & n & a & old & rest & _ & _ & _ & ->)]; [by right|by left].
  - unfold DELETE_api_location.
    destruct (authenticated_cases (delete_location pg path) env now db req)
      as [->| ->]; [by right|].
    destruct (delete_location_cases pg path env now db req)
      as [[H _]|(i & row & rest & _ & _ & _ & ->)]; [by right|by left].
  - unfold DELETE_api_locations.
    destruct (authenticated_cases delete_all env now db req) as [->| ->];
      [by right|].
    unfold delete_all. destruct (connected db); simpl; [by left|by right].
Qed.

(** X4. The constraints of the table are invariants of the service: if no
    two rows share an id and every type is 'plant' or 'litter', the same
    holds after any request to a route that writes, whatever the request and
    the answer. *)
Theorem table_ok_preserved pg path env now db req :
  table_ok (locations db) ->
  table_ok (locations (POST_api_locations pg env now db req).2)
  /\ table_ok (locations (POST_api_import pg env now db req).2)
  /\ table_ok (locations (PUT_api_location pg path env now db req).2)
  /\ table_ok (locations (DELETE_api_location pg path env now db req).2)
  /\ table_ok (locations (DELETE_api_locations env now db req).2).
Proof.
  intros [Hpk Hty]. repeat split.
  - unfold POST_api_locations.
    destruct (guarded_cases (create_location pg) env now db req) as [->| ->];
      [done|]. by apply create_location_pk.
  - unfold POST_api_locations.
    destruct (guarded_cases (create_location pg) env now db req) as [->| ->];
      [done|].
    destruct (create_location_cases pg env now db req)
      as [[-> _]|(new & row & rest & _ & Hnew & _ & _ & ->)]; [done|].
    by apply types_valid_upsert.
  - unfold POST_api_import.
    destruct (guarded_cases (import_locations pg) env now db req) as [->| ->];
      [done|]. by apply import_locations_pk.
  - unfold POST_api_import.
    destruct (guarded_cases (import_locations pg) env now db req) as [->| ->];
      [done|].
    unfold import_locations.
    destruct (get_prop (body req) "locations") as [[]|]; try done.
    pose proof (import_loop_keeps types_valid pg now types_valid_insert
                  items 0 0 db Hty) as H.
    by destruct (import_loop pg now items 0 0 db) as [[] db'].
  - unfold PUT_api_location.
    destruct (authenticated_cases (update_location pg path) env now db req)
      as [->| ->]; [done|].
    destruct (update_location_cases pg path env now db req)
      as [[-> _]|(i & n & a & old & rest & _ & _ & _ & ->)]; [done|].
    unfold pk_unique. simpl. by rewrite (ids_update i (update_row n a now)).
  - unfold PUT_api_location.
    destruct (authenticated_cases (update_location pg path) env now db req)
      as [->| ->]; [done|].
    destruct (update_location_cases pg path env now db req)
      as [[-> _]|(i & n & a & old & rest & _ & _ & _ & ->)]; [done|].
    simpl. apply Forall_fmap. eapply Forall_impl; [exact Hty|]. simpl.
    intros r Hr. by destruct (Z.eqb (id r) i).
  - unfold DELETE_api_location.
    destruct (authenticated_cases (delete_location pg path) env now db req)
      as [->| ->]; [done|].
    destruct (delete_location_cases pg path env now db req)
      as [[-> _]|(i & row & rest & _ & _ & _ & ->)]; [done|].
    by apply pk_unique_filter.
  - unfold DELETE_api_location.
    destruct (authenticated_cases (delete_location pg path) env now db req)
      as [->| ->]; [done|].
    destruct (delete_location_cases pg path env now db req)
      as [[-> _]|(i & row & rest & _ & _ & _ & ->)]; [done|].
    by apply types_valid_filter.
  - unfold DELETE_api_locations.
    destruct (authenticated_cases delete_all env now db req) as [->| ->];
      [done|].
    unfold delete_all. destruct (connected db); simpl; [apply NoDup_nil_2|done].
  - unfold DELETE_api_locations.
    destruct (authenticated_cases delete_all env now db req) as [->| ->];
      [done|].
    unfold delete_all. destruct (connected db); simpl; [apply Forall_nil_2|done].
Qed.

(** X4 at the table of the example, for a PUT that changes the note. *)
Lemma table_ok_preserved_witness :
  table_ok (locations (PUT_api_location pg_text "1700000000000" production "t2"
                         kudzu_db
                         {| x_api_key := Some "secret";
                            body := JObj [("note", JStr "kudzu, cut")] |}).2).
Proof.
  refine (proj1 (proj2 (proj2
    (table_ok_preserved pg_text "1700000000000" production "t2" kudzu_db
       {| x_api_key := Some "secret"; body := JObj [("note", JStr "kudzu, cut")] |}
       _)))).
  split.
  - apply NoDup_singleton.
  - apply Forall_singleton. by left.
Defined.

(** X5. What POST /api/locations has stored, GET /api/locations/:id gives
    back: after an upsert answered 201, an authorised GET whose path carries
    the id of the request answers 200 with the very location object of the
    201 response. *)
Theorem post_then_get pg env now db req i path env' now' req' :
  status (POST_api_locations pg env now db req).1 = 201 ->
  request_id pg req = Some i ->
  bigint_in pg (JStr path) = Some i ->
  authenticate env' req' = None ->
  exists v,
    json (POST_api_locations pg env now db req).1
    = SavedJson "Location saved successfully" v
    /\ GET_api_location pg path env' now'
         (POST_api_locations pg env now db req).2 req'
       = ({| code := 200; payload := PLocation v |},
          (POST_api_locations pg env now db req).2).
Proof.
  intros H201 Hid Hpath Hauth.
  pose proof (POST_api_locations_201 _ _ _ _ _ H201) as E.
  rewrite E in H201 |- *.
  destruct (create_location_cases pg env now db req)
    as [[_ Hno]|(new & row & rest & Hc & _ & Hreq & Hrows & Heq)]; [done|].
  assert (i = id new) as -> by congruence.
  rewrite Heq. simpl. exists (view row). split; [done|].
  unfold GET_api_location, authenticated, get_location. rewrite Hauth. simpl.
  by rewrite Hc, Hpath, Hrows.
Qed.

(** X5 at the example request, read back under its id. *)
Lemma post_then_get_witness :
  let req := {| x_api_key := Some "secret"; body := kudzu_body "kudzu" 38.75 |} in
  exists v,
    json (POST_api_locations pg_text production "t1" empty_db req).1
    = SavedJson "Location saved successfully" v
    /\ GET_api_location pg_text "1700000000000" production "t2"
         (POST_api_locations pg_text production "t1" empty_db req).2
         {| x_api_key := Some "secret"; body := JUndefined |}
       = ({| code := 200; payload := PLocation v |},
          (POST_api_locations pg_text production "t1" empty_db req).2).
Proof.
  apply (post_then_get pg_text production "t1" empty_db
           {| x_api_key := Some "secret"; body := kudzu_body "kudzu" 38.75 |}
           1700000000000 "1700000000000" production "t2"
           {| x_api_key := Some "secret"; body := JUndefined |}).
  - vm_compute. reflexivity.
  - vm_compute. reflexivity.
  - vm_compute. reflexivity.
  - vm_compute. reflexivity.
Defined.

(** X6. After a DELETE /api/locations/:id answered 200 the location is
    gone and nothing else is: a GET of the same path answers 404, a second
    DELETE answers 404 and changes nothing, and the rows of every other id
    are as they were. *)
Theorem delete_then_gone pg path env now db req :
  code (DELETE_api_location pg path env now db req).1 = 200 ->
  let db' := (DELETE_api_location pg path env now db req).2 in
  (forall now', GET_api_location pg path env now' db' req
                = (error_reply 404 "Location not found", db'))
  /\ (forall now', DELETE_api_location pg path env now' db' req
                   = (error_reply 404 "Location not found", db'))
  /\ (forall j, bigint_in pg (JStr path) <> Some j ->
                rows_with j (locations db') = rows_with j (locations db)).
Proof.
  unfold DELETE_api_location, GET_api_location, authenticated.
  destruct (authenticate env req) as [resp|] eqn:Hauth.
  { simpl. intros H. apply authenticate_401 in Hauth. congruence. }
  destruct (delete_location_cases pg path env now db req)
    as [[_ Hno]|(i & row & rest & Hc & Hpath & Hrows & ->)]; [done|].
  intros _. simpl. repeat split.
  - intros now'. unfold get_location. simpl.
    by rewrite Hc, Hpath, rows_with_deleted.
  - intros now'. unfold delete_location. simpl.
    by rewrite Hc, Hpath, rows_with_deleted.
  - intros j Hj. apply rows_with_delete_other. congruence.
Qed.

(** X6 at the table of the example. *)
Lemma delete_then_gone_witness :
  let req := {| x_api_key := Some "secret"; body := JUndefined |} in
  let db' := (DELETE_api_location pg_text "1700000000000" production "t2"
                kudzu_db req).2 in
  locations db' = []
  /\ GET_api_location pg_text "1700000000000" production "t3" db' req
     = (error_reply 404 "Location not found", db').
Proof.
  split; [vm_compute; reflexivity|].
  apply (proj1 (delete_then_gone pg_text "1700000000000" production "t2" kudzu_db
                  {| x_api_key := Some "secret"; body := JUndefined |}
                  eq_refl) "t3").
Defined.

(** X7. PUT /api/locations/:id neither adds nor removes a row, and of a row
    it changes at most note, address and updated_at: id, type, latitude,
    longitude, timestamp and created_at are those of the row before, and a
    row whose id is not the one of the path is left as it was. *)
Theorem put_keeps_columns pg path env now db req :
  Forall2 (fun old new =>
             id new = id old /\ type new = type old
             /\ latitude new = latitude old /\ longitude new = longitude old
             /\ timestamp new = timestamp old /\ created_at new = created_at old
             /\ (bigint_in pg (JStr path) <> Some (id old) -> new = old))
          (locations db)
          (locations (PUT_api_location pg path env now db req).2).
Proof.
  assert (forall t : Table,
            Forall2 (fun old new =>
               id new = id old /\ type new = type old
               /\ latitude new = latitude old /\ longitude new = longitude old
               /\ timestamp new = timestamp old /\ created_at new = created_at old
               /\ (bigint_in pg (JStr path) <> Some (id old) -> new = old)) t t)
    as Hsame.
  { intros t. apply Forall_Forall2_diag, Forall_forall. by intros. }
  unfold PUT_api_location.
  destruct (authenticated_cases (update_location pg path) env now db req)
    as [->| ->]; [apply Hsame|].
  destruct (update_location_cases pg path env now db req)
    as [[-> _]|(i & n & a & old & rest & _ & Hpath & _ & ->)]; [apply Hsame|].
  simpl. apply Forall2_fmap_r, Forall_Forall2_diag, Forall_forall.
  intros r _. unfold compose.
  destruct (Z.eqb_spec (id r) i) as [<-|Hne]; simpl; [|by repeat split].
  by repeat split.
Qed.

(** X8. An authorised PUT that carries a note and no address, for an id
    the table has, answers 200 with the row under its new note, keeps the
    row's address, and a GET of the same path then gives that location. *)
Theorem put_then_get pg path env now db req i old rest n now' :
  authenticate env req = None ->
  connected db = true ->
  bigint_in pg (JStr path) = Some i ->
  rows_with i (locations db) = old :: rest ->
  get_prop (body req) "note" = Some (JStr n) ->
  get_prop (body req) "address" = Some JUndefined ->
  let v := view (update_row (Some n) None now old) in
  v_note v = n
  /\ v_address v = address old
  /\ v_id v = i
  /\ (PUT_api_location pg path env now db req).1
     = {| code := 200; payload := PUpdated "Location updated successfully" v |}
  /\ GET_api_location pg path env now'
       (PUT_api_location pg path env now db req).2 req
     = ({| code := 200; payload := PLocation v |},
        (PUT_api_location pg path env now db req).2).
Proof.
  intros Hauth Hc Hpath Hrows Hnote Haddr. simpl.
  assert (Hid : has_id i (locations db) = true)
    by (apply has_id_rows_with; by rewrite Hrows).
  assert (Hold : id old = i).
  { eapply (rows_with_id i (locations db)). rewrite Hrows. by left. }
  unfold PUT_api_location, GET_api_location, authenticated, update_location,
    get_location.
  rewrite Hauth, Hnote, Haddr, Hc. simpl. rewrite Hpath, Hid. simpl.
  rewrite (rows_with_update i (update_row (Some n) None now)) by done.
  rewrite Hrows. simpl. rewrite Hc. simpl.
  rewrite (rows_with_update i (update_row (Some n) None now)) by done.
  by rewrite Hrows.
Qed.

(** X8 at the table of the example. *)
Lemma put_then_get_witness :
  let req := {| x_api_key := Some "secret";
                body := JObj [("note", JStr "kudzu, cut")] |} in
  (PUT_api_location pg_text "1700000000000" production "t2" kudzu_db req).1
  = {| code := 200;
       payload := PUpdated "Location updated successfully"
                    {| v_id := 1700000000000; v_type := "plant";
                       v_note := "kudzu, cut"; v_lat := 38.75; v_lng := -77.25;
                       v_timestamp := "2023-11-14T22:13:20.000Z";
                       v_address := Some "Centreville"; v_synced := true |} |}.
Proof.
  refine (proj1 (proj2 (proj2 (proj2
    (put_then_get pg_text "1700000000000" production "t2" kudzu_db
       {| x_api_key := Some "secret"; body := JObj [("note", JStr "kudzu, cut")] |}
       1700000000000
       {| id := 1700000000000; type := "plant"; note := "kudzu";
          latitude := 38.75; longitude := -77.25;
          timestamp := "2023-11-14T22:13:20.000Z";
          address := Some "Centreville";
          created_at := "t1"; updated_at := "t1" |}
       [] "kudzu, cut" "t3" _ _ _ _ _ _))))).
  - vm_compute. reflexivity.
  - reflexivity.
  - vm_compute. reflexivity.
  - vm_compute. reflexivity.
  - reflexivity.
  - reflexivity.
Defined.

(** *** Bulk import *)

Lemma import_loop_counts pg now : forall locs imported failed db imported' failed',
  (import_loop pg now locs imported failed db).1 = Counted imported' failed' ->
  imported' + failed' = imported + failed + length locs.
Proof.
  induction locs as [|loc rest IH]; intros imported failed db imported' failed'.
  - simpl. intros [= <- <-]. lia.
  - rewrite import_loop_step. destruct (get_prop loc "id") as [vid|]; [|done].
    destruct (if connected db then import_row pg now loc else None);
      [|destruct (printable vid); [|done]]; intros H%IH; simpl; lia.
Qed.

(** X9. When POST /api/import answers with counts, they add up: imported
    plus failed is total, the number of elements of the batch; so every
    element is counted once, as imported or as failed. *)
Theorem import_counts_add_up pg env now db req :
  match json (POST_api_import pg env now db req).1 with
  | ImportJson _ imported failed total =>
      imported + failed = total
      /\ exists locs, get_prop (body req) "locations" = Some (JArr locs)
                      /\ total = length locs
  | _ => True
  end.
Proof.
  unfold POST_api_import.
  destruct (guarded_cases (import_locations pg) env now db req) as [->| ->];
    [done|].
  unfold import_locations.
  destruct (get_prop (body req) "locations") as [[]|]; try done.
  pose proof (import_loop_counts pg now items 0 0 db) as H.
  destruct (import_loop pg now items 0 0 db) as [[imported failed|] db'];
    [|done].
  simpl. split; [|by exists items].
  specialize (H imported failed eq_refl). lia.
Qed.

Lemma import_loop_appends pg now : forall locs imported failed db,
  exists added,
    locations (import_loop pg now locs imported failed db).2
    = locations db ++ added
    /\ match (import_loop pg now locs imported failed db).1 with
       | Counted imported' _ => imported + length added <= imported'
       | Escaped => True
       end.
Proof.
  induction locs as [|loc rest IH]; intros imported failed db.
  - exists []. simpl. rewrite app_nil_r. split; [done|lia].
  - rewrite import_loop_step. destruct (get_prop loc "id") as [vid|].
    2:{ exists []. simpl. by rewrite app_nil_r. }
    destruct (if connected db then import_row pg now loc else None) as [new|].
    2:{ destruct (printable vid); [apply IH|].
        exists []. simpl. by rewrite app_nil_r. }
    destruct (has_id (id new) (locations db)) eqn:Hid.
    + rewrite (insert_or_skip_present new _ Hid), set_locations_same.
      destruct (IH (S imported) failed db) as (added & Hloc & Hcount).
      exists added. split; [done|].
      destruct (import_loop _ _ _ _ _ _).1; [lia|done].
    + assert (insert_or_skip new (locations db) = locations db ++ [new]) as ->
        by (unfold insert_or_skip; by rewrite Hid).
      destruct (IH (S imported) failed
                  (set_locations (locations db ++ [new]) db))
        as (added & Hloc & Hcount).
      exists (new :: added). simpl in Hloc. rewrite Hloc, <- app_assoc.
      split; [done|].
      destruct (import_loop _ _ _ _ _ _).1; simpl; [lia|done].
Qed.

(** X10. POST /api/import never changes or removes a row the table has:
    the table afterwards is the table before followed by the rows the
    request added, also when the answer is 401, 400 or 500 (a batch that
    fails on a null element keeps the rows inserted before it); and when the
    answer carries counts, at most [imported] rows were added. *)
Theorem import_only_appends pg env now db req :
  exists added,
    locations (POST_api_import pg env now db req).2 = locations db ++ added
    /\ match json (POST_api_import pg env now db req).1 with
       | ImportJson _ imported _ _ => length added <= imported
       | _ => True
       end.
Proof.
  unfold POST_api_import.
  destruct (guarded_cases (import_locations pg) env now db req) as [->| ->].
  { exists []. simpl. by rewrite app_nil_r. }
  unfold import_locations.
  destruct (get_prop (body req) "locations") as [[]|];
    try (exists []; simpl; by rewrite app_nil_r).
  destruct (import_loop_appends pg now items 0 0 db) as (added & Hloc & Hcount).
  exists added.
  destruct (import_loop pg now items 0 0 db) as [[imported failed|] db'];
    simpl in *; split; done.
Qed.

Lemma import_loop_has_id pg now i : forall locs imported failed db,
  has_id i (locations db) = true ->
  has_id i (locations (import_loop pg now locs imported failed db).2) = true.
Proof.
  apply (import_loop_keeps (fun t => has_id i t = true)).
  intros new t _ Ht. unfold insert_or_skip.
  destruct (has_id (id new) t); [done|].
  unfold has_id in *. rewrite existsb_app, Ht. done.
Qed.

Lemma insert_or_skip_has_id new t : has_id (id new) (insert_or_skip new t) = true.
Proof.
  unfold insert_or_skip. destruct (has_id (id new) t) eqn:H; [done|].
  unfold has_id. rewrite existsb_app. simpl. by rewrite Z.eqb_refl, orb_true_r.
Qed.

(** The loop over a batch that has been through it with the database
    reachable inserts nothing, whether the database is reachable then or
    not. *)
Lemma import_loop_again pg now now' : forall locs imported failed db1 db2 i2 f2,
  connected db1 = true ->
  (forall i, has_id i (locations (import_loop pg now locs imported failed db1).2)
             = true ->
             has_id i (locations db2) = true) ->
  (import_loop pg now' locs i2 f2 db2).2 = db2.
Proof.
  induction locs as [|loc rest IH]; intros imported failed db1 db2 i2 f2 Hc Hids;
    [done|].
  rewrite import_loop_step. rewrite import_loop_step, Hc in Hids.
  destruct (get_prop loc "id") as [vid|]; [|done].
  pose proof (import_row_now pg now now' loc) as Hnow.
  destruct (import_row pg now loc) as [new|].
  - destruct (import_row pg now' loc) as [new'|]; [|done].
    destruct (connected db2).
    + assert (has_id (id new') (locations db2) = true) as Hin.
      { apply Hids, import_loop_has_id. simpl. rewrite Hnow.
        apply insert_or_skip_has_id. }
      rewrite (insert_or_skip_present new' (locations db2) Hin),
        set_locations_same.
      eapply IH; [|exact Hids]. done.
    + destruct (printable vid); [|done]. eapply IH; [|exact Hids]. done.
  - destruct (import_row pg now' loc) as [new'|]; [done|].
    assert ((if connected db2 then @None Row else None) = None) as ->
      by (by destruct (connected db2)).
    destruct (printable vid); [|done]. eapply IH; [|exact Hids]. done.
Qed.

(** X11. A batch that POST /api/import handled with the database reachable
    changes nothing when the same request is sent again, at any later
    time and whether or not the database is reachable then: every id the
    first request accepted is present, and ON CONFLICT (id) DO NOTHING
    skips it. *)
Theorem import_twice pg env now now' db req c :
  connected db = true ->
  (POST_api_import pg env now'
     (reachable c (POST_api_import pg env now db req).2) req).2
  = reachable c (POST_api_import pg env now db req).2.
Proof.
  intros Hc. unfold POST_api_import, guarded.
  destruct (authenticate env req); [done|].
  unfold import_locations.
  destruct (get_prop (body req) "locations") as [[]|]; try done.
  pose proof (import_loop_again pg now now' items 0 0 db
                (reachable c (import_loop pg now items 0 0 db).2) 0 0 Hc
                (fun i H => H)) as H.
  destruct (import_loop pg now items 0 0 db) as [[] db1]; simpl in *;
    by destruct (import_loop pg now' items 0 0 (reachable c db1)) as [[] db2];
      simpl in *.
Qed.

(** X11 for a batch of one location, sent to an empty table and sent again
    while the database is unreachable. *)
Lemma import_twice_witness :
  let req := {| x_api_key := Some "secret";
                body := JObj [("locations", JArr [import_loc "plant" (JNum 38.75)])] |} in
  let db1 := (POST_api_import pg_js production "t2"
                {| connected := true; locations := [] |} req).2 in
  length (locations db1) = 1
  /\ (POST_api_import pg_js production "t3" (reachable false db1) req).2
     = reachable false db1.
Proof.
  split; [vm_compute; reflexivity|].
  apply (import_twice pg_js production "t2" "t3"
           {| connected := true; locations := [] |}
           {| x_api_key := Some "secret";
              body := JObj [("locations", JArr [import_loc "plant" (JNum 38.75)])] |}
           false).
  reflexivity.
Defined.

(** Without the first request having reached the database the batch is not
    in the table, and the same request inserts it once the database is
    back. *)
Example import_after_outage :
  let req := {| x_api_key := Some "secret";
                body := JObj [("locations", JArr [import_loc "plant" (JNum 38.75)])] |} in
  let db1 := (POST_api_import pg_js production "t2"
                {| connected := false; locations := [] |} req).2 in
  locations db1 = []
  /\ length (locations (POST_api_import pg_js production "t3"
                          (reachable true db1) req).2) = 1.
Proof. vm_compute. repeat split. Qed.

Lemma import_loop_down pg now : forall locs imported failed db,
  connected db = false ->
  Forall (fun loc => exists vid, get_prop loc "id" = Some vid
                                 /\ printable vid = true) locs ->
  import_loop pg now locs imported failed db
  = (Counted imported (failed + length locs), db).
Proof.
  induction locs as [|loc rest IH]; intros imported failed db Hc Hlocs.
  - simpl. by rewrite Nat.add_0_r.
  - apply Forall_cons in Hlocs as [(vid & Hget & Hprint) Hrest].
    rewrite import_loop_step, Hc, Hget, Hprint.
    rewrite IH by done. simpl. do 2 f_equal. lia.
Qed.

(** X12. With the database unreachable, POST /api/import still answers
    200 for a batch none of whose elements is null and each of whose ids
    the log line can print (an id that is an object with a toString
    property cannot): every element is counted as failed, none as
    imported, and nothing is stored. *)
Theorem import_database_down pg env now db req locs :
  connected db = false ->
  get_prop (body req) "locations" = Some (JArr locs) ->
  Forall (fun loc => exists vid, get_prop loc "id" = Some vid
                                 /\ printable vid = true) locs ->
  import_locations pg env now db req
  = ({| status := 200;
        json := ImportJson "Import completed" 0 (length locs) (length locs) |},
     db).
Proof.
  intros Hc Hbody Hlocs. unfold import_locations.
  by rewrite Hbody, (import_loop_down pg now locs 0 0 db Hc Hlocs).
Qed.

(** X12 for a batch of one location. *)
Lemma import_database_down_witness :
  import_locations pg_js production "t2" {| connected := false; locations := [] |}
    {| x_api_key := Some "secret";
       body := JObj [("locations", JArr [import_loc "plant" (JNum 38.75)])] |}
  = ({| status := 200; json := ImportJson "Import completed" 0 1 1 |},
     {| connected := false; locations := [] |}).
Proof.
  apply (import_database_down pg_js production "t2"
           {| connected := false; locations := [] |}
           {| x_api_key := Some "secret";
              body := JObj [("locations", JArr [import_loc "plant" (JNum 38.75)])] |}
           [import_loc "plant" (JNum 38.75)]).
  - reflexivity.
  - reflexivity.
  - apply Forall_singleton. eexists. split; reflexivity.
Defined.

(** With the database unreachable, a location whose id is an object with a
    toString property ends the request with 500: the statement fails, and
    the catch block's log line throws when it prints the id. *)
Example import_unprintable_id_down :
  let loc := JObj [("id", JObj [("toString", JNum 1)]); ("type", JStr "plant");
                   ("note", JStr "kudzu"); ("lat", JNum 38.75);
                   ("lng", JNum (-77.25));
                   ("timestamp", JStr "2023-11-15T08:00:00.000Z");
                   ("address", JStr "Centreville")] in
  import_locations pg_js production "t2" {| connected := false; locations := [] |}
    {| x_api_key := Some "secret";
       body := JObj [("locations", JArr [import_loc "plant" (JNum 38.75); loc])] |}
  = ({| status := 500; json := ErrorJson "Failed to import data" |},
     {| connected := false; locations := [] |}).
Proof. vm_compute. reflexivity. Qed.

(** *** Reads *)

Lemma insert_desc_perm instant row sorted :
  insert_desc instant row sorted ≡ₚ row :: sorted.
Proof.
  induction sorted as [|r rest IH]; simpl; [done|].
  destruct (later _ _ _); [done|]. rewrite IH. apply Permutation_swap.
Qed.

Lemma order_desc_perm instant t : order_desc instant t ≡ₚ t.
Proof.
  unfold order_desc. induction t as [|r t IH]; simpl; [done|].
  by rewrite insert_desc_perm, IH.
Qed.

(** X13. GET /api/locations answers with locations of the table only: the
    count is the number of locations sent, it does not exceed the limit
    (1000 when none is given), every location sent is a row of the table,
    and when the type parameter is 'plant' or 'litter' every one has that
    type. The database is left as it was. *)
Theorem list_locations_sound instant type limit offset env now db req :
  (GET_api_locations instant type limit offset env now db req).2 = db
  /\ match payload (GET_api_locations instant type limit offset env now db req).1 with
     | PLocations count items =>
         count = length items
         /\ (forall n, limit_value 1000 limit = Some n -> count <= n)
         /\ (limit = Absent -> count <= 1000)
         /\ Forall (fun v => exists row,
                       row ∈ locations db /\ v = view row
                       /\ (type = JStr "plant" \/ type = JStr "litter" ->
                           JStr (Server.type row) = type)) items
     | _ => True
     end.
Proof.
  unfold GET_api_locations.
  destruct (authenticated_cases (list_locations instant type limit offset)
              env now db req) as [->| ->]; [done|].
  unfold list_locations. destruct (connected db); simpl; [|done].
  destruct (limit_value 1000 limit) as [n|] eqn:Hn; [|done].
  destruct (limit_value 0 offset) as [k|]; [|done]. simpl.
  split; [done|]. rewrite length_map. split; [done|].
  split; [|split].
  - intros m [= <-]. rewrite length_take. lia.
  - intros ->. injection Hn as <-. rewrite length_take.
    assert (Z.to_nat 1000 = 1000) as -> by (vm_compute; reflexivity). lia.
  - apply Forall_fmap, Forall_forall. intros row Hrow. exists row.
    apply subseteq_take, subseteq_drop in Hrow.
    rewrite order_desc_perm in Hrow.
    destruct type; simpl in Hrow; try (split; [done|split; [done|]]; by intros []).
    destruct (String.eqb s "plant" || String.eqb s "litter") eqn:Hs.
    + apply filter_elem_of in Hrow as [Hrow Hty]. apply String.eqb_eq in Hty.
      split; [done|]. split; [done|]. intros _. by rewrite Hty.
    + split; [done|]. split; [done|].
      intros [[= ->]|[= ->]]; done.
Qed.

(** X14. GET /api/export, when it answers 200, sends every row of the
    table exactly once (the array is a permutation of the table's rows,
    each without its audit columns), whatever instants the timestamps denote; the
    database is left as it was. *)
Theorem export_is_complete instant env now db req :
  (GET_api_export instant env now db req).2 = db
  /\ match payload (GET_api_export instant env now db req).1 with
     | PExport data => data ≡ₚ map exported (locations db)
     | _ => True
     end.
Proof.
  unfold GET_api_export.
  destruct (authenticated_cases (export_data instant) env now db req) as [->| ->];
    [done|].
  unfold export_data. destruct (connected db); simpl; [|done].
  split; [done|]. apply fmap_Permutation, order_desc_perm.
Qed.

Lemma count_types t :
  types_valid t ->
  length t
  = length (List.filter (fun r => String.eqb (type r) "plant") t)
    + length (List.filter (fun r => String.eqb (type r) "litter") t).
Proof.
  induction 1 as [|r t [Hr|Hr] _ IH]; simpl; [done| |]; rewrite Hr; simpl; lia.
Qed.

Lemma extreme_None better t : extreme better t = None <-> t = [].
Proof.
  unfold extreme. destruct t as [|r t]; simpl; [done|].
  split; [|done]. destruct (foldr _ _ _); [by destruct (better _ _)|done].
Qed.

Lemma extreme_elem better t ts :
  extreme better t = Some ts -> exists row, row ∈ t /\ timestamp row = ts.
Proof.
  unfold extreme. revert ts. induction t as [|r t IH]; intros ts; simpl; [done|].
  destruct (foldr _ _ _) as [best|] eqn:Hbest.
  - destruct (better _ _); intros [= <-].
    + exists r. split; [by left|done].
    + destruct (IH best eq_refl) as (row & Hin & Hts).
      exists row. split; [by right|done].
  - intros [= <-]. exists r. split; [by left|done].
Qed.

Lemma later_total instant a b :
  later instant a b = false -> later instant b a = true.
Proof. unfold later. rewrite Z.leb_gt, Z.leb_le. lia. Qed.

Lemma later_trans instant a b c :
  later instant a b = true -> later instant b c = true ->
  later instant a c = true.
Proof. unfold later. rewrite !Z.leb_le. lia. Qed.

Lemma extreme_best better t best :
  (forall a b, better a b = false -> better b a = true) ->
  (forall a b c, better a b = true -> better b c = true -> better a c = true) ->
  extreme better t = Some best ->
  Forall (fun row => better best (timestamp row) = true) t.
Proof.
  intros Htotal Htrans. unfold extreme. revert best.
  induction t as [|r t IH]; intros best; simpl; [done|].
  assert (Hrefl : forall a, better a a = true).
  { intros a. destruct (better a a) eqn:E; [done|].
    by rewrite (Htotal a a E) in E. }
  destruct (foldr _ _ _) as [b|] eqn:Hb.
  - specialize (IH b eq_refl).
    destruct (better (timestamp r) b) eqn:E; intros [= <-].
    + apply Forall_cons. split; [done|].
      eapply Forall_impl; [exact IH|]. simpl. intros row Hrow.
      by eapply Htrans.
    + apply Forall_cons. split; [by apply Htotal|done].
  - intros [= <-]. apply Forall_cons. split; [done|].
    destruct t as [|r' t]; [done|]. simpl in Hb.
    by destruct (foldr _ _ _); [destruct (better _ _)|].
Qed.

(** X15. The statistics are consistent with the table: in a table that
    satisfies its CHECK on type, total is the number of rows and is the sum
    of plants and litter; earliest and latest are null exactly when the
    table is empty, and otherwise each is the timestamp of a row, no row is
    before earliest and none is after latest. *)
Theorem stats_consistent instant env now db req :
  types_valid (locations db) ->
  match payload (GET_api_stats instant env now db req).1 with
  | PStats total plants litter earliest latest =>
      total = length (locations db)
      /\ total = plants + litter
      /\ (earliest = None <-> locations db = [])
      /\ (latest = None <-> locations db = [])
      /\ (forall ts, earliest = Some ts ->
            (exists row, row ∈ locations db /\ timestamp row = ts)
            /\ Forall (fun row => (instant ts <= instant (timestamp row))%Z)
                      (locations db))
      /\ (forall ts, latest = Some ts ->
            (exists row, row ∈ locations db /\ timestamp row = ts)
            /\ Forall (fun row => (instant (timestamp row) <= instant ts)%Z)
                      (locations db))
  | _ => True
  end.
Proof.
  intros Hty. unfold GET_api_stats.
  destruct (authenticated_cases (get_stats instant) env now db req) as [->| ->];
    [done|].
  unfold get_stats. destruct (connected db); simpl; [|done].
  split; [done|]. split; [by apply count_types|].
  split; [apply extreme_None|]. split; [apply extreme_None|].
  split; intros ts H; (split; [by eapply extreme_elem|]).
  - eapply Forall_impl.
    + eapply extreme_best; [| |exact H]; simpl.
      * intros a b. apply later_total.
      * intros a b c Hab Hbc. by eapply later_trans.
    + simpl. unfold later. intros row Hrow. by apply Z.leb_le.
  - eapply Forall_impl.
    + eapply extreme_best; [| |exact H]; simpl.
      * intros a b. apply later_total.
      * intros a b c. apply later_trans.
    + simpl. unfold later. intros row Hrow. by apply Z.leb_le.
Qed.

(** X15 at the table of the example. *)
Lemma stats_consistent_witness :
  payload (GET_api_stats instant_iso production "t2" kudzu_db
             {| x_api_key := Some "secret"; body := JUndefined |}).1
  = PStats 1 1 0 (Some "2023-11-14T22:13:20.000Z")
           (Some "2023-11-14T22:13:20.000Z")
  /\ match payload (GET_api_stats instant_iso production "t2" kudzu_db
                      {| x_api_key := Some "secret"; body := JUndefined |}).1 with
     | PStats total plants litter _ _ => total = plants + litter
     | _ => True
     end.
Proof.
  split; [reflexivity|].
  assert (types_valid (locations kudzu_db)) as Hty
    by (apply Forall_singleton; by left).
  exact (proj1 (proj2 (stats_consistent instant_iso production "t2" kudzu_db
                         {| x_api_key := Some "secret"; body := JUndefined |}
                         Hty))).
Defined.

Lemma newest_first_sublist instant l1 l2 :
  l1 `sublist_of` l2 -> newest_first instant l2 -> newest_first instant l1.
Proof.
  induction 1 as [|x l1 l2 Hsub IH|x l1 l2 Hsub IH]; simpl; [done| |].
  - intros [Hall Hrest]. split; [|by apply IH].
    rewrite Forall_forall in Hall |- *. intros u Hu. apply Hall.
    by eapply elem_of_sublist.
  - intros [_ Hrest]. by apply IH.
Qed.

Lemma insert_desc_sorted instant row sorted :
  newest_first instant (timestamp <$> sorted) ->
  newest_first instant (timestamp <$> insert_desc instant row sorted).
Proof.
  induction sorted as [|r rest IH]; simpl; [done|].
  intros [Hall Hrest]. unfold later.
  destruct (Z.leb_spec (instant (timestamp r)) (instant (timestamp row)))
    as [Hle|Hlt]; simpl.
  - split; [|done]. apply Forall_cons. split; [done|].
    eapply Forall_impl; [exact Hall|]. simpl. intros u Hu. lia.
  - split; [|by apply IH].
    rewrite (insert_desc_perm instant row rest). simpl.
    apply Forall_cons. split; [lia|done].
Qed.

Lemma order_desc_sorted instant t :
  newest_first instant (timestamp <$> order_desc instant t).
Proof.
  unfold order_desc. induction t as [|r t IH]; simpl; [done|].
  by apply insert_desc_sorted.
Qed.

(** X16. GET /api/export and GET /api/locations send the newest first: in
    the array of either answer no location is before one that follows it,
    whatever the page and the type filter. *)
Theorem newest_location_first instant type limit offset env now db req :
  match payload (GET_api_export instant env now db req).1 with
  | PExport data => newest_first instant (x_timestamp <$> data)
  | _ => True
  end
  /\ match payload (GET_api_locations instant type limit offset env now db req).1 with
     | PLocations _ items => newest_first instant (v_timestamp <$> items)
     | _ => True
     end.
Proof.
  split.
  - unfold GET_api_export.
    destruct (authenticated_cases (export_data instant) env now db req)
      as [->| ->]; [done|].
    unfold export_data. destruct (connected db); simpl; [|done].
    rewrite <- list_fmap_compose.
    apply (order_desc_sorted instant (locations db)).
  - unfold GET_api_locations.
    destruct (authenticated_cases (list_locations instant type limit offset)
                env now db req) as [->| ->]; [done|].
    unfold list_locations. destruct (connected db); simpl; [|done].
    destruct (limit_value 1000 limit) as [n|]; [|done].
    destruct (limit_value 0 offset) as [k|]; [|done]. simpl.
    rewrite <- list_fmap_compose.
    eapply newest_first_sublist; [|apply order_desc_sorted].
    apply fmap_sublist. etrans; [apply sublist_take|apply sublist_drop].
Qed.

End RoutesProofs.
